(** * ExperiFlow proxy: variant assignment, DOM mutation engine, orchestrator

    A shallow embedding of the Go packages [variant], [transform] and
    [middleware] of the proxy, and the properties of its specification
    proved (or refuted) on it.

    Go strings are byte sequences: they are modelled by [string], whose
    characters are 8-bit [ascii] values.  Go's [float64] is modelled by
    the binary64 primitive floats. *)

From Stdlib Require Import ZArith NArith String Ascii List Floats Uint63 Lia Bool Permutation.
From Stdlib Require Import DecimalString.
From stdpp Require Import gmap strings list.

#[local] Set Warnings "-inexact-float,-register-all".
Local Open Scope string_scope.
Local Open Scope Z_scope.

(* ===================================================================== *)
(** * Go standard library: package [strings] *)
(* ===================================================================== *)

Module GoStrings.

(** [asciiSpace] of package [strings]: tab, newline, vertical tab, form
    feed, carriage return, space. *)
Definition isSpace1 (c : ascii) : bool :=
  let n := N_of_ascii c in
  (((9 <=? n) && (n <=? 13)) || (n =? 32))%N.

(** [unicode.IsSpace] on a two-byte UTF-8 sequence: U+0085 and U+00A0. *)
Definition isSpace2 (c1 c2 : ascii) : bool :=
  let n1 := N_of_ascii c1 in
  let n2 := N_of_ascii c2 in
  ((n1 =? 194) && ((n2 =? 133) || (n2 =? 160)))%N.

(** [unicode.IsSpace] on a three-byte UTF-8 sequence: U+1680,
    U+2000..U+200A, U+2028, U+2029, U+202F, U+205F and U+3000. *)
Definition isSpace3 (c1 c2 c3 : ascii) : bool :=
  let n1 := N_of_ascii c1 in
  let n2 := N_of_ascii c2 in
  let n3 := N_of_ascii c3 in
  (((n1 =? 225) && (n2 =? 154) && (n3 =? 128))
   || ((n1 =? 226) && (n2 =? 128)
       && (((128 <=? n3) && (n3 <=? 138)) || (n3 =? 168) || (n3 =? 169) || (n3 =? 175)))
   || ((n1 =? 226) && (n2 =? 129) && (n3 =? 159))
   || ((n1 =? 227) && (n2 =? 128) && (n3 =? 128)))%N.

(** [strings.TrimLeftFunc(s, unicode.IsSpace)]: drop white-space runes
    from the front. *)
Fixpoint trimLeftSpace (s : string) : string :=
  match s with
  | String c1 s1 =>
      if isSpace1 c1 then trimLeftSpace s1
      else match s1 with
           | String c2 s2 =>
               if isSpace2 c1 c2 then trimLeftSpace s2
               else match s2 with
                    | String c3 s3 =>
                        if isSpace3 c1 c2 c3 then trimLeftSpace s3 else s
                    | EmptyString => s
                    end
           | EmptyString => s
           end
  | EmptyString => s
  end.

(** The string starts with a white-space rune. *)
Definition lead (s : string) : bool :=
  match s with
  | String c1 s1 =>
      isSpace1 c1
      || match s1 with
         | String c2 s2 =>
             isSpace2 c1 c2
             || match s2 with
                | String c3 _ => isSpace3 c1 c2 c3
                | EmptyString => false
                end
         | EmptyString => false
         end
  | EmptyString => false
  end.

(** The string is a sequence of white-space runes only. *)
Definition allSpace (s : string) : bool :=
  match trimLeftSpace s with
  | EmptyString => true
  | String _ _ => false
  end.

(** [strings.TrimRightFunc(s, unicode.IsSpace)]: drop the longest suffix
    made of white-space runes. *)
Fixpoint trimRightSpace (s : string) : string :=
  match s with
  | EmptyString => EmptyString
  | String c s' => if allSpace s then EmptyString else String c (trimRightSpace s')
  end.

(** [strings.TrimSpace]. *)
Definition TrimSpace (s : string) : string := trimRightSpace (trimLeftSpace s).

(** Membership of a byte in an ASCII cutset. *)
Fixpoint inCutset (cutset : string) (c : ascii) : bool :=
  match cutset with
  | EmptyString => false
  | String d rest => Ascii.eqb c d || inCutset rest c
  end.

Fixpoint trimLeftCut (cutset s : string) : string :=
  match s with
  | String c s' => if inCutset cutset c then trimLeftCut cutset s' else s
  | EmptyString => s
  end.

Fixpoint allCut (cutset s : string) : bool :=
  match s with
  | String c s' => inCutset cutset c && allCut cutset s'
  | EmptyString => true
  end.

Fixpoint trimRightCut (cutset s : string) : string :=
  match s with
  | EmptyString => EmptyString
  | String c s' => if allCut cutset s then EmptyString else String c (trimRightCut cutset s')
  end.

(** [strings.Trim(s, cutset)] for a cutset of ASCII bytes (the only use in
    the proxy is the cutset of the two quote characters). *)
Definition Trim (s cutset : string) : string := trimLeftCut cutset (trimRightCut cutset s).

(** A byte that is not a continuation byte of UTF-8 (below 128, or from
    192 up) is never the second or third byte of a white-space rune. *)
Definition runeStart (b : ascii) : bool :=
  let n := N_of_ascii b in ((n <? 128) || (192 <=? n))%N.

(** A string is trimmed when it neither starts nor ends with a white-space
    rune. *)
Definition trimmed (s : string) : Prop := lead s = false /\ trimRightSpace s = s.

(** The byte [c] does not occur in [s]. *)
Fixpoint noChar (c : ascii) (s : string) : bool :=
  match s with
  | EmptyString => true
  | String d s' => negb (Ascii.eqb d c) && noChar c s'
  end.

(** [strings.HasPrefix]. *)
Definition HasPrefix (s prefix : string) : bool := String.prefix prefix s.

(** [strings.HasSuffix]:
    [len(s) >= len(suffix) && s[len(s)-len(suffix):] == suffix]. *)
Definition HasSuffix (s suffix : string) : bool :=
  let n := String.length s in
  let m := String.length suffix in
  (m <=? n)%nat && String.eqb (substring (n - m) m s) suffix.

(** The Go slice expression [s[lo:hi]] (in range). *)
Definition slice (s : string) (lo hi : nat) : string := substring lo (hi - lo) s.

(** The Go slice expression [s[lo:]]. *)
Definition sliceFrom (s : string) (lo : nat) : string := substring lo (String.length s - lo) s.

(** [strings.Fields]: the maximal runs of non-white-space bytes.  [cur] is
    the field being read. *)
Definition flushField (cur : string) (acc : list string) : list string :=
  match cur with
  | EmptyString => acc
  | String _ _ => cur :: acc
  end.

Fixpoint fieldsFrom (s : string) (cur : string) : list string :=
  match s with
  | String c1 s1 =>
      if isSpace1 c1 then flushField cur (fieldsFrom s1 EmptyString)
      else match s1 with
           | String c2 s2 =>
               if isSpace2 c1 c2 then flushField cur (fieldsFrom s2 EmptyString)
               else match s2 with
                    | String c3 s3 =>
                        if isSpace3 c1 c2 c3 then flushField cur (fieldsFrom s3 EmptyString)
                        else fieldsFrom s1 (cur ++ String c1 EmptyString)
                    | EmptyString => fieldsFrom s1 (cur ++ String c1 EmptyString)
                    end
           | EmptyString => fieldsFrom s1 (cur ++ String c1 EmptyString)
           end
  | EmptyString => flushField cur nil
  end.

Definition Fields (s : string) : list string := fieldsFrom s EmptyString.

(** [strings.Split(s, sep)] for a one-byte separator: the pieces between
    the occurrences of [sep]; there is always at least one piece. *)
Fixpoint Split (s : string) (sep : ascii) : list string :=
  match s with
  | EmptyString => EmptyString :: nil
  | String c s' =>
      if Ascii.eqb c sep then EmptyString :: Split s' sep
      else match Split s' sep with
           | p :: ps => String c p :: ps
           | nil => String c EmptyString :: nil
           end
  end.

(** [strings.SplitN(s, sep, 2)] for a one-byte separator: cut at the first
    occurrence of [sep], or the string alone when there is none. *)
Fixpoint SplitN2 (s : string) (sep : ascii) : list string :=
  match s with
  | EmptyString => EmptyString :: nil
  | String c s' =>
      if Ascii.eqb c sep then EmptyString :: s' :: nil
      else match SplitN2 s' sep with
           | p :: ps => String c p :: ps
           | nil => String c EmptyString :: nil
           end
  end.

(** [strings.Contains]. *)
Fixpoint Contains (s substr : string) : bool :=
  String.prefix substr s ||
  match s with
  | EmptyString => false
  | String _ s' => Contains s' substr
  end.

End GoStrings.

(* ===================================================================== *)
(** * Go standard library: [crypto/sha256], [crypto/hmac], [encoding/hex],
      [strconv.ParseUint] *)
(* ===================================================================== *)

Module GoCrypto.

(** Bytes are integers in [0, 256); 32-bit words are integers in [0, 2^32). *)
Definition bytes_of_string (s : string) : list Z :=
  List.map (fun c => Z.of_N (N_of_ascii c)) (list_ascii_of_string s).

Definition w32 (x : Z) : Z := Z.land x 4294967295.
Definition add32 (x y : Z) : Z := w32 (x + y).
Definition rotr (n x : Z) : Z := Z.lor (Z.shiftr x n) (w32 (Z.shiftl x (32 - n))).
Definition not32 (x : Z) : Z := Z.lxor x 4294967295.

Definition Ch (x y z : Z) : Z := Z.lxor (Z.land x y) (Z.land (not32 x) z).
Definition Maj (x y z : Z) : Z := Z.lxor (Z.lxor (Z.land x y) (Z.land x z)) (Z.land y z).
Definition bigSigma0 (x : Z) : Z := Z.lxor (Z.lxor (rotr 2 x) (rotr 13 x)) (rotr 22 x).
Definition bigSigma1 (x : Z) : Z := Z.lxor (Z.lxor (rotr 6 x) (rotr 11 x)) (rotr 25 x).
Definition smallSigma0 (x : Z) : Z := Z.lxor (Z.lxor (rotr 7 x) (rotr 18 x)) (Z.shiftr x 3).
Definition smallSigma1 (x : Z) : Z := Z.lxor (Z.lxor (rotr 17 x) (rotr 19 x)) (Z.shiftr x 10).

(** The constants of FIPS 180-4: the first 32 bits of the fractional parts
    of the cube roots (round constants) and of the square roots (initial
    hash value) of the first prime numbers. *)
Definition isPrime (n : Z) : bool :=
  List.forallb (fun d => negb (n mod d =? 0))
               (List.map Z.of_nat (List.seq 2 (Z.to_nat n - 2))).

Definition firstPrimes (count : nat) : list Z :=
  List.firstn count (List.filter isPrime (List.map Z.of_nat (List.seq 2 400))).

(** The integer cube root of [x], found bit by bit from bit [bits - 1]
    down. *)
Fixpoint cubeRoot (bits : nat) (x r : Z) : Z :=
  match bits with
  | O => r
  | S b =>
      let r' := r + 2 ^ Z.of_nat b in
      cubeRoot b x (if r' * r' * r' <=? x then r' else r)
  end.

Definition fracCubeRoot32 (p : Z) : Z := w32 (cubeRoot 40 (p * 2 ^ 96) 0).
Definition fracSquareRoot32 (p : Z) : Z := w32 (Z.sqrt (p * 2 ^ 64)).

Definition K256 : list Z := Eval vm_compute in List.map fracCubeRoot32 (firstPrimes 64).

Definition H256 : list Z := Eval vm_compute in List.map fracSquareRoot32 (firstPrimes 8).

(** Big-endian encoding of [x] on [n] bytes. *)
Fixpoint be_bytes (n : nat) (x : Z) : list Z :=
  match n with
  | O => nil
  | S n' => Z.land (Z.shiftr x (8 * Z.of_nat n')) 255 :: be_bytes n' x
  end.

(** Message padding: a 0x80 byte, zero bytes up to 56 modulo 64, then the
    bit length on 8 bytes. *)
Definition pad (msg : list Z) : list Z :=
  let len := Z.of_nat (List.length msg) in
  let zeros := Z.to_nat ((55 - len) mod 64) in
  (msg ++ 128 :: List.repeat 0 zeros ++ be_bytes 8 (8 * len))%list.

(** The 32-bit big-endian words of a byte sequence. *)
Fixpoint words (fuel : nat) (bs : list Z) : list Z :=
  match fuel, bs with
  | S f, b0 :: b1 :: b2 :: b3 :: rest =>
      (Z.shiftl b0 24 + Z.shiftl b1 16 + Z.shiftl b2 8 + b3) :: words f rest
  | _, _ => nil
  end.

(** Message schedule: [w] holds the words computed so far, newest first. *)
Fixpoint schedule (n : nat) (w : list Z) : list Z :=
  match n with
  | O => w
  | S n' =>
      let w2 := nth 1 w 0 in
      let w7 := nth 6 w 0 in
      let w15 := nth 14 w 0 in
      let w16 := nth 15 w 0 in
      schedule n' (add32 (add32 (smallSigma1 w2) w7) (add32 (smallSigma0 w15) w16) :: w)
  end.

Definition round (st : list Z) (kw : Z * Z) : list Z :=
  match st with
  | [a; b; c; d; e; f; g; h] =>
      let t1 := add32 (add32 (add32 h (bigSigma1 e)) (add32 (Ch e f g) (fst kw))) (snd kw) in
      let t2 := add32 (bigSigma0 a) (Maj a b c) in
      [add32 t1 t2; a; b; c; add32 d t1; e; f; g]
  | _ => st
  end.

Definition compress (h : list Z) (block : list Z) : list Z :=
  let w := List.rev (schedule 48 (List.rev block)) in
  let st := List.fold_left round (List.combine K256 w) h in
  List.map (fun p => add32 (fst p) (snd p)) (List.combine h st).

Fixpoint blocks (fuel : nat) (ws : list Z) (h : list Z) : list Z :=
  match fuel with
  | O => h
  | S f =>
      match ws with
      | nil => h
      | _ => blocks f (List.skipn 16 ws) (compress h (List.firstn 16 ws))
      end
  end.

(** [sha256.Sum256]: the 32-byte digest. *)
Definition sha256 (msg : list Z) : list Z :=
  let p := pad msg in
  let ws := words (List.length p) p in
  List.concat (List.map (be_bytes 4) (blocks (List.length ws) ws H256)).

(** [hmac.New(sha256.New, key)], [Write(msg)], [Sum(nil)] (RFC 2104). *)
Definition hmac_sha256 (key msg : list Z) : list Z :=
  let k := if (64 <? List.length key)%nat then sha256 key else key in
  let k := (k ++ List.repeat 0 (64 - List.length k))%list in
  let ipad := List.map (fun b => Z.lxor b 54) k in
  let opad := List.map (fun b => Z.lxor b 92) k in
  sha256 (opad ++ sha256 (ipad ++ msg)%list)%list.

Definition hexdigit (n : Z) : ascii :=
  if n <? 10 then ascii_of_N (Z.to_N (48 + n)) else ascii_of_N (Z.to_N (87 + n)).

(** [hex.EncodeToString]: two lower-case hexadecimal digits per byte. *)
Fixpoint EncodeToString (bs : list Z) : string :=
  match bs with
  | nil => EmptyString
  | b :: rest => String (hexdigit (Z.shiftr b 4)) (String (hexdigit (Z.land b 15)) (EncodeToString rest))
  end.

Definition hexval (c : ascii) : option Z :=
  let n := Z.of_N (N_of_ascii c) in
  if (48 <=? n) && (n <=? 57) then Some (n - 48)
  else if (97 <=? n) && (n <=? 102) then Some (n - 87)
  else if (65 <=? n) && (n <=? 70) then Some (n - 55)
  else None.

Fixpoint parseHex (s : string) (acc : Z) : option Z :=
  match s with
  | EmptyString => Some acc
  | String c s' =>
      match hexval c with
      | Some d => parseHex s' (16 * acc + d)
      | None => None
      end
  end.

(** [strconv.ParseUint(s, 16, 64)]: [None] is the error result (empty
    input, a byte that is not a hexadecimal digit, or a value that does not
    fit in 64 bits). *)
Definition ParseUint16 (s : string) : option Z :=
  match s with
  | EmptyString => None
  | _ =>
      match parseHex s 0 with
      | Some v => if v <? 2 ^ 64 then Some v else None
      | None => None
      end
  end.

End GoCrypto.

(* ===================================================================== *)
(** * Go standard library: [net/http] headers, [strconv.Itoa] *)
(* ===================================================================== *)

Module GoHTTP.

(** The bytes allowed in a header field name. *)
Definition isTokenByte (c : ascii) : bool :=
  let n := N_of_ascii c in
  (((48 <=? n) && (n <=? 57)) || ((65 <=? n) && (n <=? 90)) || ((97 <=? n) && (n <=? 122))
   || existsb (N.eqb n) [33; 35; 36; 37; 38; 39; 42; 43; 45; 46; 94; 95; 96; 124; 126])%N.

Fixpoint allTokenBytes (s : string) : bool :=
  match s with
  | EmptyString => true
  | String c s' => isTokenByte c && allTokenBytes s'
  end.

Definition toUpper (c : ascii) : ascii :=
  let n := N_of_ascii c in
  if ((97 <=? n) && (n <=? 122))%N then ascii_of_N (n - 32) else c.

Definition toLower (c : ascii) : ascii :=
  let n := N_of_ascii c in
  if ((65 <=? n) && (n <=? 90))%N then ascii_of_N (n + 32) else c.

Fixpoint canonicalLoop (upper : bool) (s : string) : string :=
  match s with
  | EmptyString => EmptyString
  | String c s' =>
      let c' := if upper then toUpper c else toLower c in
      String c' (canonicalLoop (Ascii.eqb c' "-") s')
  end.

(** [textproto.CanonicalMIMEHeaderKey]: the first letter and the letters
    after a hyphen in upper case, the others in lower case; a name with a
    byte outside the token bytes is left as it is. *)
Definition CanonicalMIMEHeaderKey (s : string) : string :=
  if allTokenBytes s then canonicalLoop true s else s.

(** [http.Header]: the values of each canonical field name. *)
Abbreviation HeaderMap := (gmap string (list string)).

(** [Header.Get]: the first value of the field, or the empty string. *)
Definition Get (h : HeaderMap) (key : string) : string :=
  match h !! CanonicalMIMEHeaderKey key with
  | Some (v :: _) => v
  | _ => ""
  end.

(** [Header.Set]. *)
Definition Set_ (h : HeaderMap) (key value : string) : HeaderMap :=
  <[CanonicalMIMEHeaderKey key := [value]]> h.

(** [Header.Add]. *)
Definition Add (h : HeaderMap) (key value : string) : HeaderMap :=
  <[CanonicalMIMEHeaderKey key := (default [] (h !! CanonicalMIMEHeaderKey key) ++ [value])%list]> h.

(** [fmt.Sprintf("%d", n)]. *)
Definition Itoa (n : Z) : string := NilZero.string_of_int (Z.to_int n).

End GoHTTP.

(* ===================================================================== *)
(** * Package [transform]: the data model *)
(* ===================================================================== *)

(** [transform.Operation]. *)
Record Operation := mkOperation {
  op_Type : string;
  op_Selector : string;
  op_Value : string;
  op_Property : string;
  op_Priority : Z
}.

(** [transform.Variant]. *)
Record Variant := mkVariant {
  v_ID : string;
  v_Name : string;
  v_IsControl : bool;
  v_TrafficAllocation : float
}.

(** [transform.TransformSpec]. *)
Record TransformSpec := mkTransformSpec {
  ts_Version : string;
  ts_ExperimentID : string;
  ts_VariantID : string;
  ts_VariantKey : string;
  ts_Operations : list Operation;
  ts_TTL : Z;
  ts_CacheKey : string;
  ts_ExperimentVersion : string
}.

Definition OpSetText : string := "setText".
Definition OpSetStyle : string := "setStyle".
Definition OpSetAttr : string := "setAttr".
Definition OpSetHTML : string := "setHTML".
Definition OpRemove : string := "remove".
Definition OpHide : string := "hide".
Definition OpShow : string := "show".

(* ===================================================================== *)
(** * Package [variant]: the assignment engine *)
(* ===================================================================== *)

(** [variant.Assigner]. *)
Record Assigner := mkAssigner { salt : string }.

(** [variant.NewAssigner]: an empty salt is replaced by a fixed one. *)
Definition NewAssigner (s : string) : Assigner :=
  if String.eqb s "" then mkAssigner "default-salt-change-in-production"
  else mkAssigner s.

(** Conversion [float64(bucket)] of a small non-negative integer. *)
Definition float64_of_int (n : Z) : float := PrimFloat.of_uint63 (Uint63.of_Z n).

(** [Assigner.getBucket].  [rnd] is the value [rand.Intn(100)] would
    return should the digest prefix fail to parse. *)
Definition getBucket (a : Assigner) (userID experimentID : string) (rnd : Z) : Z :=
  let hash :=
    GoCrypto.EncodeToString
      (GoCrypto.hmac_sha256 (GoCrypto.bytes_of_string (salt a))
         (GoCrypto.bytes_of_string (userID ++ ":" ++ experimentID))) in
  match GoCrypto.ParseUint16 (GoStrings.slice hash 0 8) with
  | None => rnd
  | Some hashInt => hashInt mod 100
  end.

(** The loop of [AssignVariant]: [cumulative] is the running sum of the
    allocations seen so far; the result is the first variant at which
    [float64(bucket) < cumulative*100], or [None] when the loop ends. *)
Fixpoint assignLoop (bucket : Z) (cumulative : float) (variants : list Variant) : option Variant :=
  match variants with
  | nil => None
  | v :: rest =>
      let cumulative := (cumulative + v_TrafficAllocation v)%float in
      if (float64_of_int bucket <? cumulative * 100)%float then Some v
      else assignLoop bucket cumulative rest
  end.

(** [Assigner.AssignVariant]; [None] is the nil pointer. *)
Definition AssignVariant (a : Assigner) (userID experimentID : string)
    (variants : list Variant) (rnd : Z) : option Variant :=
  match variants with
  | nil => None
  | v :: nil => Some v
  | v0 :: _ =>
      let bucket := getBucket a userID experimentID rnd in
      match assignLoop bucket 0%float variants with
      | Some v => Some v
      | None => Some v0
      end
  end.

(** [variant.GetUserID]; [rnd] is the value of [rand.Intn(1000000)]. *)
Definition GetUserID (cookieValue ipAddress userAgent : string) (rnd : Z) : string :=
  if negb (String.eqb cookieValue "") then cookieValue
  else if negb (String.eqb ipAddress "") || negb (String.eqb userAgent "") then
    GoStrings.slice
      (GoCrypto.EncodeToString (GoCrypto.sha256 (GoCrypto.bytes_of_string (ipAddress ++ ":" ++ userAgent))))
      0 16
  else "anon_" ++ GoHTTP.Itoa rnd.

(** ** The assignment algorithm as the specification words it

    The walk accumulates [trafficAllocation*100] and compares the bucket
    with the running sum. *)
Fixpoint spec_assignLoop (bucket : Z) (cumulative : float) (variants : list Variant) : option Variant :=
  match variants with
  | nil => None
  | v :: rest =>
      let cumulative := (cumulative + v_TrafficAllocation v * 100)%float in
      if (float64_of_int bucket <? cumulative)%float then Some v
      else spec_assignLoop bucket cumulative rest
  end.

(** The bucket of the specification: the first 8 hexadecimal characters
    (4 bytes) of the digest, read as an unsigned integer, modulo 100. *)
Definition spec_bucket (s userID experimentID : string) : Z :=
  match GoCrypto.hmac_sha256 (GoCrypto.bytes_of_string s)
          (GoCrypto.bytes_of_string (userID ++ ":" ++ experimentID)) with
  | b0 :: b1 :: b2 :: b3 :: _ => (((b0 * 256 + b1) * 256 + b2) * 256 + b3) mod 100
  | _ => 0
  end.

Definition spec_AssignVariant (s userID experimentID : string) (variants : list Variant) : option Variant :=
  match variants with
  | nil => None
  | v :: nil => Some v
  | v0 :: _ =>
      match spec_assignLoop (spec_bucket s userID experimentID) 0%float variants with
      | Some v => Some v
      | None => Some v0
      end
  end.

(** The running sums of the allocations, in float64 arithmetic. *)
Fixpoint runningSums (cumulative : float) (variants : list Variant) : list float :=
  match variants with
  | nil => nil
  | v :: rest =>
      let cumulative := (cumulative + v_TrafficAllocation v)%float in
      cumulative :: runningSums cumulative rest
  end.

(** The walk stated on the running sums: the first variant whose running
    sum, times 100, exceeds the bucket. *)
Definition firstAbove (bucket : Z) (variants : list Variant) : option Variant :=
  fst <$> List.find (fun p => (float64_of_int bucket <? snd p * 100)%float)
                    (List.combine variants (runningSums 0%float variants)).

(* ===================================================================== *)
(** * Package [transform]: the DOM mutation engine *)
(* ===================================================================== *)

(** [html.NodeType]. *)
Inductive NodeType :=
  ErrorNode | TextNode | DocumentNode | ElementNode | CommentNode | DoctypeNode | RawNode.

Definition NodeType_eqb (a b : NodeType) : bool :=
  match a, b with
  | ErrorNode, ErrorNode | TextNode, TextNode | DocumentNode, DocumentNode
  | ElementNode, ElementNode | CommentNode, CommentNode | DoctypeNode, DoctypeNode
  | RawNode, RawNode => true
  | _, _ => false
  end.

(** [html.Attribute]. *)
Record Attribute := mkAttr { Namespace : string; Key : string; Val : string }.

(** [html.Node].  The sibling links [FirstChild], [NextSibling], ... are the
    list of children; the [Parent] link is the position in the tree.  [ptr]
    stands for the address of the node: it is [tt] in a plain document
    ([Node]) and a number, or [None] for a node allocated later, while an
    operation holds pointers into the tree ([PNode]). *)
Inductive NodeOf (P : Type) : Type :=
  mkNode (ptr : P) (type : NodeType) (data : string)
         (attr : list Attribute) (children : list (NodeOf P)).
Arguments mkNode {P} ptr type data attr children.

Definition Ptr {P} (n : NodeOf P) : P := match n with mkNode p _ _ _ _ => p end.
Definition Type_ {P} (n : NodeOf P) : NodeType := match n with mkNode _ t _ _ _ => t end.
Definition Data {P} (n : NodeOf P) : string := match n with mkNode _ _ d _ _ => d end.
Definition Attr {P} (n : NodeOf P) : list Attribute := match n with mkNode _ _ _ a _ => a end.
Definition Children {P} (n : NodeOf P) : list (NodeOf P) := match n with mkNode _ _ _ _ c => c end.

Abbreviation Node := (NodeOf unit).
Abbreviation PNode := (NodeOf (option nat)).

Definition isElement {P} (n : NodeOf P) : bool := NodeType_eqb (Type_ n) ElementNode.

(** The value of the first attribute named [key]. *)
Fixpoint lookupAttr (key : string) (attrs : list Attribute) : option string :=
  match attrs with
  | nil => None
  | a :: rest => if String.eqb (Key a) key then Some (Val a) else lookupAttr key rest
  end.

(** Assignment to the [Val] field of the first attribute named [key]. *)
Fixpoint updateAttr (key val : string) (attrs : list Attribute) : list Attribute :=
  match attrs with
  | nil => nil
  | a :: rest =>
      if String.eqb (Key a) key then mkAttr (Namespace a) (Key a) val :: rest
      else a :: updateAttr key val rest
  end.

(** [getAttr]. *)
Definition getAttr {P} (node : NodeOf P) (key : string) : string :=
  if negb (isElement node) then ""
  else match lookupAttr key (Attr node) with
       | Some v => v
       | None => ""
       end.

(** [hasAttr]. *)
Definition hasAttr {P} (node : NodeOf P) (key : string) : bool :=
  if negb (isElement node) then false
  else match lookupAttr key (Attr node) with
       | Some _ => true
       | None => false
       end.

(** [hasClass]. *)
Definition hasClass {P} (node : NodeOf P) (className : string) : bool :=
  if negb (isElement node) then false
  else existsb (fun c => String.eqb c className) (GoStrings.Fields (getAttr node "class")).

(** The cutset of the two quote characters. *)
Definition quotes : string := String "034" (String "039" EmptyString).

(** The closure [matchFunc] that [findNodesBySelector] builds from the
    trimmed selector. *)
Definition matchFunc {P} (selector : string) : NodeOf P -> bool :=
  if GoStrings.HasPrefix selector "." then
    let className := GoStrings.sliceFrom selector 1 in
    fun n => hasClass n className
  else if GoStrings.HasPrefix selector "#" then
    let id := GoStrings.sliceFrom selector 1 in
    fun n => String.eqb (getAttr n "id") id
  else if GoStrings.HasPrefix selector "[" && GoStrings.HasSuffix selector "]" then
    let attrStr := GoStrings.slice selector 1 (String.length selector - 1) in
    match GoStrings.SplitN2 attrStr "=" with
    | part0 :: part1 :: _ =>
        let attrKey := GoStrings.TrimSpace part0 in
        let attrValue := GoStrings.Trim (GoStrings.TrimSpace part1) quotes in
        fun n => String.eqb (getAttr n attrKey) attrValue
    | part0 :: nil =>
        let attrKey := GoStrings.TrimSpace part0 in
        fun n => hasAttr n attrKey
    | nil => fun n => false
    end
  else
    fun n => isElement n && String.eqb (Data n) selector.

(** The recursive closure [walk] of [findNodesBySelector]; [results] is the
    slice it appends to. *)
Fixpoint walk {P} (f : NodeOf P -> bool) (n : NodeOf P) (results : list (NodeOf P))
  : list (NodeOf P) :=
  match n with
  | mkNode _ _ _ _ cs =>
      let results := if f n then (results ++ n :: nil)%list else results in
      List.fold_left (fun acc child => walk f child acc) cs results
  end.

(** [findNodesBySelector]. *)
Definition findNodesBySelector {P} (doc : NodeOf P) (selector : string) : list (NodeOf P) :=
  let selector := GoStrings.TrimSpace selector in
  walk (matchFunc selector) doc nil.

(** The nodes of a tree in pre-order: a node, then the nodes of each of
    its children from first to last. *)
Fixpoint preorder {P} (n : NodeOf P) : list (NodeOf P) :=
  match n with
  | mkNode _ _ _ _ cs => n :: List.flat_map preorder cs
  end.

(** A node newly allocated by the engine, seen from a tree with pointers. *)
Fixpoint fresh {P} `{Inhabited P} (n : Node) : NodeOf P :=
  match n with
  | mkNode _ t d a cs => mkNode inhabitant t d a (List.map fresh cs)
  end.

(** [setText]: the children are removed one by one and a text node is
    appended. *)
Definition setText {P} `{Inhabited P} (node : NodeOf P) (text : string) : NodeOf P :=
  mkNode (Ptr node) (Type_ node) (Data node) (Attr node)
         (mkNode inhabitant TextNode text nil nil :: nil).

(** The body of the loop of [setStyle] over the parts of the style
    attribute. *)
Definition styleStep (styles : gmap string string) (part : string) : gmap string string :=
  let part := GoStrings.TrimSpace part in
  if String.eqb part "" then styles
  else match GoStrings.SplitN2 part ":" with
       | k :: v :: nil => <[GoStrings.TrimSpace k := GoStrings.TrimSpace v]> styles
       | _ => styles
       end.

(** The map [styles] that [setStyle] reads from the value of the style
    attribute. *)
Definition parseStyles (val : string) : gmap string string :=
  List.fold_left styleStep (GoStrings.Split val ";") ∅.

(** The body of the loop of [setStyle] that rebuilds the style string. *)
Definition buildStep (styleStr : string) (kv : string * string) : string :=
  (if (0 <? String.length styleStr)%nat then styleStr ++ "; " else styleStr)
    ++ fst kv ++ ": " ++ snd kv.

(** The string that [setStyle] builds from the entries of [styles], in the
    order in which the [range] loop visits them. *)
Definition buildStyle (entries : list (string * string)) : string :=
  List.fold_left buildStep entries "".

(** The order in which one [range] loop over a Go map visits its entries:
    Go leaves it unspecified, so it is a parameter; it is some arrangement
    of the entries. *)
Definition RangeOrder := list (string * string) -> list (string * string).

Definition validOrder (order : RangeOrder) : Prop :=
  forall entries, order entries ≡ₚ entries.

(** The map that [setStyle] parses from the style attribute of the node,
    empty when there is none. *)
Definition stylesOf {P} (node : NodeOf P) : gmap string string :=
  match lookupAttr "style" (Attr node) with
  | Some val => parseStyles val
  | None => ∅
  end.

(** The update of the map by [setStyle]: an empty value deletes the
    property. *)
Definition updateStyle (property value : string) (styles : gmap string string)
  : gmap string string :=
  if String.eqb value "" then delete property styles
  else <[property := value]> styles.

(** [setStyle]. *)
Definition setStyle {P} (order : RangeOrder) (node : NodeOf P) (property value : string)
  : NodeOf P :=
  if negb (isElement node) then node
  else
    let styles := updateStyle property value (stylesOf node) in
    let styleStr := buildStyle (order (map_to_list styles)) in
    match lookupAttr "style" (Attr node) with
    | Some _ =>
        mkNode (Ptr node) (Type_ node) (Data node)
               (updateAttr "style" styleStr (Attr node)) (Children node)
    | None =>
        mkNode (Ptr node) (Type_ node) (Data node)
               (Attr node ++ mkAttr "" "style" styleStr :: nil)%list (Children node)
    end.

(** [setAttr]. *)
Definition setAttr {P} (node : NodeOf P) (key value : string) : NodeOf P :=
  if negb (isElement node) then node
  else
    match lookupAttr key (Attr node) with
    | Some _ =>
        mkNode (Ptr node) (Type_ node) (Data node)
               (updateAttr key value (Attr node)) (Children node)
    | None =>
        mkNode (Ptr node) (Type_ node) (Data node)
               (Attr node ++ mkAttr "" key value :: nil)%list (Children node)
    end.

(** [setHTML]; [parseFragment] is [html.ParseFragment] in the context of a
    [div] element, [None] being its error result. *)
Definition setHTML {P} `{Inhabited P} (parseFragment : string -> option (list Node))
    (node : NodeOf P) (htmlContent : string) : NodeOf P :=
  match parseFragment htmlContent with
  | None => mkNode (Ptr node) (Type_ node) (Data node) (Attr node) nil
  | Some nodes => mkNode (Ptr node) (Type_ node) (Data node) (Attr node) (List.map fresh nodes)
  end.

(** ** Pointers into the document

    While [applyOperation] runs, it holds the pointers that
    [findNodesBySelector] returned.  The nodes of the document are numbered
    in pre-order, the number being the address; a node allocated during the
    operation has the address [None]. *)
Definition numberChildren (numberNode : nat -> Node -> PNode * nat)
  : nat -> list Node -> list PNode * nat :=
  fix go (k : nat) (l : list Node) : list PNode * nat :=
    match l with
    | nil => (nil, k)
    | c :: l' =>
        let '(c', k1) := numberNode k c in
        let '(l'', k2) := go k1 l' in
        (c' :: l'', k2)
    end.

Fixpoint numberFrom (k : nat) (n : Node) : PNode * nat :=
  match n with
  | mkNode _ t d a cs =>
      let '(cs', k') := numberChildren numberFrom (S k) cs in
      (mkNode (Some k) t d a cs', k')
  end.

Definition number (doc : Node) : PNode := fst (numberFrom 0 doc).

Fixpoint erase {P} (n : NodeOf P) : Node :=
  match n with
  | mkNode _ t d a cs => mkNode tt t d a (List.map erase cs)
  end.

Definition pointsTo (p : nat) (n : PNode) : bool :=
  match Ptr n with
  | Some q => Nat.eqb p q
  | None => false
  end.

(** The document after the node at address [p] has been mutated by [f];
    a node that is no longer in the document leaves it unchanged. *)
Fixpoint mutateAt (p : nat) (f : PNode -> PNode) (n : PNode) : PNode :=
  if pointsTo p n then f n
  else match n with
       | mkNode q t d a cs => mkNode q t d a (List.map (mutateAt p f) cs)
       end.

(** [removeNode]: the node at address [p] is taken out of the children of
    its parent; the root, which has no parent, stays. *)
Fixpoint removeAt (p : nat) (n : PNode) : PNode :=
  match n with
  | mkNode q t d a cs =>
      mkNode q t d a (List.filter (fun c => negb (pointsTo p c)) (List.map (removeAt p) cs))
  end.

(** The operation types of the [switch] of [applyOperation]. *)
Definition knownType (type : string) : bool :=
  existsb (String.eqb type) [OpSetText; OpSetStyle; OpSetAttr; OpSetHTML; OpRemove; OpHide; OpShow].

(** The errors of [applyOperation]. *)
Inductive OpError :=
| ErrNoElements (selector : string)
| ErrUnknownType (type : string).

(** What the proxy runs on: the order of each [range] loop over a style
    map (of the operation [i] on its [j]-th node) and the fragment
    parser. *)
Record Runtime := mkRuntime {
  rangeOrder : nat -> nat -> RangeOrder;
  parseFragment : string -> option (list Node)
}.

(** The body of the loop of [applyOperation] for the node at address [p]:
    the [switch] on the operation type. *)
Definition applyToNode (parse : string -> option (list Node)) (order : RangeOrder)
    (op : Operation) (p : nat) (doc : PNode) : PNode + OpError :=
  if String.eqb (op_Type op) OpSetText then
    inl (mutateAt p (fun n => setText n (op_Value op)) doc)
  else if String.eqb (op_Type op) OpSetStyle then
    inl (mutateAt p (fun n => setStyle order n (op_Property op) (op_Value op)) doc)
  else if String.eqb (op_Type op) OpSetAttr then
    inl (mutateAt p (fun n => setAttr n (op_Property op) (op_Value op)) doc)
  else if String.eqb (op_Type op) OpSetHTML then
    inl (mutateAt p (fun n => setHTML parse n (op_Value op)) doc)
  else if String.eqb (op_Type op) OpRemove then
    inl (removeAt p doc)
  else if String.eqb (op_Type op) OpHide then
    inl (mutateAt p (fun n => setStyle order n "display" "none") doc)
  else if String.eqb (op_Type op) OpShow then
    inl (mutateAt p (fun n => setStyle order n "display" "") doc)
  else inr (ErrUnknownType (op_Type op)).

(** The loop of [applyOperation] over the pointers found; [j] counts the
    nodes done. *)
Fixpoint applyToNodes (parse : string -> option (list Node)) (orders : nat -> RangeOrder)
    (op : Operation) (nodes : list PNode) (j : nat) (doc : PNode) : PNode * option OpError :=
  match nodes with
  | nil => (doc, None)
  | node :: rest =>
      match Ptr node with
      | Some p =>
          match applyToNode parse (orders j) op p doc with
          | inl doc' => applyToNodes parse orders op rest (S j) doc'
          | inr err => (doc, Some err)
          end
      | None => applyToNodes parse orders op rest (S j) doc
      end
  end.

(** [applyOperation], the [i]-th of the batch: the document afterwards and
    the error returned. *)
Definition applyOperation (rt : Runtime) (i : nat) (doc : Node) (op : Operation)
  : Node * option OpError :=
  let pdoc := number doc in
  let nodes := findNodesBySelector pdoc (op_Selector op) in
  match nodes with
  | nil => (doc, Some (ErrNoElements (op_Selector op)))
  | _ =>
      let '(pdoc', err) := applyToNodes (parseFragment rt) (rangeOrder rt i) op nodes 0 pdoc in
      (erase pdoc', err)
  end.

(** The loop of [ApplyTransformations] from the [i]-th operation on: the
    document afterwards and the warnings printed. *)
Fixpoint applyFrom (rt : Runtime) (i : nat) (doc : Node) (operations : list Operation)
  : Node * list (Operation * OpError) :=
  match operations with
  | nil => (doc, nil)
  | op :: rest =>
      let '(doc', err) := applyOperation rt i doc op in
      let '(doc'', warnings) := applyFrom rt (S i) doc' rest in
      (doc'', match err with
              | Some e => (op, e) :: warnings
              | None => warnings
              end)
  end.

(** The result of [ApplyTransformations]: the document as mutated, the
    warnings printed and the error returned. *)
Record ApplyResult := mkApplyResult {
  ar_doc : Node;
  ar_warnings : list (Operation * OpError);
  ar_err : option OpError
}.

(** [ApplyTransformations]. *)
Definition ApplyTransformations (rt : Runtime) (doc : Node) (operations : list Operation)
  : ApplyResult :=
  let '(doc', warnings) := applyFrom rt 0 doc operations in
  mkApplyResult doc' warnings None.

(* ===================================================================== *)
(** * Packages [config] and [middleware]: the orchestrator *)
(* ===================================================================== *)

(** [config.Config]; the durations are in nanoseconds. *)
Record Config := mkConfig {
  Port : string;
  OriginURL : string;
  ReadTimeout : Z;
  WriteTimeout : Z;
  APIBaseURL : string;
  EdgeToken : string;
  Timeout : Z;
  FailOpen : bool;
  EnableLogging : bool;
  EnableMetrics : bool
}.

(** [transform.Client] (its [http.Client] holds the timeout). *)
Record Client := mkClient {
  baseURL : string;
  edgeToken : string;
  timeout : Z
}.

Definition NewClient (base token : string) (t : Z) : Client := mkClient base token t.

(** [middleware.ExperiFlowMiddleware]. *)
Record ExperiFlowMiddleware := mkMiddleware {
  config : Config;
  client : Client;
  assigner : Assigner;
  experiments : gmap string bool
}.

(** [middleware.NewExperiFlowMiddleware]. *)
Definition NewExperiFlowMiddleware (cfg : Config) (experimentIDs : list string)
  : ExperiFlowMiddleware :=
  let experiments :=
    List.fold_left (fun (m : gmap string bool) id => <[id := true]> m) experimentIDs ∅ in
  mkMiddleware cfg
    (NewClient (APIBaseURL cfg) (EdgeToken cfg) (Timeout cfg))
    (NewAssigner "production-salt")
    experiments.

(** [http.SameSite]. *)
Inductive SameSite := SameSiteDefaultMode | SameSiteLaxMode | SameSiteStrictMode | SameSiteNoneMode.

(** [http.Cookie], with the fields that the proxy sets. *)
Record Cookie := mkCookie {
  c_Name : string;
  c_Value : string;
  c_MaxAge : Z;
  c_Path : string;
  c_HttpOnly : bool;
  c_SameSite : SameSite
}.

(** [http.Request]: the cookies it carries, in the order of its Cookie
    header, the remote address and the user agent. *)
Record Request := mkRequest {
  Cookies : list (string * string);
  RemoteAddr : string;
  UserAgent : string
}.

(** [Request.Cookie]: the value of the first cookie of that name; [None]
    is [ErrNoCookie]. *)
Fixpoint lookupCookie (name : string) (cookies : list (string * string)) : option string :=
  match cookies with
  | nil => None
  | (n, v) :: rest => if String.eqb n name then Some v else lookupCookie name rest
  end.

Definition RequestCookie (req : Request) (name : string) : option string :=
  if String.eqb name "" then None else lookupCookie name (Cookies req).

(** The body stream of a response: the bytes yet to be read, whether
    reading it ends in an error, and whether it was closed. *)
Record Body := mkBody {
  pending : string;
  readFails : bool;
  closed : bool
}.

(** [io.ReadAll]: the bytes read or an error, and the stream afterwards. *)
Definition ReadAll (b : Body) : option string * Body :=
  if closed b || readFails b then (None, mkBody "" (readFails b) (closed b))
  else (Some (pending b), mkBody "" false false).

Definition Close (b : Body) : Body := mkBody (pending b) (readFails b) true.

(** [io.NopCloser(bytes.NewReader(data))]. *)
Definition NewBody (data : string) : Body := mkBody data false false.

(** [http.Response]. *)
Record Response := mkResponse {
  Header : GoHTTP.HeaderMap;
  ResponseBody : Body;
  ContentLength : Z
}.

(** The failures of a call to the experiment service: the deadline of the
    context was exceeded, or anything else (network failure, a status
    other than 200, a body that does not decode). *)
Inductive FetchError := DeadlineExceeded | FetchFailed.

(** A call made to the experiment service. *)
Inductive Call :=
| CallGetVariants (experimentID : string)
| CallGetTransformSpec (experimentID variantID : string).

(** What one request meets outside the proxy: the answers of the
    experiment service, the HTML parser and renderer, the serialization of
    a cookie, the clock, the random source, the order of the [range] loop
    over the experiment map, and the runtime of the mutation engine for
    each experiment. *)
Record World := mkWorld {
  GetVariants : string -> FetchError + list Variant;
  GetTransformSpec : string -> string -> FetchError + TransformSpec;
  parseHTML : string -> option Node;
  renderHTML : Node -> option string;
  cookieString : Cookie -> string;
  elapsedMs : string -> Z;
  randIntn100 : Z;
  randIntn1000000 : Z;
  experimentOrder : list (string * bool) -> list (string * bool);
  runtimeOf : string -> Runtime
}.

(** The errors of [applyExperiment]. *)
Inductive AttemptError :=
| ErrAssign
| ErrFetchSpec (e : FetchError)
| ErrReadBody
| ErrParseHTML
| ErrApply (e : OpError)
| ErrRender.

(** [isHTML]. *)
Definition isHTML (resp : Response) : bool :=
  GoStrings.Contains (GoHTTP.Get (Header resp) "Content-Type") "text/html".

(** [addHeaders]. *)
Definition addHeaders (w : World) (resp : Response) (experimentID variantKey status : string)
  : Response :=
  let h := GoHTTP.Set_ (Header resp) "X-EF-Experiment" experimentID in
  let h := GoHTTP.Set_ h "X-EF-Variant" variantKey in
  let h := GoHTTP.Set_ h "X-EF-Transform" status in
  let h := GoHTTP.Set_ h "X-EF-Timing" ("total=" ++ GoHTTP.Itoa (elapsedMs w experimentID) ++ "ms") in
  mkResponse h (ResponseBody resp) (ContentLength resp).

(** The second part of [getOrAssignVariant], for a request without an
    assignment: the variant list is fetched and a variant assigned. *)
Definition assignNew (w : World) (m : ExperiFlowMiddleware) (req : Request)
    (experimentID : string) : string * string * bool * list Call :=
  match GetVariants w experimentID with
  | inl _ => ("", "", false, [CallGetVariants experimentID])
  | inr nil => ("", "", false, [CallGetVariants experimentID])
  | inr variants =>
      let userID := GetUserID "" (RemoteAddr req) (UserAgent req) (randIntn1000000 w) in
      match AssignVariant (assigner m) userID experimentID variants (randIntn100 w) with
      | None => ("", "", false, [CallGetVariants experimentID])
      | Some assigned => (v_ID assigned, v_Name assigned, true, [CallGetVariants experimentID])
      end
  end.

(** [getOrAssignVariant]: the variant identifier, the variant key, whether
    the assignment is new, and the calls made. *)
Definition getOrAssignVariant (w : World) (m : ExperiFlowMiddleware) (req : Request)
    (experimentID cookieName : string) : string * string * bool * list Call :=
  match RequestCookie req cookieName with
  | Some value =>
      if negb (String.eqb value "") then (value, "", false, nil)
      else assignNew w m req experimentID
  | None => assignNew w m req experimentID
  end.

(** The result of [applyExperiment] and of [ModifyResponse]: the response
    as mutated, the calls made to the experiment service, and the error
    returned. *)
Record Outcome := mkOutcome {
  o_resp : Response;
  o_calls : list Call;
  o_err : option AttemptError
}.

(** The cookie of a new assignment, written to the response. *)
Definition setAssignmentCookie (w : World) (resp : Response) (cookieName variantID : string)
  : Response :=
  let cookie := mkCookie cookieName variantID (30 * 24 * 60 * 60) "/" true SameSiteLaxMode in
  let h :=
    if String.eqb (GoHTTP.Get (Header resp) "Set-Cookie") ""
    then GoHTTP.Set_ (Header resp) "Set-Cookie" (cookieString w cookie)
    else GoHTTP.Add (Header resp) "Set-Cookie" (cookieString w cookie) in
  mkResponse h (ResponseBody resp) (ContentLength resp).

(** Steps 4 to 9 of [applyExperiment]: read, parse, transform, render and
    replace the body. *)
Definition transformBody (w : World) (experimentID variantKey : string)
    (operations : list Operation) (resp : Response) : Response * option AttemptError :=
  let '(body, stream) := ReadAll (ResponseBody resp) in
  match body with
  | None => (mkResponse (Header resp) stream (ContentLength resp), Some ErrReadBody)
  | Some body =>
      let resp := mkResponse (Header resp) (Close stream) (ContentLength resp) in
      match parseHTML w body with
      | None => (resp, Some ErrParseHTML)
      | Some doc =>
          let r := ApplyTransformations (runtimeOf w experimentID) doc operations in
          match ar_err r with
          | Some e => (resp, Some (ErrApply e))
          | None =>
              match renderHTML w (ar_doc r) with
              | None => (resp, Some ErrRender)
              | Some transformed =>
                  let len := Z.of_nat (String.length transformed) in
                  let resp :=
                    mkResponse
                      (GoHTTP.Set_ (Header resp) "Content-Length" (GoHTTP.Itoa len))
                      (NewBody transformed) len in
                  (addHeaders w resp experimentID variantKey "hit", None)
              end
          end
      end
  end.

(** [applyExperiment]; [calls] are the calls made so far. *)
Definition applyExperiment (w : World) (m : ExperiFlowMiddleware) (resp : Response)
    (req : Request) (experimentID : string) (calls : list Call) : Outcome :=
  let cookieName := "ef_var_" ++ experimentID in
  let '(variantID, variantKey, isNew, made) := getOrAssignVariant w m req experimentID cookieName in
  let calls := (calls ++ made)%list in
  if String.eqb variantID "" then mkOutcome resp calls (Some ErrAssign)
  else
    let resp := if isNew then setAssignmentCookie w resp cookieName variantID else resp in
    let calls := (calls ++ [CallGetTransformSpec experimentID variantID])%list in
    match GetTransformSpec w experimentID variantID with
    | inl e => mkOutcome resp calls (Some (ErrFetchSpec e))
    | inr spec =>
        match ts_Operations spec with
        | nil => mkOutcome (addHeaders w resp experimentID variantKey "control") calls None
        | _ :: _ =>
            let '(resp', err) :=
              transformBody w experimentID variantKey (ts_Operations spec) resp in
            mkOutcome resp' calls err
        end
    end.

(** The loop of [ModifyResponse] over the experiments still to attempt. *)
Fixpoint applyExperiments (w : World) (m : ExperiFlowMiddleware) (req : Request)
    (ids : list string) (resp : Response) (calls : list Call) : Outcome :=
  match ids with
  | nil => mkOutcome resp calls None
  | experimentID :: rest =>
      let o := applyExperiment w m resp req experimentID calls in
      match o_err o with
      | Some err =>
          if FailOpen (config m) then mkOutcome (o_resp o) (o_calls o) None
          else mkOutcome (o_resp o) (o_calls o) (Some err)
      | None => applyExperiments w m req rest (o_resp o) (o_calls o)
      end
  end.

(** The experiment identifiers in the order in which the [range] loop
    over the experiment map visits them. *)
Definition rangeExperiments (w : World) (m : ExperiFlowMiddleware) : list string :=
  List.map fst (experimentOrder w (map_to_list (experiments m))).

(** [ModifyResponse]. *)
Definition ModifyResponse (w : World) (m : ExperiFlowMiddleware) (resp : Response)
    (req : Request) : Outcome :=
  if negb (isHTML resp) then mkOutcome resp nil None
  else applyExperiments w m req (rangeExperiments w m) resp nil.

(* ===================================================================== *)
(** * Notions of the specification, and example data *)
(* ===================================================================== *)

(** ** Selector forms as the specification words them

    An attribute of a node is an entry of the attribute list of an element
    node.  [selectsWith trim selector n] holds when [n] is selected, each
    form being read on [trim selector]: with [trim] the identity the
    selector is taken verbatim. *)
Definition attrOf {P} (n : NodeOf P) (key : string) : option string :=
  if isElement n then lookupAttr key (Attr n) else None.

Definition selectsWith {P} (trim : string -> string) (selector : string) (n : NodeOf P) : bool :=
  let s := trim selector in
  if GoStrings.HasPrefix s "." then
    match attrOf n "class" with
    | Some v => existsb (fun c => String.eqb c (GoStrings.sliceFrom s 1)) (GoStrings.Fields v)
    | None => false
    end
  else if GoStrings.HasPrefix s "#" then
    match attrOf n "id" with
    | Some v => String.eqb v (GoStrings.sliceFrom s 1)
    | None => false
    end
  else if GoStrings.HasPrefix s "[" && GoStrings.HasSuffix s "]" then
    match GoStrings.SplitN2 (GoStrings.slice s 1 (String.length s - 1)) "=" with
    | attr :: value :: _ =>
        match attrOf n (trim attr) with
        | Some v => String.eqb v (GoStrings.Trim (trim value) quotes)
        | None => false
        end
    | attr :: nil =>
        match attrOf n (trim attr) with
        | Some _ => true
        | None => false
        end
    | nil => false
    end
  else isElement n && String.eqb (Data n) s.

(** The selector is of the form [#id] with an empty [id], or of the form
    [[attr=value]] with an empty [value] once its quotes are stripped. *)
Definition emptyOperand (trim : string -> string) (selector : string) : bool :=
  let s := trim selector in
  if GoStrings.HasPrefix s "." then false
  else if GoStrings.HasPrefix s "#" then String.eqb (GoStrings.sliceFrom s 1) ""
  else if GoStrings.HasPrefix s "[" && GoStrings.HasSuffix s "]" then
    match GoStrings.SplitN2 (GoStrings.slice s 1 (String.length s - 1)) "=" with
    | _ :: value :: _ => String.eqb (GoStrings.Trim (trim value) quotes) ""
    | _ => false
    end
  else false.

(** An operation that [applyOperation] gives up on: its selector finds no
    node of the document, or its type is none of the seven. *)
Definition skipped (doc : Node) (op : Operation) : bool :=
  match findNodesBySelector doc (op_Selector op) with
  | nil => true
  | _ :: _ => negb (knownType (op_Type op))
  end.

(** A property name that survives a round trip through the style
    attribute: no white space around it, no semicolon, no colon. *)
Definition cleanKey (k : string) : bool :=
  String.eqb (GoStrings.TrimSpace k) k && GoStrings.noChar ";" k && GoStrings.noChar ":" k.

(** A property value that survives a round trip through the style
    attribute: no white space around it, no semicolon. *)
Definition cleanVal (v : string) : bool :=
  String.eqb (GoStrings.TrimSpace v) v && GoStrings.noChar ";" v.

(** The number of attributes named [key]. *)
Definition countKey (key : string) (attrs : list Attribute) : nat :=
  List.length (List.filter (fun a => String.eqb (Key a) key) attrs).

(** ** Notions used to reason about the style attribute *)

(** An entry as [setStyle] reads it from a style attribute: the property
    and the value are both clean. *)
Definition cleanEntry (kv : string * string) : Prop :=
  cleanKey (fst kv) = true /\ cleanVal (snd kv) = true.

(** An entry that [setStyle] can write and read back: the property is
    clean and the value holds no semicolon. *)
Definition writable (kv : string * string) : Prop :=
  cleanKey (fst kv) = true /\ GoStrings.noChar ";" (snd kv) = true.

(** A declaration, and the declarations written after the first one. *)
Definition decl (kv : string * string) : string := fst kv ++ ": " ++ snd kv.

Definition tailDecls (l : list (string * string)) : string :=
  List.fold_right (fun kv r => String ";" (String " " (decl kv ++ r))) "" l.

(** The assignment [styles[k] = v] of one entry read back: the value has
    lost the white space around it. *)
Definition readBack (m : gmap string string) (kv : string * string) : gmap string string :=
  <[fst kv := GoStrings.TrimSpace (snd kv)]> m.

(** ** Example documents *)

Definition text (s : string) : Node := mkNode tt TextNode s nil nil.

Definition element (tag : string) (attrs : list (string * string)) (children : list Node) : Node :=
  mkNode tt ElementNode tag (List.map (fun kv => mkAttr "" (fst kv) (snd kv)) attrs) children.

Definition document (children : list Node) : Node := mkNode tt DocumentNode "" nil children.

(** The document of [<button id=cta class="btn primary">Get Started</button><p>Hello</p>]. *)
Definition page : Node :=
  document
    [ element "html" nil
        [ element "head" nil nil;
          element "body" nil
            [ element "button" [("id", "cta"); ("class", "btn primary")] [text "Get Started"];
              element "p" nil [text "Hello"] ] ] ].

(** A runtime whose [range] loops visit the entries as [map_to_list]
    lists them and whose fragment parser yields one text node. *)
Definition plainRuntime : Runtime :=
  mkRuntime (fun _ _ entries => entries) (fun s => Some [text s]).

(** The calls that one attempt makes to the experiment service. *)
Definition attemptCalls (w : World) (m : ExperiFlowMiddleware) (req : Request)
    (experimentID : string) : list Call :=
  let '(variantID, _, _, made) :=
    getOrAssignVariant w m req experimentID ("ef_var_" ++ experimentID) in
  if String.eqb variantID "" then made
  else (made ++ [CallGetTransformSpec experimentID variantID])%list.

(** The response and the calls left by the attempts of the experiments
    [ids], made one after the other, each against the response left by
    the one before. *)
Fixpoint threaded (w : World) (m : ExperiFlowMiddleware) (req : Request)
    (ids : list string) (resp : Response) (calls : list Call) : Response * list Call :=
  match ids with
  | nil => (resp, calls)
  | experimentID :: rest =>
      let o := applyExperiment w m resp req experimentID calls in
      threaded w m req rest (o_resp o) (o_calls o)
  end.

(** None of these attempts fails. *)
Fixpoint allSucceed (w : World) (m : ExperiFlowMiddleware) (req : Request)
    (ids : list string) (resp : Response) (calls : list Call) : bool :=
  match ids with
  | nil => true
  | experimentID :: rest =>
      let o := applyExperiment w m resp req experimentID calls in
      match o_err o with
      | None => allSucceed w m req rest (o_resp o) (o_calls o)
      | Some _ => false
      end
  end.

(** ** Example requests *)

Definition exConfig (failOpen : bool) : Config :=
  mkConfig "8090" "http://localhost:8080" 10000000000 10000000000
           "http://localhost:8000" "" 50000000 failOpen true true.

(** An HTML response of the origin. *)
Definition htmlResponse (body : string) : Response :=
  mkResponse {[ "Content-Type" := ["text/html; charset=utf-8"] ]}
             (NewBody body) (Z.of_nat (String.length body)).

Definition exCookieString (c : Cookie) : string :=
  c_Name c ++ "=" ++ c_Value c ++ "; Path=/; Max-Age=2592000; HttpOnly; SameSite=Lax".

(** A world in which the experiment service answers [variants] and [spec]
    to every call, the parser yields a document holding the body as text
    and the renderer gives that text back. *)
Definition exWorld (variants : FetchError + list Variant) (spec : FetchError + TransformSpec)
  : World :=
  mkWorld (fun _ => variants) (fun _ _ => spec)
          (fun body => Some (document [text body]))
          (fun doc => Some (String.concat "" (List.map Data (Children doc))))
          exCookieString (fun _ => 35) 0 0 (fun l => l) (fun _ => plainRuntime).

Definition exSpec (operations : list Operation) : TransformSpec :=
  mkTransformSpec "1" "exp-1" "v2" "green" operations 60 "k" "".

Definition exVariants : list Variant :=
  [mkVariant "v1" "Control" true 0.5; mkVariant "v2" "Green" false 0.5].

(** A request without cookies, and one that carries the assignment
    cookie of the experiment "exp-1". *)
Definition newVisitor : Request := mkRequest nil "203.0.113.7:4242" "curl/8.0".

Definition returningVisitor : Request :=
  mkRequest [("session", "abc"); ("ef_var_exp-1", "v2")] "203.0.113.7:4242" "curl/8.0".

(* ===================================================================== *)
(** * Further code of the repository *)
(* ===================================================================== *)

(** ** Package [variant]: the random pick *)

(** The loop of [SelectRandomVariant]; [r] is the draw [rand.Float64()]. *)
Fixpoint randomLoop (r : float) (cumulative : float) (variants : list Variant) : option Variant :=
  match variants with
  | nil => None
  | v :: rest =>
      let cumulative := (cumulative + v_TrafficAllocation v)%float in
      if (r <? cumulative)%float then Some v
      else randomLoop r cumulative rest
  end.

(** [Assigner.SelectRandomVariant]. *)
Definition SelectRandomVariant (variants : list Variant) (r : float) : option Variant :=
  match variants with
  | nil => None
  | v :: nil => Some v
  | v0 :: _ =>
      match randomLoop r 0%float variants with
      | Some v => Some v
      | None => Some v0
      end
  end.

(** A lower-case hexadecimal digit. *)
Definition isLowerHex (c : ascii) : bool :=
  let n := N_of_ascii c in
  (((48 <=? n) && (n <=? 57)) || ((97 <=? n) && (n <=? 102)))%N.

Fixpoint allLowerHex (s : string) : bool :=
  match s with
  | EmptyString => true
  | String c s' => isLowerHex c && allLowerHex s'
  end.

(** ** Command [proxy]: the experiment identifiers *)

(** [getExperimentIDs]; [idsStr] is the value of the environment variable
    [EXPERIMENT_IDS], empty when it is not set. *)
Definition getExperimentIDs (idsStr : string) : list string :=
  if String.eqb idsStr "" then nil
  else
    List.fold_left
      (fun (result : list string) (id : string) =>
         let id := GoStrings.TrimSpace id in
         if negb (String.eqb id "") then (result ++ [id])%list else result)
      (GoStrings.Split idsStr ",") nil.

(** The test of the loop of [getExperimentIDs]. *)
Definition keepID (id : string) : bool := negb (String.eqb id "").

(** An identifier that [getExperimentIDs] gives back as it is: not empty,
    no white space around it, no comma. *)
Definition cleanID (id : string) : bool :=
  negb (String.eqb id "") && String.eqb (GoStrings.TrimSpace id) id && GoStrings.noChar "," id.

(** ** Package [config] *)

(** The environment of the process; [os.Getenv] gives the empty string for
    a variable that is not set. *)
Definition Getenv (env : gmap string string) (key : string) : string :=
  default "" (env !! key).

(** [getEnv]. *)
Definition getEnv (env : gmap string string) (key defaultValue : string) : string :=
  let value := Getenv env key in
  if negb (String.eqb value "") then value else defaultValue.

Definition boolTrue : list string := ["1"; "t"; "T"; "TRUE"; "true"; "True"].
Definition boolFalse : list string := ["0"; "f"; "F"; "FALSE"; "false"; "False"].

(** [strconv.ParseBool]; [None] is the error result. *)
Definition ParseBool (str : string) : option bool :=
  if existsb (String.eqb str) boolTrue then Some true
  else if existsb (String.eqb str) boolFalse then Some false
  else None.

(** [getBool]. *)
Definition getBool (env : gmap string string) (key : string) (defaultValue : bool) : bool :=
  let value := Getenv env key in
  if negb (String.eqb value "") then
    match ParseBool value with
    | Some b => b
    | None => defaultValue
    end
  else defaultValue.

(** [getDuration]; [parseDuration] is [time.ParseDuration], in
    nanoseconds, [None] being its error result. *)
Definition getDuration (parseDuration : string -> option Z) (env : gmap string string)
    (key : string) (defaultValue : Z) : Z :=
  let value := Getenv env key in
  if negb (String.eqb value "") then
    match parseDuration value with
    | Some d => d
    | None => defaultValue
    end
  else defaultValue.

(** [config.LoadFromEnv]. *)
Definition LoadFromEnv (parseDuration : string -> option Z) (env : gmap string string) : Config :=
  mkConfig
    (getEnv env "PORT" "8090")
    (getEnv env "ORIGIN_URL" "http://localhost:8080")
    (getDuration parseDuration env "READ_TIMEOUT" (10 * 1000000000))
    (getDuration parseDuration env "WRITE_TIMEOUT" (10 * 1000000000))
    (getEnv env "EXPERIFLOW_API_URL" "http://localhost:8000")
    (getEnv env "EXPERIFLOW_EDGE_TOKEN" "")
    (getDuration parseDuration env "TRANSFORM_TIMEOUT" (50 * 1000000))
    (getBool env "FAIL_OPEN" true)
    (getBool env "ENABLE_LOGGING" true)
    (getBool env "ENABLE_METRICS" true).

(** ** Package [transform]: an operation seen from the selection

    What an operation leaves of a document, stated on the nodes that its
    selector selects in the document before it runs. *)

(** The document with the attribute list of each node [n] replaced by
    [h n]; the tree and the other fields stay. *)
Fixpoint mapAttrs {P} (h : NodeOf P -> list Attribute) (n : NodeOf P) : NodeOf P :=
  match n with
  | mkNode p t d a cs => mkNode p t d (h n) (List.map (mapAttrs h) cs)
  end.

(** The document with the children of each selected node replaced by
    [new]; what hung below a selected node is gone with its children. *)
Fixpoint replaceSelected {P} (m : NodeOf P -> bool) (new : list (NodeOf P)) (n : NodeOf P)
  : NodeOf P :=
  match n with
  | mkNode p t d a cs =>
      if m n then mkNode p t d a new
      else mkNode p t d a (List.map (replaceSelected m new) cs)
  end.

(** The document without the selected nodes below the root, each gone
    with what hangs below it; the root stays. *)
Fixpoint removeSelected {P} (m : NodeOf P -> bool) (n : NodeOf P) : NodeOf P :=
  match n with
  | mkNode p t d a cs =>
      mkNode p t d a
        (List.flat_map (fun c => if m c then nil else removeSelected m c :: nil) cs)
  end.

(** The children that [setText] and [setHTML] give a node. *)
Definition newChildren (parse : string -> option (list Node)) (op : Operation) : list Node :=
  if String.eqb (op_Type op) OpSetText then mkNode tt TextNode (op_Value op) nil nil :: nil
  else match parse (op_Value op) with
       | Some nodes => nodes
       | None => nil
       end.

(** The property and the value that [setStyle] is called with by the
    operations [setStyle], [hide] and [show]. *)
Definition styleArgs (op : Operation) : string * string :=
  if String.eqb (op_Type op) OpHide then ("display", "none")
  else if String.eqb (op_Type op) OpShow then ("display", "")
  else (op_Property op, op_Value op).

(** ** Sets of addresses *)

Definition labels {P} (n : NodeOf P) : list P := List.map Ptr (preorder n).

Definition ptEq (p : nat) (q : option nat) : bool :=
  match q with
  | Some p' => Nat.eqb p p'
  | None => false
  end.

Definition inSet (ps : list nat) (q : option nat) : bool :=
  match q with
  | Some p => existsb (Nat.eqb p) ps
  | None => false
  end.

(** The addresses that the loop of [applyOperation] goes through. *)
Fixpoint ptrsOf (nodes : list PNode) : list nat :=
  match nodes with
  | nil => nil
  | node :: rest =>
      match Ptr node with
      | Some p => p :: ptrsOf rest
      | None => ptrsOf rest
      end
  end.

(** The document without the nodes below the root whose address is in
    the set. *)
Fixpoint removeSet (S : option nat -> bool) (n : PNode) : PNode :=
  match n with
  | mkNode q t d a cs =>
      mkNode q t d a
        (List.flat_map (fun c => if S (Ptr c) then nil else removeSet S c :: nil) cs)
  end.

(** The document with the children of the nodes whose address is in the
    set replaced by [new]. *)
Fixpoint replaceSet (S : option nat -> bool) (new : list PNode) (n : PNode) : PNode :=
  match n with
  | mkNode q t d a cs =>
      if S q then mkNode q t d a new
      else mkNode q t d a (List.map (replaceSet S new) cs)
  end.

(** A mutation that rewrites the attribute list from the type and the
    attributes of the node. *)
Definition onAttrs {P} (g : NodeType -> list Attribute -> list Attribute) (n : NodeOf P)
  : NodeOf P :=
  mkNode (Ptr n) (Type_ n) (Data n) (g (Type_ n) (Attr n)) (Children n).

(** The attribute list after the mutations [al], each at its address. *)
Fixpoint assocAttrs (al : list (nat * (NodeType -> list Attribute -> list Attribute)))
    (x : PNode) : list Attribute :=
  match al with
  | nil => Attr x
  | (p, g) :: rest => if ptEq p (Ptr x) then g (Type_ x) (Attr x) else assocAttrs rest x
  end.

(** The mutations of the attributes that the loop of [applyOperation]
    makes, the [j]-th node done being mutated by [gj j]. *)
Fixpoint attrMutations (gj : nat -> NodeType -> list Attribute -> list Attribute)
    (nodes : list PNode) (j : nat)
  : list (nat * (NodeType -> list Attribute -> list Attribute)) :=
  match nodes with
  | nil => nil
  | node :: rest =>
      match Ptr node with
      | Some p => (p, gj j) :: attrMutations gj rest (S j)
      | None => attrMutations gj rest (S j)
      end
  end.

(** Every node has an address, and no two nodes have the same. *)
Definition wellLabelled (T : PNode) : Prop :=
  NoDup (labels T) /\ List.Forall (fun q => q <> None) (labels T).

(** The attributes that [setAttr] and [setStyle] give a node of type [t]
    with the attributes [a]. *)
Definition setAttrAttrs (key value : string) (t : NodeType) (a : list Attribute)
  : list Attribute :=
  Attr (setAttr (mkNode tt t "" a nil) key value).

Definition setStyleAttrs (order : RangeOrder) (property value : string) (t : NodeType)
    (a : list Attribute) : list Attribute :=
  Attr (setStyle order (mkNode tt t "" a nil) property value).

(** The attribute lists that a style operation leaves on the nodes [l],
    taken in order: the selected nodes are styled one after the other, the
    [j]-th with the order of the [j]-th [range] loop; the others keep their
    attributes. *)
Fixpoint styledAttrs {P} (orders : nat -> RangeOrder) (property value : string)
    (m : NodeOf P -> bool) (l : list (NodeOf P)) (j : nat) : list (list Attribute) :=
  match l with
  | nil => nil
  | n :: rest =>
      if m n then Attr (setStyle (orders j) n property value)
                  :: styledAttrs orders property value m rest (S j)
      else Attr n :: styledAttrs orders property value m rest j
  end.

(* ===================================================================== *)
(** * Properties *)
(* ===================================================================== *)

Import GoStrings GoCrypto.

Example TrimSpace_ex1 : TrimSpace "  a b 	" = "a b".
Proof. reflexivity. Qed.

Example Fields_ex1 : Fields " btn  btn-primary	x " = ["btn"; "btn-primary"; "x"].
Proof. reflexivity. Qed.

Example Split_ex1 : Split "a: 1; b: 2;" ";" = ["a: 1"; " b: 2"; ""].
Proof. reflexivity. Qed.

Example SplitN2_ex1 : SplitN2 "a=b=c" "=" = ["a"; "b=c"].
Proof. reflexivity. Qed.

Example K256_ends : List.length K256 = 64%nat /\ List.hd 0 K256 = 0x428a2f98 /\ List.last K256 0 = 0xc67178f2.
Proof. repeat split; reflexivity. Qed.

Example H256_ends : List.length H256 = 8%nat /\ List.hd 0 H256 = 0x6a09e667 /\ List.last H256 0 = 0x5be0cd19.
Proof. repeat split; reflexivity. Qed.

Example sha256_abc :
  EncodeToString (sha256 (bytes_of_string "abc"))
  = "ba7816bf8f01cfea414140de5dae2223b00361a396177a9cb410ff61f20015ad".
Proof. vm_compute. reflexivity. Qed.

Example sha256_two_blocks :
  EncodeToString (sha256 (bytes_of_string "abcdbcdecdefdefgefghfghighijhijkijkljklmklmnlmnomnopnopq"))
  = "248d6a61d20638b8e5c026930c3e6039a33ce45964ff2167f6ecedd419db06c1".
Proof. vm_compute. reflexivity. Qed.

Example hmac_rfc4231_case6 :
  EncodeToString
    (hmac_sha256 (List.repeat 170 131)
       (bytes_of_string "Test Using Larger Than Block-Size Key - Hash Key First"))
  = "60e431591ee0b67f0d8a26aacbf5b77f8e0bc6213728c5140546040f0ee37f54".
Proof. vm_compute. reflexivity. Qed.

Example hmac_rfc4231_case2 :
  EncodeToString (hmac_sha256 (bytes_of_string "Jefe") (bytes_of_string "what do ya want for nothing?"))
  = "5bdcc146bf60754e6a042426089575c75a003f089d2739839dec58b964ec3843".
Proof. vm_compute. reflexivity. Qed.

(* --------------------------------------------------------------------- *)
(** ** The digest and its first eight hexadecimal characters *)
(* --------------------------------------------------------------------- *)

Lemma round_length st kw : List.length st = 8%nat -> List.length (round st kw) = 8%nat.
Proof.
  intros H.
  do 9 (destruct st as [|? st]; simpl in H; try discriminate H).
  reflexivity.
Qed.

Lemma fold_round_length l h :
  List.length h = 8%nat -> List.length (List.fold_left round l h) = 8%nat.
Proof.
  revert h. induction l as [|kw l IH]; intros h H; simpl; [exact H|].
  apply IH. now apply round_length.
Qed.

Lemma compress_length h b : List.length h = 8%nat -> List.length (compress h b) = 8%nat.
Proof.
  intros H. unfold compress.
  rewrite List.length_map, List.length_combine, fold_round_length by exact H.
  rewrite H. reflexivity.
Qed.

Lemma blocks_length fuel ws h :
  List.length h = 8%nat -> List.length (blocks fuel ws h) = 8%nat.
Proof.
  revert ws h. induction fuel as [|f IH]; intros ws h H; simpl; [exact H|].
  destruct ws; [exact H|]. apply IH. now apply compress_length.
Qed.

Lemma be_bytes_length n x : List.length (be_bytes n x) = n.
Proof. induction n; simpl; congruence. Qed.

Lemma byte_range x : 0 <= Z.land x 255 < 256.
Proof.
  change 255 with (Z.ones 8). rewrite Z.land_ones by lia.
  apply Z.mod_pos_bound. reflexivity.
Qed.

Lemma be_bytes_range n x : List.Forall (fun b => 0 <= b < 256) (be_bytes n x).
Proof. induction n; simpl; constructor; [apply byte_range | assumption]. Qed.

Lemma concat_be_bytes_length l :
  List.length (List.concat (List.map (be_bytes 4) l)) = (4 * List.length l)%nat.
Proof.
  induction l as [|x l IH]; [reflexivity|].
  cbn [List.map List.concat]. rewrite List.length_app, IH, be_bytes_length.
  cbn [List.length]. lia.
Qed.

Lemma concat_be_bytes_range l :
  List.Forall (fun b => 0 <= b < 256) (List.concat (List.map (be_bytes 4) l)).
Proof.
  induction l as [|x l IH]; [constructor|].
  cbn [List.map List.concat]. apply List.Forall_app. split; [apply be_bytes_range | exact IH].
Qed.

Lemma sha256_length msg : List.length (sha256 msg) = 32%nat.
Proof.
  unfold sha256. rewrite concat_be_bytes_length, blocks_length; reflexivity.
Qed.

Lemma sha256_range msg : List.Forall (fun b => 0 <= b < 256) (sha256 msg).
Proof. unfold sha256. apply concat_be_bytes_range. Qed.

(** The digest starts with four bytes. *)
Lemma hmac_sha256_head key msg :
  exists b0 b1 b2 b3 rest,
    hmac_sha256 key msg = b0 :: b1 :: b2 :: b3 :: rest
    /\ 0 <= b0 < 256 /\ 0 <= b1 < 256 /\ 0 <= b2 < 256 /\ 0 <= b3 < 256.
Proof.
  unfold hmac_sha256.
  set (d := sha256 _).
  assert (Hl : List.length d = 32%nat) by apply sha256_length.
  assert (Hr : List.Forall (fun b => 0 <= b < 256) d) by apply sha256_range.
  clearbody d.
  destruct d as [|b0 [|b1 [|b2 [|b3 rest]]]]; try discriminate Hl.
  exists b0, b1, b2, b3, rest.
  inversion Hr as [|? ? H0 Hr1]; subst.
  inversion Hr1 as [|? ? H1 Hr2]; subst.
  inversion Hr2 as [|? ? H2 Hr3]; subst.
  inversion Hr3 as [|? ? H3 Hr4]; subst.
  repeat split; lia.
Qed.

Lemma hexval_hexdigit n : 0 <= n < 16 -> hexval (hexdigit n) = Some n.
Proof.
  intros H. rewrite <- (Z2Nat.id n) by lia.
  assert (Hk : (Z.to_nat n < 16)%nat) by lia.
  generalize dependent (Z.to_nat n). clear H. intros k Hk.
  do 16 (destruct k as [|k]; [reflexivity|]). lia.
Qed.

Lemma nibbles b : 0 <= b < 256 ->
  0 <= Z.shiftr b 4 < 16 /\ 0 <= Z.land b 15 < 16 /\ b = 16 * Z.shiftr b 4 + Z.land b 15.
Proof.
  intros H.
  rewrite Z.shiftr_div_pow2 by lia.
  change 15 with (Z.ones 4). rewrite Z.land_ones by lia.
  change (2 ^ 4) with 16.
  pose proof (Z.div_mod b 16 ltac:(lia)).
  pose proof (Z.mod_pos_bound b 16 ltac:(lia)).
  assert (0 <= b / 16 < 16).
  { split; [apply Z.div_pos; lia | apply Z.div_lt_upper_bound; lia]. }
  lia.
Qed.

(** Parsing the first eight characters of the hexadecimal digest always
    succeeds and reads the first four bytes as a big-endian integer. *)
Lemma ParseUint16_digest_prefix b0 b1 b2 b3 rest :
  0 <= b0 < 256 -> 0 <= b1 < 256 -> 0 <= b2 < 256 -> 0 <= b3 < 256 ->
  ParseUint16 (slice (EncodeToString (b0 :: b1 :: b2 :: b3 :: rest)) 0 8)
  = Some (((b0 * 256 + b1) * 256 + b2) * 256 + b3).
Proof.
  intros H0 H1 H2 H3.
  destruct (nibbles b0 H0) as (Ha0 & Hb0 & E0).
  destruct (nibbles b1 H1) as (Ha1 & Hb1 & E1).
  destruct (nibbles b2 H2) as (Ha2 & Hb2 & E2).
  destruct (nibbles b3 H3) as (Ha3 & Hb3 & E3).
  unfold slice. cbn [EncodeToString Nat.sub substring ParseUint16 parseHex].
  rewrite !hexval_hexdigit by assumption.
  replace (substring 0 0 (EncodeToString rest)) with EmptyString
    by (destruct (EncodeToString rest); reflexivity).
  cbn [parseHex].
  change (2 ^ 64) with 18446744073709551616.
  match goal with |- (if ?c then _ else _) = _ => destruct c eqn:Hc end.
  - f_equal. lia.
  - apply Z.ltb_ge in Hc. lia.
Qed.

Lemma getBucket_spec_bucket a userID experimentID rnd :
  getBucket a userID experimentID rnd = spec_bucket (salt a) userID experimentID.
Proof.
  unfold getBucket, spec_bucket.
  destruct (hmac_sha256_head (bytes_of_string (salt a))
              (bytes_of_string (userID ++ ":" ++ experimentID)))
    as (b0 & b1 & b2 & b3 & rest & -> & H0 & H1 & H2 & H3).
  rewrite ParseUint16_digest_prefix by assumption. reflexivity.
Qed.

Lemma spec_bucket_range s userID experimentID :
  0 <= spec_bucket s userID experimentID < 100.
Proof.
  unfold spec_bucket.
  destruct (hmac_sha256 _ _) as [|b0 [|b1 [|b2 [|b3 rest]]]]; try lia.
  apply Z.mod_pos_bound. lia.
Qed.

Lemma assignLoop_firstAbove bucket c variants :
  assignLoop bucket c variants
  = fst <$> List.find (fun p => (float64_of_int bucket <? snd p * 100)%float)
              (List.combine variants (runningSums c variants)).
Proof.
  revert c. induction variants as [|v rest IH]; intros c; [reflexivity|].
  cbn [assignLoop runningSums List.combine List.find snd].
  destruct (float64_of_int bucket <? (c + v_TrafficAllocation v) * 100)%float; [reflexivity|].
  apply IH.
Qed.

(* --------------------------------------------------------------------- *)
(** ** Variant assignment *)
(* --------------------------------------------------------------------- *)

Example getBucket_user42 : getBucket (mkAssigner "s") "user-42" "exp-1" 0 = 58.
Proof. vm_compute. reflexivity. Qed.

Example getBucket_user74 : getBucket (mkAssigner "s") "user-74" "exp-1" 0 = 30.
Proof. vm_compute. reflexivity. Qed.

(** C1, as stated, fails: with the allocations 0.1, 0.2, 0.7 and the user
    "user-74" (bucket 30 under the salt "s"), the code compares 30 with
    (0.1 + 0.2) * 100 = 30.000000000000004 and returns the second variant,
    while the walk of the specification compares 30 with
    0.1 * 100 + 0.2 * 100 = 30 and returns the third one. *)
Lemma C1_counterexample :
  let variants :=
    [ mkVariant "v1" "Control" true 0.1;
      mkVariant "v2" "Green" false 0.2;
      mkVariant "v3" "Blue" false 0.7 ] in
  getBucket (mkAssigner "s") "user-74" "exp-1" 0 = 30
  /\ AssignVariant (mkAssigner "s") "user-74" "exp-1" variants 0
     = Some (mkVariant "v2" "Green" false 0.2)
  /\ spec_AssignVariant "s" "user-74" "exp-1" variants
     = Some (mkVariant "v3" "Blue" false 0.7).
Proof. vm_compute. repeat split; reflexivity. Qed.

(** C1 (amended).  [AssignVariant] is a function of the salt, the user,
    the experiment and the ordered variant list alone (the random fallback
    of [getBucket] is never taken, so two calls agree); the bucket is the
    first four digest bytes read as an unsigned integer, modulo 100; an
    empty list gives no assignment, a list of one variant gives that
    variant, and a longer list gives the first variant, in the given
    order, at which [float64(bucket)] is below 100 times the running
    float64 sum of the allocations, or the first variant when there is
    none. *)
Theorem C1_AssignVariant_algorithm
    (a : Assigner) (userID experimentID : string) (variants : list Variant) (rnd rnd' : Z) :
  AssignVariant a userID experimentID variants rnd
  = AssignVariant a userID experimentID variants rnd'
  /\ getBucket a userID experimentID rnd = spec_bucket (salt a) userID experimentID
  /\ 0 <= getBucket a userID experimentID rnd < 100
  /\ AssignVariant a userID experimentID variants rnd
     = match variants with
       | nil => None
       | v :: nil => Some v
       | v0 :: _ :: _ =>
           Some (default v0 (firstAbove (spec_bucket (salt a) userID experimentID) variants))
       end.
Proof.
  assert (HA : forall r, AssignVariant a userID experimentID variants r
     = match variants with
       | nil => None
       | v :: nil => Some v
       | v0 :: _ :: _ =>
           Some (default v0 (firstAbove (spec_bucket (salt a) userID experimentID) variants))
       end).
  { intros r. unfold AssignVariant, firstAbove.
    destruct variants as [|v0 [|v1 rest]]; try reflexivity.
    rewrite getBucket_spec_bucket, assignLoop_firstAbove.
    destruct (List.find _ _) as [[v c]|]; reflexivity. }
  split; [rewrite (HA rnd), (HA rnd'); reflexivity|].
  split; [apply getBucket_spec_bucket|].
  split; [rewrite getBucket_spec_bucket; apply spec_bucket_range|].
  apply HA.
Qed.

(* --------------------------------------------------------------------- *)
(** ** Selector resolution *)
(* --------------------------------------------------------------------- *)

(** Induction on a tree: a property that holds of a node whenever it holds
    of its children holds of every node. *)
Lemma NodeOf_induction {P : Type} (Q : NodeOf P -> Prop) :
  (forall p t d a cs, List.Forall Q cs -> Q (mkNode p t d a cs)) ->
  forall n, Q n.
Proof.
  intros Hnode. fix IH 1. intros [p t d a cs]. apply Hnode.
  induction cs as [|c cs IHcs]; constructor; [apply IH | exact IHcs].
Qed.

(** The walk appends to [results] the matching nodes in pre-order. *)
Lemma walk_preorder {P} (f : NodeOf P -> bool) (n : NodeOf P) :
  forall results, walk f n results = (results ++ List.filter f (preorder n))%list.
Proof.
  induction n as [p t d a cs IH] using NodeOf_induction. intros results.
  cbn [walk preorder List.filter].
  set (r0 := if f (mkNode p t d a cs) then (results ++ [mkNode p t d a cs])%list else results).
  assert (Hfold : forall acc,
             List.fold_left (fun acc child => walk f child acc) cs acc
             = (acc ++ List.filter f (List.flat_map preorder cs))%list).
  { induction IH as [|c cs' Hc _ IHcs]; intros acc; cbn [List.fold_left List.flat_map].
    - now rewrite List.app_nil_r.
    - rewrite IHcs, Hc, List.filter_app, List.app_assoc. reflexivity. }
  rewrite Hfold. subst r0.
  destruct (f (mkNode p t d a cs)); [rewrite <- List.app_assoc|]; reflexivity.
Qed.

Lemma getAttr_attrOf {P} (n : NodeOf P) key :
  getAttr n key = default "" (attrOf n key).
Proof.
  unfold getAttr, attrOf. destruct (isElement n); cbn; [|reflexivity].
  destruct (lookupAttr key (Attr n)); reflexivity.
Qed.

Lemma hasAttr_attrOf {P} (n : NodeOf P) key :
  hasAttr n key = match attrOf n key with Some _ => true | None => false end.
Proof. unfold hasAttr, attrOf. destruct (isElement n); reflexivity. Qed.

Lemma hasClass_attrOf {P} (n : NodeOf P) name :
  hasClass n name
  = match attrOf n "class" with
    | Some v => existsb (fun c => String.eqb c name) (Fields v)
    | None => false
    end.
Proof.
  unfold hasClass. rewrite getAttr_attrOf. unfold attrOf.
  destruct (isElement n); cbn; [|reflexivity].
  destruct (lookupAttr "class" (Attr n)); reflexivity.
Qed.

Lemma eqb_default_nonempty o v :
  String.eqb v "" = false ->
  String.eqb (default "" o) v = match o with Some w => String.eqb w v | None => false end.
Proof.
  intros Hv. destruct o as [w|]; unfold default; [reflexivity|].
  rewrite String.eqb_sym. exact Hv.
Qed.

(** The closure built by the code selects the same nodes as the selector
    forms read on the trimmed selector, unless the operand is empty. *)
Lemma matchFunc_selectsWith {P} (selector : string) (n : NodeOf P) :
  emptyOperand TrimSpace selector = false ->
  matchFunc (TrimSpace selector) n = selectsWith TrimSpace selector n.
Proof.
  unfold emptyOperand, matchFunc, selectsWith. cbv zeta.
  set (s := TrimSpace selector).
  destruct (HasPrefix s "."); [intros _; apply hasClass_attrOf|].
  destruct (HasPrefix s "#").
  { intros Hid. rewrite getAttr_attrOf. now apply eqb_default_nonempty. }
  destruct (HasPrefix s "[" && HasSuffix s "]"); [|reflexivity].
  destruct (SplitN2 _ _) as [|part0 [|part1 rest]]; [reflexivity| |].
  - intros _. apply hasAttr_attrOf.
  - intros Hval. rewrite getAttr_attrOf. now apply eqb_default_nonempty.
Qed.

Example findNodes_class :
  List.map Data (findNodesBySelector page ".primary") = ["button"].
Proof. reflexivity. Qed.

Example findNodes_absent : findNodesBySelector page ".missing" = [].
Proof. reflexivity. Qed.

(** C7, as stated, fails: the selector is trimmed before its form is
    read.  The selector " #cta" (with a leading space) is resolved as the
    identifier selector and returns the button, while read verbatim it is
    none of the four forms and no element has that tag name; likewise
    "p " (with a trailing space) returns the [p] element, whose tag name
    is not "p ".  And with an empty operand, "#" or "[id=]", the code
    returns every node without that attribute, text nodes and the document
    node included, none of which has an attribute equal to the operand. *)
Lemma C7_counterexample :
  List.map Data (findNodesBySelector page " #cta") = ["button"]
  /\ List.filter (selectsWith (fun s => s) " #cta") (preorder page) = []
  /\ List.map Data (findNodesBySelector page "p ") = ["p"]
  /\ List.filter (selectsWith (fun s => s) "p ") (preorder page) = []
  /\ List.map Data (findNodesBySelector page "#")
     = [""; "html"; "head"; "body"; "Get Started"; "p"; "Hello"]
  /\ List.filter (selectsWith (fun s => s) "#") (preorder page) = []
  /\ List.map Data (findNodesBySelector page "[id=]")
     = [""; "html"; "head"; "body"; "Get Started"; "p"; "Hello"]
  /\ List.filter (selectsWith (fun s => s) "[id=]") (preorder page) = [].
Proof. vm_compute. repeat split; reflexivity. Qed.

(** C7 (amended).  [findNodesBySelector] first trims the white space
    around the selector; it then visits every node of the tree once, in
    pre-order and to the end, and returns, in that order, exactly: for
    [.name] the elements with [name] among the white-space separated
    tokens of their class attribute; for [#id] with a non-empty [id] the
    elements whose id attribute is [id]; for [[attr]] the elements with an
    attribute named [attr] (trimmed); for [[attr=value]] the elements
    whose [attr] attribute is [value] trimmed and stripped of its quotes,
    when that is not empty; for any other string the elements whose tag
    name is the trimmed selector. *)
Theorem C7_findNodesBySelector {P} (doc : NodeOf P) (selector : string) :
  emptyOperand TrimSpace selector = false ->
  walk (fun _ => true) doc [] = preorder doc
  /\ findNodesBySelector doc selector
     = List.filter (selectsWith TrimSpace selector) (preorder doc).
Proof.
  intros Hdef. split.
  - rewrite walk_preorder. cbn [app].
    induction (preorder doc) as [|x l IH]; cbn; congruence.
  - unfold findNodesBySelector. rewrite walk_preorder. cbn [app].
    apply List.filter_ext. intros n. now apply matchFunc_selectsWith.
Qed.

Lemma C7_witness :
  emptyOperand TrimSpace " [id=cta] " = false
  /\ List.map Data (findNodesBySelector page " [id=cta] ") = ["button"].
Proof.
  split; [reflexivity|].
  rewrite (proj2 (C7_findNodesBySelector page " [id=cta] " eq_refl)).
  reflexivity.
Defined.

(* --------------------------------------------------------------------- *)
(** ** Pointers: numbering a document and erasing the numbers *)
(* --------------------------------------------------------------------- *)

Lemma numberChildren_erase cs :
  List.Forall (fun c => forall k, erase (fst (numberFrom k c)) = c) cs ->
  forall k, List.map erase (fst (numberChildren numberFrom k cs)) = cs.
Proof.
  induction 1 as [|c cs Hc _ IH]; intros k; cbn [numberChildren]; [reflexivity|].
  specialize (Hc k). destruct (numberFrom k c) as [c' k1]. cbn [fst] in Hc.
  specialize (IH k1). destruct (numberChildren numberFrom k1 cs) as [l k2].
  cbn [fst List.map] in *. now rewrite Hc, IH.
Qed.

Lemma erase_numberFrom (n : Node) : forall k, erase (fst (numberFrom k n)) = n.
Proof.
  induction n as [p t d a cs IH] using NodeOf_induction. intros k.
  cbn [numberFrom].
  pose proof (numberChildren_erase cs IH (S k)) as Hcs.
  destruct (numberChildren numberFrom (S k) cs) as [cs' k'].
  cbn [fst erase] in *. rewrite Hcs. now destruct p.
Qed.

Lemma erase_number doc : erase (number doc) = doc.
Proof. apply erase_numberFrom. Qed.

Lemma preorder_erase {P} (n : NodeOf P) :
  preorder (erase n) = List.map erase (preorder n).
Proof.
  induction n as [p t d a cs IH] using NodeOf_induction.
  cbn [erase preorder List.map]. f_equal.
  induction IH as [|c cs Hc _ IHcs]; cbn [List.map List.flat_map]; [reflexivity|].
  now rewrite List.map_app, Hc, IHcs.
Qed.

Lemma matchFunc_erase {P} (s : string) (n : NodeOf P) :
  matchFunc s (erase n) = matchFunc s n.
Proof.
  unfold matchFunc.
  destruct (HasPrefix s "."); [destruct n; reflexivity|].
  destruct (HasPrefix s "#"); [destruct n; reflexivity|].
  destruct (HasPrefix s "[" && HasSuffix s "]"); [|destruct n; reflexivity].
  destruct (SplitN2 _ _) as [|part0 [|part1 rest]]; destruct n; reflexivity.
Qed.

Lemma filter_map_erase {P} (f : Node -> bool) (g : NodeOf P -> bool) (l : list (NodeOf P)) :
  (forall n, f (erase n) = g n) ->
  List.filter f (List.map erase l) = List.map erase (List.filter g l).
Proof.
  intros Hfg. induction l as [|x l IH]; cbn [List.map List.filter]; [reflexivity|].
  rewrite Hfg. destruct (g x); cbn [List.map]; now rewrite IH.
Qed.

(** The pointers found in the numbered document are those of the nodes
    found in the document. *)
Lemma findNodes_number doc selector :
  List.map erase (findNodesBySelector (number doc) selector)
  = findNodesBySelector doc selector.
Proof.
  unfold findNodesBySelector. rewrite !walk_preorder. cbn [app].
  rewrite <- (erase_number doc) at 2.
  rewrite preorder_erase. symmetry. apply filter_map_erase. apply matchFunc_erase.
Qed.

(* --------------------------------------------------------------------- *)
(** ** The batch *)
(* --------------------------------------------------------------------- *)

Lemma applyToNode_unknown parse order op p doc :
  knownType (op_Type op) = false ->
  applyToNode parse order op p doc = inr (ErrUnknownType (op_Type op)).
Proof.
  unfold knownType, applyToNode. cbn [existsb]. intros H.
  repeat (apply orb_false_elim in H; destruct H as [-> H]). reflexivity.
Qed.

Lemma applyToNodes_unknown parse orders op nodes :
  knownType (op_Type op) = false ->
  forall j doc, fst (applyToNodes parse orders op nodes j doc) = doc.
Proof.
  intros Hty. induction nodes as [|node rest IH]; intros j doc; cbn [applyToNodes]; [reflexivity|].
  destruct (Ptr node) as [p|]; [|apply IH].
  now rewrite applyToNode_unknown.
Qed.

(** A skipped operation leaves the document as it is. *)
Lemma applyOperation_skipped rt i doc op :
  skipped doc op = true -> fst (applyOperation rt i doc op) = doc.
Proof.
  unfold skipped, applyOperation. rewrite <- findNodes_number.
  destruct (findNodesBySelector (number doc) (op_Selector op)) as [|node nodes]; [reflexivity|].
  cbn [List.map]. intros Hty. apply negb_true_iff in Hty.
  pose proof (applyToNodes_unknown (parseFragment rt) (rangeOrder rt i) op (node :: nodes) Hty 0
                (number doc)) as Hdoc.
  destruct (applyToNodes _ _ _ _ _ _) as [pdoc' err]. cbn [fst] in *.
  subst pdoc'. apply erase_number.
Qed.



Lemma ApplyTransformations_doc rt doc operations :
  ar_doc (ApplyTransformations rt doc operations) = fst (applyFrom rt 0 doc operations).
Proof. unfold ApplyTransformations. destruct (applyFrom rt 0 doc operations). reflexivity. Qed.


(** Scenario 1 of the specification. *)
Example setText_scenario :
  ar_doc (ApplyTransformations plainRuntime
            (element "button" [("id", "cta")] [text "Get Started"])
            [mkOperation "setText" "#cta" "Buy Now" "" 0])
  = element "button" [("id", "cta")] [text "Buy Now"].
Proof. vm_compute. reflexivity. Qed.

(** Per-operation isolation: an operation whose selector finds nothing,
    one of an unknown type, then a valid one. *)
Example isolation_scenario :
  ApplyTransformations plainRuntime
    (element "div" nil [element "p" [("class", "x")] [text "a"]])
    [ mkOperation "setStyle" ".missing" "none" "display" 0;
      mkOperation "blink" "p" "" "" 0;
      mkOperation "setAttr" "p" "1" "data-x" 0 ]
  = mkApplyResult
      (element "div" nil [element "p" [("class", "x"); ("data-x", "1")] [text "a"]])
      [ (mkOperation "setStyle" ".missing" "none" "display" 0, ErrNoElements ".missing");
        (mkOperation "blink" "p" "" "" 0, ErrUnknownType "blink") ]
      None.
Proof. vm_compute. reflexivity. Qed.

(* --------------------------------------------------------------------- *)
(** ** White space at the ends of a string *)
(* --------------------------------------------------------------------- *)

Lemma append_cons c s t : String c s ++ t = String c (s ++ t).
Proof. reflexivity. Qed.

Lemma append_nil t : "" ++ t = t.
Proof. reflexivity. Qed.

Lemma sappend_assoc a b c : (a ++ b) ++ c = a ++ (b ++ c).
Proof. induction a as [|x a IH]; [reflexivity|]. rewrite !append_cons. now rewrite IH. Qed.

Lemma sappend_nil_r a : a ++ "" = a.
Proof. induction a as [|x a IH]; [reflexivity|]. rewrite append_cons. now rewrite IH. Qed.

(** Push the appends of a goal below the leading characters. *)
Ltac sapp := rewrite ?append_cons, ?append_nil.

Lemma lead_false_trimLeft s : lead s = false -> trimLeftSpace s = s.
Proof.
  destruct s as [|c1 [|c2 [|c3 s3]]]; cbn [lead trimLeftSpace]; try reflexivity.
  - rewrite orb_false_r. now intros ->.
  - rewrite orb_false_r. intros H. apply orb_false_elim in H as [-> ->]. reflexivity.
  - intros H. apply orb_false_elim in H as [-> H].
    apply orb_false_elim in H as [-> ->]. reflexivity.
Qed.

(** Induction along the recursion of [trimLeftSpace]. *)
Lemma trimLeft_induction (Q : string -> Prop) :
  (forall s, lead s = false -> Q s) ->
  (forall c1 s1, isSpace1 c1 = true -> Q s1 -> Q (String c1 s1)) ->
  (forall c1 c2 s2, isSpace1 c1 = false -> isSpace2 c1 c2 = true -> Q s2 ->
                    Q (String c1 (String c2 s2))) ->
  (forall c1 c2 c3 s3, isSpace1 c1 = false -> isSpace2 c1 c2 = false ->
                       isSpace3 c1 c2 c3 = true -> Q s3 ->
                       Q (String c1 (String c2 (String c3 s3)))) ->
  forall s, Q s.
Proof.
  intros H0 H1 H2 H3 s.
  remember (String.length s) as n eqn:Hn.
  assert (Hle : (String.length s <= n)%nat) by lia. clear Hn.
  revert s Hle. induction n as [|n IH]; intros s Hle.
  - destruct s; [|cbn in Hle; lia]. now apply H0.
  - destruct (lead s) eqn:Hl; [|now apply H0].
    destruct s as [|c1 s1]; [discriminate|]. cbn [String.length] in Hle.
    destruct (isSpace1 c1) eqn:E1; [apply H1; [assumption|apply IH; lia]|].
    destruct s1 as [|c2 s2]; [cbn in Hl; rewrite E1 in Hl; discriminate|].
    cbn [String.length] in Hle.
    destruct (isSpace2 c1 c2) eqn:E2; [apply H2; [assumption..|apply IH; lia]|].
    destruct s2 as [|c3 s3]; [cbn in Hl; rewrite E1, E2 in Hl; discriminate|].
    cbn [String.length] in Hle.
    cbn in Hl. rewrite E1, E2 in Hl. cbn in Hl.
    apply H3; [assumption..|apply IH; lia].
Qed.

Lemma trimLeftSpace_length s : (String.length (trimLeftSpace s) <= String.length s)%nat.
Proof.
  induction s as [s Hl|c1 s1 E1 IH|c1 c2 s2 E1 E2 IH|c1 c2 c3 s3 E1 E2 E3 IH]
    using trimLeft_induction.
  - now rewrite lead_false_trimLeft.
  - cbn [trimLeftSpace String.length]. rewrite E1. lia.
  - cbn [trimLeftSpace String.length]. rewrite E1, E2. lia.
  - cbn [trimLeftSpace String.length]. rewrite E1, E2, E3. lia.
Qed.

Lemma lead_trimLeftSpace s : lead (trimLeftSpace s) = false.
Proof.
  induction s as [s Hl|c1 s1 E1 IH|c1 c2 s2 E1 E2 IH|c1 c2 c3 s3 E1 E2 E3 IH]
    using trimLeft_induction.
  - now rewrite lead_false_trimLeft.
  - cbn [trimLeftSpace]. now rewrite E1.
  - cbn [trimLeftSpace]. now rewrite E1, E2.
  - cbn [trimLeftSpace]. now rewrite E1, E2, E3.
Qed.

Lemma runeStart_spec b :
  runeStart b = true -> (N_of_ascii b < 128 \/ 192 <= N_of_ascii b)%N.
Proof.
  unfold runeStart. intros H. apply orb_true_iff in H as [H|H];
    [left; now apply N.ltb_lt | right; now apply N.leb_le].
Qed.

Lemma isSpace2_second c1 b : runeStart b = true -> isSpace2 c1 b = false.
Proof.
  intros H. apply runeStart_spec in H. unfold isSpace2.
  destruct (N.eqb_spec (N_of_ascii b) 133); [lia|].
  destruct (N.eqb_spec (N_of_ascii b) 160); [lia|].
  now rewrite andb_false_r.
Qed.

Lemma isSpace3_second c1 b c3 : runeStart b = true -> isSpace3 c1 b c3 = false.
Proof.
  intros H. apply runeStart_spec in H. unfold isSpace3.
  destruct (N.eqb_spec (N_of_ascii b) 154); [lia|].
  destruct (N.eqb_spec (N_of_ascii b) 128); [lia|].
  destruct (N.eqb_spec (N_of_ascii b) 129); [lia|].
  now rewrite !andb_false_r.
Qed.

Lemma isSpace3_third c1 c2 b : runeStart b = true -> isSpace3 c1 c2 b = false.
Proof.
  intros H. apply runeStart_spec in H. unfold isSpace3.
  destruct (N.eqb_spec (N_of_ascii b) 128); [lia|].
  destruct (N.eqb_spec (N_of_ascii b) 159); [lia|].
  destruct (N.eqb_spec (N_of_ascii b) 168); [lia|].
  destruct (N.eqb_spec (N_of_ascii b) 169); [lia|].
  destruct (N.eqb_spec (N_of_ascii b) 175); [lia|].
  destruct (N.leb_spec 128 (N_of_ascii b)), (N.leb_spec (N_of_ascii b) 138);
    try lia; now rewrite ?andb_false_r.
Qed.

(** A string that does not start with a white-space rune still does not
    when it is followed by a byte that starts a rune. *)
Lemma lead_app_start k b r :
  lead k = false -> k <> "" -> runeStart b = true -> lead (k ++ String b r) = false.
Proof.
  intros Hl Hk Hb.
  destruct k as [|c1 [|c2 [|c3 k3]]]; [congruence| | |]; sapp; cbn [lead] in *.
  - rewrite orb_false_r in Hl. rewrite Hl, (isSpace2_second c1 b Hb). cbn [orb].
    destruct r; [reflexivity|]. now apply isSpace3_second.
  - rewrite orb_false_r in Hl. apply orb_false_elim in Hl as [-> ->]. cbn [orb].
    now apply isSpace3_third.
  - exact Hl.
Qed.

Lemma lead_app k z : lead k = true -> lead (k ++ z) = true.
Proof.
  destruct k as [|c1 [|c2 [|c3 k3]]]; sapp; cbn [lead]; try discriminate.
  - rewrite orb_false_r. now intros ->.
  - rewrite orb_false_r. intros H. apply orb_true_iff in H as [-> | ->]; [reflexivity|].
    destruct z; cbn; now rewrite orb_true_r.
  - trivial.
Qed.

Lemma allSpace_lead_false s : lead s = false -> allSpace s = match s with "" => true | _ => false end.
Proof. intros H. unfold allSpace. rewrite lead_false_trimLeft by assumption. reflexivity. Qed.

(** White-space runes in front of a string are trimmed with it. *)
Lemma trimLeftSpace_app a z : allSpace a = true -> trimLeftSpace (a ++ z) = trimLeftSpace z.
Proof.
  induction a as [a Hl|c1 s1 E1 IH|c1 c2 s2 E1 E2 IH|c1 c2 c3 s3 E1 E2 E3 IH]
    using trimLeft_induction; unfold allSpace; sapp; cbn [trimLeftSpace].
  - rewrite lead_false_trimLeft by assumption. destruct a; [reflexivity|discriminate].
  - rewrite E1. exact IH.
  - rewrite E1, E2. exact IH.
  - rewrite E1, E2, E3. exact IH.
Qed.

(** A byte that starts a rune separates the runes before it from those
    after. *)
Lemma allSpace_app_start a b r :
  runeStart b = true -> allSpace (a ++ String b r) = allSpace a && allSpace (String b r).
Proof.
  intros Hb.
  induction a as [a Hl|c1 s1 E1 IH|c1 c2 s2 E1 E2 IH|c1 c2 c3 s3 E1 E2 E3 IH]
    using trimLeft_induction.
  - destruct a as [|c a']; [reflexivity|].
    rewrite (allSpace_lead_false (String c a')) by assumption.
    rewrite allSpace_lead_false by (apply lead_app_start; [assumption|discriminate|assumption]).
    reflexivity.
  - unfold allSpace in *. sapp. cbn [trimLeftSpace]. rewrite E1. exact IH.
  - unfold allSpace in *. sapp. cbn [trimLeftSpace]. rewrite E1, E2. exact IH.
  - unfold allSpace in *. sapp. cbn [trimLeftSpace]. rewrite E1, E2, E3. exact IH.
Qed.

Lemma trimRightSpace_app_start a b r :
  runeStart b = true ->
  trimRightSpace (a ++ String b r)
  = if allSpace (String b r) then trimRightSpace a else a ++ trimRightSpace (String b r).
Proof.
  intros Hb. induction a as [|c a IH].
  - sapp. destruct (allSpace (String b r)) eqn:E; [|reflexivity].
    cbn [trimRightSpace]. now rewrite E.
  - set (t := trimRightSpace (String b r)) in *.
    rewrite append_cons. cbn [trimRightSpace]. rewrite <- append_cons.
    rewrite allSpace_app_start by assumption. rewrite IH.
    destruct (allSpace (String b r)).
    + now rewrite andb_true_r.
    + now rewrite andb_false_r.
Qed.

(** What [trimRightSpace] removes is made of white-space runes. *)
Lemma trimRightSpace_split s :
  exists w, s = trimRightSpace s ++ w /\ allSpace w = true.
Proof.
  induction s as [|c s (w & Hs & Hw)]; [now exists ""|].
  cbn [trimRightSpace]. destruct (allSpace (String c s)) eqn:E.
  - now exists (String c s).
  - exists w. split; [|assumption]. sapp. now rewrite <- Hs.
Qed.

Lemma allSpace_app a w : allSpace a = true -> allSpace (a ++ w) = allSpace w.
Proof. intros H. unfold allSpace. now rewrite trimLeftSpace_app. Qed.

Lemma trimRightSpace_idem s : trimRightSpace (trimRightSpace s) = trimRightSpace s.
Proof.
  induction s as [|c s IH]; [reflexivity|].
  cbn [trimRightSpace]. destruct (allSpace (String c s)) eqn:E; [reflexivity|].
  cbn [trimRightSpace]. rewrite IH.
  destruct (allSpace (String c (trimRightSpace s))) eqn:E'; [|reflexivity].
  destruct (trimRightSpace_split s) as (w & Hs & Hw).
  pose proof (allSpace_app (String c (trimRightSpace s)) w E') as H.
  rewrite append_cons, <- Hs, Hw in H. congruence.
Qed.

Lemma trimmed_TrimSpace s : trimmed s -> TrimSpace s = s.
Proof. intros [Hl Hr]. unfold TrimSpace. now rewrite lead_false_trimLeft. Qed.

Lemma TrimSpace_trimmed s : trimmed (TrimSpace s).
Proof.
  unfold TrimSpace. split; [|apply trimRightSpace_idem].
  destruct (trimRightSpace_split (trimLeftSpace s)) as (w & Hs & Hw).
  destruct (lead (trimRightSpace (trimLeftSpace s))) eqn:E; [|reflexivity].
  apply (lead_app _ w) in E. rewrite <- Hs, lead_trimLeftSpace in E. discriminate.
Qed.

Lemma TrimSpace_idem s : TrimSpace (TrimSpace s) = TrimSpace s.
Proof. apply trimmed_TrimSpace, TrimSpace_trimmed. Qed.

Lemma TrimSpace_fixed_trimmed s : TrimSpace s = s -> trimmed s.
Proof. intros H. rewrite <- H. apply TrimSpace_trimmed. Qed.

(** A sequence of white-space runes starts with a byte that starts a
    rune. *)
Lemma allSpace_runeStart b r : allSpace (String b r) = true -> runeStart b = true.
Proof.
  intros H. destruct (lead (String b r)) eqn:Hl.
  - cbn [lead] in Hl. unfold runeStart.
    destruct (isSpace1 b) eqn:E1.
    { unfold isSpace1 in E1.
      destruct (N.ltb_spec (N_of_ascii b) 128); [reflexivity|].
      destruct (N.leb_spec (N_of_ascii b) 13), (N.eqb_spec (N_of_ascii b) 32);
        try lia; rewrite ?andb_false_r in E1; discriminate. }
    destruct r as [|c2 r2]; [discriminate|]. cbn [orb] in Hl.
    destruct (isSpace2 b c2) eqn:E2.
    { unfold isSpace2 in E2. apply andb_prop in E2 as [E2 _]. apply N.eqb_eq in E2.
      now rewrite E2. }
    destruct r2 as [|c3 r3]; [discriminate|]. cbn [orb] in Hl.
    unfold isSpace3 in Hl.
    destruct (N.eqb_spec (N_of_ascii b) 225) as [->|]; [reflexivity|].
    destruct (N.eqb_spec (N_of_ascii b) 226) as [->|]; [reflexivity|].
    destruct (N.eqb_spec (N_of_ascii b) 227) as [->|]; [reflexivity|].
    discriminate.
  - rewrite allSpace_lead_false in H by assumption. discriminate.
Qed.

Lemma trimRightSpace_cons c s :
  allSpace (String c s) = false -> trimRightSpace (String c s) = String c (trimRightSpace s).
Proof. intros H. cbn [trimRightSpace]. now rewrite H. Qed.

(** White-space runes behind a string are trimmed with what it ends in. *)
Lemma trimRightSpace_app_allSpace a w :
  allSpace w = true -> trimRightSpace (a ++ w) = trimRightSpace a.
Proof.
  intros Hw. destruct w as [|b r]; [now rewrite sappend_nil_r|].
  rewrite trimRightSpace_app_start by (now apply (allSpace_runeStart b r)).
  now rewrite Hw.
Qed.

Lemma trimLeftSpace_app_allSpace u w :
  allSpace w = true ->
  trimLeftSpace (u ++ w) = if allSpace u then "" else trimLeftSpace u ++ w.
Proof.
  intros Hw.
  induction u as [u Hl|c1 s1 E1 IH|c1 c2 s2 E1 E2 IH|c1 c2 c3 s3 E1 E2 E3 IH]
    using trimLeft_induction.
  - rewrite (allSpace_lead_false u Hl). destruct u as [|c u'].
    + rewrite append_nil. unfold allSpace in Hw. now destruct (trimLeftSpace w).
    + rewrite (lead_false_trimLeft _ Hl). apply lead_false_trimLeft.
      destruct w as [|b r]; [now rewrite sappend_nil_r|].
      apply lead_app_start; [assumption|discriminate|now apply (allSpace_runeStart b r)].
  - unfold allSpace in *. sapp. cbn [trimLeftSpace]. rewrite E1. exact IH.
  - unfold allSpace in *. sapp. cbn [trimLeftSpace]. rewrite E1, E2. exact IH.
  - unfold allSpace in *. sapp. cbn [trimLeftSpace]. rewrite E1, E2, E3. exact IH.
Qed.

(** Trimming on the right first changes nothing. *)
Lemma TrimSpace_trimRightSpace x : TrimSpace (trimRightSpace x) = TrimSpace x.
Proof.
  destruct (trimRightSpace_split x) as (w & Hx & Hw).
  unfold TrimSpace. rewrite Hx at 2.
  rewrite trimLeftSpace_app_allSpace by assumption.
  destruct (allSpace (trimRightSpace x)) eqn:E.
  - unfold allSpace in E. now destruct (trimLeftSpace (trimRightSpace x)).
  - now rewrite trimRightSpace_app_allSpace.
Qed.

(* --------------------------------------------------------------------- *)
(** ** Splitting, and bytes that do not occur *)
(* --------------------------------------------------------------------- *)

Lemma noChar_app c a b : noChar c (a ++ b) = noChar c a && noChar c b.
Proof.
  induction a as [|d a IH]; [reflexivity|].
  rewrite append_cons. cbn [noChar]. rewrite IH. now rewrite andb_assoc.
Qed.

Lemma noChar_trimLeftSpace c s : noChar c s = true -> noChar c (trimLeftSpace s) = true.
Proof.
  induction s as [s Hl|c1 s1 E1 IH|c1 c2 s2 E1 E2 IH|c1 c2 c3 s3 E1 E2 E3 IH]
    using trimLeft_induction.
  - now rewrite lead_false_trimLeft.
  - cbn [trimLeftSpace noChar]. rewrite E1. intros H. apply andb_prop in H as [_ H]. auto.
  - cbn [trimLeftSpace noChar]. rewrite E1, E2. intros H.
    apply andb_prop in H as [_ H]. apply andb_prop in H as [_ H]. auto.
  - cbn [trimLeftSpace noChar]. rewrite E1, E2, E3. intros H.
    apply andb_prop in H as [_ H]. apply andb_prop in H as [_ H].
    apply andb_prop in H as [_ H]. auto.
Qed.

Lemma noChar_trimRightSpace c s : noChar c s = true -> noChar c (trimRightSpace s) = true.
Proof.
  induction s as [|d s IH]; [reflexivity|].
  cbn [trimRightSpace]. destruct (allSpace (String d s)); [reflexivity|].
  cbn [noChar]. intros H. apply andb_prop in H as [-> H]. cbn. auto.
Qed.

Lemma noChar_TrimSpace c s : noChar c s = true -> noChar c (TrimSpace s) = true.
Proof. intros H. unfold TrimSpace. now apply noChar_trimRightSpace, noChar_trimLeftSpace. Qed.

Lemma Split_noChar sep a : noChar sep a = true -> Split a sep = [a].
Proof.
  induction a as [|c a IH]; [reflexivity|].
  cbn [noChar Split]. intros H. apply andb_prop in H as [Hc H].
  apply negb_true_iff in Hc. rewrite Hc, (IH H). reflexivity.
Qed.

Lemma Split_app sep a b :
  noChar sep a = true -> Split (a ++ String sep b) sep = a :: Split b sep.
Proof.
  induction a as [|c a IH]; intros H.
  - rewrite append_nil. cbn [Split]. now rewrite Ascii.eqb_refl.
  - cbn [noChar] in H. apply andb_prop in H as [Hc H]. apply negb_true_iff in Hc.
    rewrite append_cons. cbn [Split]. rewrite Hc, (IH H). reflexivity.
Qed.

Lemma Split_pieces sep s : List.Forall (fun p => noChar sep p = true) (Split s sep).
Proof.
  induction s as [|c s IH]; cbn [Split]; [repeat constructor|].
  destruct (Ascii.eqb c sep) eqn:Hc; [constructor; [reflexivity|assumption]|].
  destruct (Split s sep) as [|p ps]; [repeat constructor; cbn; now rewrite Hc|].
  inversion IH as [|? ? Hp Hps]; subst.
  constructor; [cbn [noChar]; now rewrite Hc, Hp|assumption].
Qed.

Lemma SplitN2_app sep k r :
  noChar sep k = true -> SplitN2 (k ++ String sep r) sep = [k; r].
Proof.
  induction k as [|c k IH]; intros H.
  - rewrite append_nil. cbn [SplitN2]. now rewrite Ascii.eqb_refl.
  - cbn [noChar] in H. apply andb_prop in H as [Hc H]. apply negb_true_iff in Hc.
    rewrite append_cons. cbn [SplitN2]. rewrite Hc, (IH H). reflexivity.
Qed.

(** A cut in two: the first piece has no separator, and the string is the
    two pieces around one. *)
Lemma SplitN2_two sep s k v :
  SplitN2 s sep = [k; v] -> noChar sep k = true /\ s = k ++ String sep v.
Proof.
  revert k. induction s as [|c s IH]; intros k; cbn [SplitN2]; [discriminate|].
  destruct (Ascii.eqb_spec c sep) as [->|Hc].
  - intros [= <- <-]. split; reflexivity.
  - destruct (SplitN2 s sep) as [|p [|q [|? ?]]] eqn:E; try discriminate.
    intros [= <- <-]. destruct (IH p eq_refl) as [Hp ->].
    split; [|reflexivity]. cbn [noChar]. rewrite Hp.
    destruct (Ascii.eqb_spec c sep); [contradiction|reflexivity].
Qed.

(* --------------------------------------------------------------------- *)
(** ** The style attribute: reading back what was written *)
(* --------------------------------------------------------------------- *)

Lemma cleanKey_spec k :
  cleanKey k = true -> trimmed k /\ noChar ";" k = true /\ noChar ":" k = true.
Proof.
  unfold cleanKey. intros H. apply andb_prop in H as [H H3]. apply andb_prop in H as [H1 H2].
  apply String.eqb_eq in H1. auto using TrimSpace_fixed_trimmed.
Qed.

Lemma cleanVal_spec v : cleanVal v = true -> trimmed v /\ noChar ";" v = true.
Proof.
  unfold cleanVal. intros H. apply andb_prop in H as [H1 H2].
  apply String.eqb_eq in H1. auto using TrimSpace_fixed_trimmed.
Qed.

Lemma cleanKey_TrimSpace k :
  noChar ";" k = true -> noChar ":" k = true -> cleanKey (TrimSpace k) = true.
Proof.
  intros H1 H2. unfold cleanKey.
  rewrite TrimSpace_idem, String.eqb_refl, !noChar_TrimSpace by assumption. reflexivity.
Qed.

Lemma cleanVal_TrimSpace v : noChar ";" v = true -> cleanVal (TrimSpace v) = true.
Proof.
  intros H. unfold cleanVal.
  rewrite TrimSpace_idem, String.eqb_refl, noChar_TrimSpace by assumption. reflexivity.
Qed.

Lemma TrimSpace_space s : TrimSpace (String " " s) = TrimSpace s.
Proof. reflexivity. Qed.

Lemma cleanEntry_writable kv : cleanEntry kv -> writable kv.
Proof. intros [Hk Hv]. apply cleanVal_spec in Hv as [_ Hv]. now split. Qed.

(** A declaration as written by [setStyle], trimmed. *)
Lemma TrimSpace_decl k v :
  trimmed k -> TrimSpace (k ++ ": " ++ v) = k ++ String ":" (trimRightSpace (String " " v)).
Proof.
  intros [Hkl Hkr]. unfold TrimSpace.
  change (": " ++ v) with (String ":" (String " " v)).
  assert (Hl : lead (k ++ String ":" (String " " v)) = false).
  { destruct k as [|c k]; [destruct v; reflexivity|].
    apply lead_app_start; [assumption|discriminate|reflexivity]. }
  rewrite (lead_false_trimLeft _ Hl).
  rewrite trimRightSpace_app_start by reflexivity.
  assert (H1 : allSpace (String ":" (String " " v)) = false) by (destruct v; reflexivity).
  rewrite H1. now rewrite trimRightSpace_cons.
Qed.

(** The loop body of [setStyle] reads a written declaration back, the
    value trimmed. *)
Lemma styleStep_decl styles k v :
  writable (k, v) -> styleStep styles (k ++ ": " ++ v) = <[k := TrimSpace v]> styles.
Proof.
  intros [Hk Hv]. cbn [fst snd] in *.
  apply cleanKey_spec in Hk as (Hkt & _ & Hkc).
  unfold styleStep. rewrite TrimSpace_decl by assumption.
  assert (Hne : String.eqb (k ++ String ":" (trimRightSpace (String " " v))) "" = false).
  { destruct k; reflexivity. }
  rewrite Hne, SplitN2_app by assumption.
  now rewrite (trimmed_TrimSpace k Hkt), TrimSpace_trimRightSpace, TrimSpace_space.
Qed.

Lemma styleStep_space styles part : styleStep styles (String " " part) = styleStep styles part.
Proof. unfold styleStep. now rewrite TrimSpace_space. Qed.

(** The loop body of [setStyle] only ever stores clean entries. *)
Lemma styleStep_clean (styles : gmap string string) part :
  noChar ";" part = true ->
  map_Forall (fun k v => cleanEntry (k, v)) styles ->
  map_Forall (fun k v => cleanEntry (k, v)) (styleStep styles part).
Proof.
  intros Hp Hm. unfold styleStep.
  destruct (String.eqb (TrimSpace part) ""); [assumption|].
  destruct (SplitN2 (TrimSpace part) ":") as [|k [|v [|? ?]]] eqn:E; try assumption.
  apply SplitN2_two in E as [Hk Hs].
  pose proof (noChar_TrimSpace ";" part Hp) as Hsemi.
  rewrite Hs, noChar_app in Hsemi. apply andb_prop in Hsemi as [Hk' Hv'].
  cbn [noChar] in Hv'. apply andb_prop in Hv' as [_ Hv'].
  apply map_Forall_insert_2; [|assumption].
  split; cbn [fst snd]; [now apply cleanKey_TrimSpace | now apply cleanVal_TrimSpace].
Qed.

Lemma parseStyles_clean val : map_Forall (fun k v => cleanEntry (k, v)) (parseStyles val).
Proof.
  unfold parseStyles.
  assert (H : forall parts (m : gmap string string),
             List.Forall (fun p => noChar ";" p = true) parts ->
             map_Forall (fun k v => cleanEntry (k, v)) m ->
             map_Forall (fun k v => cleanEntry (k, v)) (List.fold_left styleStep parts m)).
  { induction parts as [|p parts IH]; intros m Hparts Hm; [assumption|].
    inversion Hparts; subst. cbn [List.fold_left]. apply IH; [assumption|].
    now apply styleStep_clean. }
  apply H; [apply Split_pieces | apply map_Forall_empty].
Qed.

Lemma decl_nonempty kv : decl kv <> "".
Proof. unfold decl. destruct (fst kv); discriminate. Qed.

Lemma buildStep_nonempty acc kv :
  acc <> "" -> buildStep acc kv = acc ++ String ";" (String " " (decl kv)).
Proof.
  intros H. unfold buildStep, decl. destruct acc as [|c acc]; [congruence|].
  cbn [String.length Nat.ltb Nat.leb]. now rewrite sappend_assoc.
Qed.

Lemma fold_buildStep l :
  forall acc, acc <> "" -> List.fold_left buildStep l acc = acc ++ tailDecls l.
Proof.
  induction l as [|kv l IH]; intros acc Hacc; cbn [List.fold_left tailDecls List.fold_right].
  - now rewrite sappend_nil_r.
  - rewrite IH.
    + rewrite buildStep_nonempty by assumption. rewrite sappend_assoc.
      rewrite !append_cons. reflexivity.
    + rewrite buildStep_nonempty by assumption. destruct acc; [congruence|discriminate].
Qed.

Lemma buildStyle_cons kv l : buildStyle (kv :: l) = decl kv ++ tailDecls l.
Proof.
  unfold buildStyle. cbn [List.fold_left].
  assert (H : buildStep "" kv = decl kv) by reflexivity.
  rewrite H. apply fold_buildStep, decl_nonempty.
Qed.

Lemma writable_decl kv : writable kv -> noChar ";" (String " " (decl kv)) = true.
Proof.
  intros [Hk Hv]. apply cleanKey_spec in Hk as (_ & Hk & _).
  unfold decl. cbn [noChar]. rewrite noChar_app, Hk.
  change (": " ++ snd kv) with (String ":" (String " " (snd kv))). cbn [noChar]. now rewrite Hv.
Qed.

Lemma Split_tailDecls l :
  List.Forall writable l ->
  forall pre, noChar ";" pre = true ->
    Split (pre ++ tailDecls l) ";" = pre :: List.map (fun kv => String " " (decl kv)) l.
Proof.
  induction 1 as [|kv l Hkv _ IH]; intros pre Hpre; cbn [tailDecls List.fold_right List.map].
  - rewrite sappend_nil_r. now apply Split_noChar.
  - rewrite Split_app by assumption. f_equal.
    rewrite <- append_cons. apply IH. now apply writable_decl.
Qed.

Lemma styleStep_readBack styles kv :
  writable kv -> styleStep styles (decl kv) = readBack styles kv.
Proof. destruct kv as [k v]. apply styleStep_decl. Qed.

Lemma fold_styleStep_tail l :
  List.Forall writable l ->
  forall m, List.fold_left styleStep (List.map (fun kv => String " " (decl kv)) l) m
            = List.fold_left readBack l m.
Proof.
  induction 1 as [|kv l Hkv _ IH]; intros m; cbn [List.map List.fold_left]; [reflexivity|].
  rewrite styleStep_space, styleStep_readBack by assumption. apply IH.
Qed.

(** Reading back the string built from writable entries inserts them one
    by one, in the order in which they were written. *)
Lemma parseStyles_buildStyle l :
  List.Forall writable l -> parseStyles (buildStyle l) = List.fold_left readBack l ∅.
Proof.
  intros Hl. destruct Hl as [|[k v] l Hkv Hl]; [reflexivity|].
  unfold parseStyles. rewrite buildStyle_cons.
  assert (Hpre : noChar ";" (decl (k, v)) = true).
  { pose proof (writable_decl _ Hkv) as H. cbn [noChar] in H. exact H. }
  rewrite (Split_tailDecls l Hl _ Hpre). cbn [List.fold_left].
  rewrite styleStep_readBack by assumption.
  now rewrite fold_styleStep_tail.
Qed.

Lemma fold_readBack (l : list (string * string)) :
  NoDup (l.*1) -> List.fold_left readBack l ∅ = TrimSpace <$> (list_to_map l : gmap string string).
Proof.
  induction l as [|[k v] l IH] using rev_ind; intros Hnd.
  - cbn. now rewrite fmap_empty.
  - rewrite List.fold_left_app. cbn [List.fold_left]. unfold readBack at 1. cbn [fst snd].
    rewrite fmap_app in Hnd. apply NoDup_app in Hnd as (Hl & Hk & _).
    rewrite IH by assumption. rewrite list_to_map_snoc, fmap_insert; [reflexivity|].
    intros Hin. apply (Hk k Hin). cbn. left.
Qed.

(** The map read back from the string that a [range] loop wrote is the
    map that the loop ranged over, its values trimmed. *)
Lemma parseStyles_roundtrip (order : RangeOrder) (m : gmap string string) :
  order (map_to_list m) ≡ₚ map_to_list m ->
  map_Forall (fun k v => writable (k, v)) m ->
  parseStyles (buildStyle (order (map_to_list m))) = TrimSpace <$> m.
Proof.
  intros Hperm Hclean.
  assert (Hall : List.Forall writable (order (map_to_list m))).
  { apply (Permutation_Forall (Permutation_sym Hperm)).
    apply map_Forall_to_list in Hclean.
    eapply List.Forall_impl; [|exact Hclean]. now intros [k v]. }
  assert (Hnd : NoDup ((order (map_to_list m)).*1)).
  { rewrite Hperm. apply NoDup_fst_map_to_list. }
  rewrite parseStyles_buildStyle, fold_readBack by assumption.
  rewrite (list_to_map_proper _ _ Hnd Hperm). now rewrite list_to_map_to_list.
Qed.

(** Trimming the values of a map of clean entries changes nothing. *)
Lemma fmap_TrimSpace_clean (m : gmap string string) :
  map_Forall (fun k v => cleanEntry (k, v)) m -> TrimSpace <$> m = m.
Proof.
  intros Hm. apply map_eq. intros k. rewrite lookup_fmap.
  destruct (m !! k) as [v|] eqn:E; [|reflexivity]. cbn. f_equal.
  destruct (Hm k v E) as [_ Hv]. apply cleanVal_spec in Hv as [Hv _].
  now apply trimmed_TrimSpace.
Qed.

(* --------------------------------------------------------------------- *)
(** ** Attribute lists *)
(* --------------------------------------------------------------------- *)

Lemma lookupAttr_updateAttr key v attrs :
  lookupAttr key (updateAttr key v attrs)
  = match lookupAttr key attrs with Some _ => Some v | None => None end.
Proof.
  induction attrs as [|a attrs IH]; [reflexivity|].
  cbn [updateAttr lookupAttr]. destruct (String.eqb (Key a) key) eqn:E; cbn [lookupAttr Key Val].
  - now rewrite E.
  - now rewrite E, IH.
Qed.

Lemma lookupAttr_app_new key ns v attrs :
  lookupAttr key attrs = None -> lookupAttr key (attrs ++ [mkAttr ns key v])%list = Some v.
Proof.
  induction attrs as [|a attrs IH]; cbn [lookupAttr app Key Val].
  - now rewrite String.eqb_refl.
  - destruct (String.eqb (Key a) key); [discriminate|exact IH].
Qed.

Lemma updateAttr_updateAttr key v1 v2 attrs :
  updateAttr key v2 (updateAttr key v1 attrs) = updateAttr key v2 attrs.
Proof.
  induction attrs as [|a attrs IH]; [reflexivity|].
  cbn [updateAttr]. destruct (String.eqb (Key a) key) eqn:E; cbn [updateAttr Key Namespace].
  - now rewrite E.
  - now rewrite E, IH.
Qed.

Lemma updateAttr_app_new key ns v1 v2 attrs :
  lookupAttr key attrs = None ->
  updateAttr key v2 (attrs ++ [mkAttr ns key v1])%list = (attrs ++ [mkAttr ns key v2])%list.
Proof.
  induction attrs as [|a attrs IH]; cbn [lookupAttr app updateAttr Key Namespace].
  - now rewrite String.eqb_refl.
  - destruct (String.eqb (Key a) key); [discriminate|]. intros H. now rewrite IH.
Qed.

Lemma countKey_updateAttr key v attrs :
  countKey key (updateAttr key v attrs) = countKey key attrs.
Proof.
  unfold countKey. induction attrs as [|a attrs IH]; [reflexivity|].
  cbn [updateAttr List.filter]. destruct (String.eqb (Key a) key) eqn:E;
    cbn [List.filter Key]; rewrite E; cbn [List.length]; congruence.
Qed.

Lemma countKey_app key attrs1 attrs2 :
  countKey key (attrs1 ++ attrs2)%list = (countKey key attrs1 + countKey key attrs2)%nat.
Proof. unfold countKey. now rewrite List.filter_app, List.length_app. Qed.

Lemma countKey_lookupAttr key attrs :
  match lookupAttr key attrs with
  | Some _ => (1 <= countKey key attrs)%nat
  | None => countKey key attrs = 0%nat
  end.
Proof.
  unfold countKey. induction attrs as [|a attrs IH]; [reflexivity|].
  cbn [lookupAttr List.filter]. destruct (String.eqb (Key a) key); [cbn; lia|exact IH].
Qed.

(* --------------------------------------------------------------------- *)
(** ** Re-applying a node operation *)
(* --------------------------------------------------------------------- *)

Lemma setText_again {P} `{Inhabited P} (n : NodeOf P) text :
  setText (setText n text) text = setText n text.
Proof. reflexivity. Qed.

Lemma setAttr_again {P} (n : NodeOf P) key value :
  setAttr (setAttr n key value) key value = setAttr n key value.
Proof.
  unfold setAttr. destruct (isElement n) eqn:E; cbn [negb]; [|now rewrite E].
  destruct (lookupAttr key (Attr n)) eqn:EL.
  - unfold isElement in *. cbn [Type_ Attr Ptr Data Children]. rewrite E. cbn [negb].
    now rewrite lookupAttr_updateAttr, EL, updateAttr_updateAttr.
  - unfold isElement in *. cbn [Type_ Attr Ptr Data Children]. rewrite E. cbn [negb].
    now rewrite lookupAttr_app_new, updateAttr_app_new by assumption.
Qed.

Lemma setAttr_count {P} (n : NodeOf P) key value :
  countKey key (Attr (setAttr n key value))
  = if isElement n then Nat.max 1 (countKey key (Attr n)) else countKey key (Attr n).
Proof.
  unfold setAttr. destruct (isElement n); cbn [negb]; [|reflexivity].
  pose proof (countKey_lookupAttr key (Attr n)) as Hc.
  destruct (lookupAttr key (Attr n)); cbn [Attr].
  - rewrite countKey_updateAttr. lia.
  - rewrite countKey_app, Hc. unfold countKey. cbn [List.filter Key].
    now rewrite String.eqb_refl.
Qed.

Lemma updateStyle_writable property value (m : gmap string string) :
  cleanKey property = true -> noChar ";" value = true ->
  map_Forall (fun k v => cleanEntry (k, v)) m ->
  map_Forall (fun k v => writable (k, v)) (updateStyle property value m).
Proof.
  intros Hk Hv Hm.
  assert (Hw : map_Forall (fun k v => writable (k, v)) m).
  { intros k v E. apply cleanEntry_writable. now apply Hm. }
  unfold updateStyle. destruct (String.eqb value "").
  - now apply map_Forall_delete.
  - apply map_Forall_insert_2; [split; assumption|assumption].
Qed.

(** Updating the map read back from what [setStyle] wrote gives the map
    that [setStyle] wrote. *)
Lemma updateStyle_readBack property value (m : gmap string string) :
  map_Forall (fun k v => cleanEntry (k, v)) m ->
  updateStyle property value (TrimSpace <$> updateStyle property value m)
  = updateStyle property value m.
Proof.
  intros Hm. unfold updateStyle. destruct (String.eqb value "").
  - rewrite fmap_TrimSpace_clean by (now apply map_Forall_delete).
    apply delete_delete_eq.
  - rewrite fmap_insert, fmap_TrimSpace_clean by assumption.
    apply insert_insert_eq.
Qed.

Lemma stylesOf_clean {P} (n : NodeOf P) : map_Forall (fun k v => cleanEntry (k, v)) (stylesOf n).
Proof.
  unfold stylesOf. destruct (lookupAttr "style" (Attr n)); [apply parseStyles_clean|].
  apply map_Forall_empty.
Qed.

(** The style attribute that [setStyle] leaves on an element. *)
Lemma setStyle_style {P} (order : RangeOrder) (n : NodeOf P) property value :
  isElement n = true ->
  lookupAttr "style" (Attr (setStyle order n property value))
  = Some (buildStyle (order (map_to_list (updateStyle property value (stylesOf n))))).
Proof.
  intros E. unfold setStyle. rewrite E. cbn [negb].
  destruct (lookupAttr "style" (Attr n)) eqn:EL; cbn [Attr].
  - now rewrite lookupAttr_updateAttr, EL.
  - now rewrite lookupAttr_app_new.
Qed.

Lemma setStyle_isElement {P} (order : RangeOrder) (n : NodeOf P) property value :
  isElement (setStyle order n property value) = isElement n.
Proof.
  unfold setStyle. destruct (isElement n) eqn:E; cbn [negb]; [|exact E].
  destruct (lookupAttr "style" (Attr n)); exact E.
Qed.

(** The map read from an element after [setStyle] is the updated map, its
    values trimmed. *)
Lemma stylesOf_setStyle {P} (order : RangeOrder) (n : NodeOf P) property value :
  validOrder order -> cleanKey property = true -> noChar ";" value = true ->
  isElement n = true ->
  stylesOf (setStyle order n property value)
  = TrimSpace <$> updateStyle property value (stylesOf n).
Proof.
  intros Ho Hk Hv E. unfold stylesOf at 1. rewrite setStyle_style by assumption.
  apply parseStyles_roundtrip; [apply Ho|].
  apply updateStyle_writable; [assumption..|apply stylesOf_clean].
Qed.

(** Applying [setStyle] again gives what one application gives under the
    order of the second [range] loop. *)
Lemma setStyle_again {P} (o1 o2 : RangeOrder) (n : NodeOf P) property value :
  validOrder o1 -> cleanKey property = true -> noChar ";" value = true ->
  setStyle o2 (setStyle o1 n property value) property value = setStyle o2 n property value.
Proof.
  intros Ho Hk Hv. destruct (isElement n) eqn:E.
  - unfold setStyle at 1. rewrite setStyle_isElement, E. cbn [negb].
    rewrite stylesOf_setStyle by assumption.
    rewrite updateStyle_readBack by apply stylesOf_clean.
    rewrite setStyle_style by assumption.
    unfold setStyle. rewrite E. cbn [negb].
    destruct (lookupAttr "style" (Attr n)) eqn:EL; cbn [Ptr Type_ Data Attr Children].
    + now rewrite updateAttr_updateAttr.
    + now rewrite updateAttr_app_new.
  - unfold setStyle. rewrite E. cbn [negb]. now rewrite E.
Qed.

Lemma filter_key_unique (l : list (string * string)) k v :
  NoDup (l.*1) -> (k, v) ∈ l ->
  List.filter (fun kv => String.eqb (fst kv) k) l = [(k, v)].
Proof.
  induction l as [|[k' v'] l IH]; intros Hnd Hin; [now apply elem_of_nil in Hin|].
  cbn [fmap list_fmap fst] in Hnd. apply NoDup_cons in Hnd as [Hk' Hnd].
  cbn [List.filter fst]. apply elem_of_cons in Hin as [[= <- <-]|Hin].
  - rewrite String.eqb_refl. f_equal.
    clear IH Hnd. induction l as [|[k2 v2] l IH]; [reflexivity|].
    cbn [List.filter fst]. destruct (String.eqb_spec k2 k) as [->|_].
    + exfalso. apply Hk'. cbn. left.
    + apply IH. intros Hin. apply Hk'. cbn. now right.
  - destruct (String.eqb_spec k' k) as [->|_]; [|now apply IH].
    exfalso. apply Hk'. apply (list_elem_of_fmap_2 fst) in Hin. exact Hin.
Qed.

(** After [setStyle] with a value, the entries written hold the property
    exactly once, with that value. *)
Lemma setStyle_declared (order : RangeOrder) (m : gmap string string) property value :
  validOrder order -> String.eqb value "" = false ->
  List.filter (fun kv => String.eqb (fst kv) property)
              (order (map_to_list (updateStyle property value m)))
  = [(property, value)].
Proof.
  intros Ho Hv. unfold updateStyle. rewrite Hv.
  apply filter_key_unique.
  - rewrite (Ho _). apply NoDup_fst_map_to_list.
  - rewrite (Ho _). apply elem_of_map_to_list. apply lookup_insert_eq.
Qed.

(** C4, as stated, fails for [setStyle].  The order of a [range] loop over
    the style map is not fixed: on an element with two declarations a
    first application may write "color: red; margin: 0; padding: 0" and a
    second one "padding: 0; margin: 0; color: red".  And whatever the
    order, a value that holds a semicolon is read back as several
    declarations ("color: red; background: blue" becomes
    "color: red; background: blue; background: blue" the second time), and
    so is a property with white space around it or with a colon. *)
Lemma C4_counterexample :
  let same : RangeOrder := fun l => l in
  let n : Node := element "p" [("style", "margin: 0; padding: 0")] [] in
  let once := setStyle same n "color" "red" in
  let twice := setStyle (@List.rev _) once "color" "red" in
  let p : Node := element "p" [] [] in
  let v := "red; background: blue" in
  validOrder same /\ validOrder (@List.rev _)
  /\ once = element "p" [("style", "color: red; margin: 0; padding: 0")] []
  /\ twice = element "p" [("style", "padding: 0; margin: 0; color: red")] []
  /\ setStyle same p "color" v = element "p" [("style", "color: red; background: blue")] []
  /\ setStyle same (setStyle same p "color" v) "color" v
     = element "p" [("style", "color: red; background: blue; background: blue")] []
  /\ setStyle same p " color" "red" = element "p" [("style", " color: red")] []
  /\ setStyle same (setStyle same p " color" "red") " color" "red"
     = element "p" [("style", "color: red;  color: red")] []
  /\ setStyle same p "a:b" "c" = element "p" [("style", "a:b: c")] []
  /\ setStyle same (setStyle same p "a:b" "c") "a:b" "c"
     = element "p" [("style", "a:b: c; a: b: c")] [].
Proof.
  cbv zeta. split; [intros l; reflexivity|].
  split; [intros l; symmetry; apply Permutation_rev|].
  vm_compute. repeat split; reflexivity.
Qed.

(** C4 (amended).  Re-applying [setText] or [setAttr] to a node with the
    same arguments leaves the node as one application does, and after
    [setAttr] an element has as many attributes of that name as before, or
    one if it had none.  For [setStyle] with a property free of white
    space at its ends, semicolons and colons, and a value free of
    semicolons (hence for [hide] and [show]), a second application leaves
    the node that one application leaves under the order of the second
    [range] loop: the same declarations, each property once, in an order
    that the map iteration decides (the same string when both loops use
    the same order); and with a non-empty value the style attribute holds
    the property exactly once, with that value. *)
Theorem C4_reapplication {P} `{Inhabited P} (o1 o2 : RangeOrder) (n : NodeOf P)
    (text key val property value : string) :
  validOrder o1 -> validOrder o2 -> cleanKey property = true -> noChar ";" value = true ->
  setText (setText n text) text = setText n text
  /\ setAttr (setAttr n key val) key val = setAttr n key val
  /\ countKey key (Attr (setAttr (setAttr n key val) key val))
     = (if isElement n then Nat.max 1 (countKey key (Attr n)) else countKey key (Attr n))
  /\ setStyle o2 (setStyle o1 n property value) property value = setStyle o2 n property value
  /\ setStyle o2 (setStyle o1 n "display" "none") "display" "none" = setStyle o2 n "display" "none"
  /\ setStyle o2 (setStyle o1 n "display" "") "display" "" = setStyle o2 n "display" ""
  /\ (if isElement n && negb (String.eqb value "")
      then exists entries,
          lookupAttr "style" (Attr (setStyle o2 (setStyle o1 n property value) property value))
          = Some (buildStyle entries)
          /\ entries ≡ₚ map_to_list (updateStyle property value (stylesOf n))
          /\ List.filter (fun kv => String.eqb (fst kv) property) entries = [(property, value)]
      else True).
Proof.
  intros Ho1 Ho2 Hk Hv.
  split; [apply setText_again|].
  split; [apply setAttr_again|].
  split; [rewrite setAttr_again; apply setAttr_count|].
  split; [now apply setStyle_again|].
  split; [now apply setStyle_again|].
  split; [now apply setStyle_again|].
  destruct (isElement n) eqn:E; [|exact I].
  destruct (String.eqb value "") eqn:Hne; [exact I|]. cbn [andb negb].
  exists (o2 (map_to_list (updateStyle property value (stylesOf n)))).
  rewrite setStyle_again by assumption.
  split; [now apply setStyle_style|].
  split; [apply Ho2|]. now apply setStyle_declared.
Qed.

Lemma C4_witness :
  let n : Node := element "p" [("style", "margin: 0")] [] in
  setStyle (fun l => l) (setStyle (@List.rev _) n "color" "red") "color" "red"
  = element "p" [("style", "color: red; margin: 0")] []
  /\ setAttr (setAttr n "data-x" "1") "data-x" "1"
     = element "p" [("style", "margin: 0"); ("data-x", "1")] [].
Proof.
  cbv zeta.
  pose proof (C4_reapplication (@List.rev _) (fun l => l)
                (element "p" [("style", "margin: 0")] [] : Node)
                "Buy Now" "data-x" "1" "color" "red"
                (fun l => Permutation_sym (Permutation_rev l))
                (fun l => Permutation_refl l) eq_refl eq_refl) as (_ & Hattr & _ & Hstyle & _).
  split.
  - rewrite Hstyle. vm_compute. reflexivity.
  - rewrite Hattr. vm_compute. reflexivity.
Defined.

(* --------------------------------------------------------------------- *)
(** ** Response headers *)
(* --------------------------------------------------------------------- *)

Import GoHTTP.

(** Two header names with different canonical forms. *)
Ltac canon_ne := let H := fresh in intros H; vm_compute in H; discriminate H.

Lemma Get_Set_eq (h : HeaderMap) key value : Get (Set_ h key value) key = value.
Proof. unfold Get, Set_. now rewrite lookup_insert_eq. Qed.

Lemma lookup_Set_ne (h : HeaderMap) key value k :
  CanonicalMIMEHeaderKey key <> k -> Set_ h key value !! k = h !! k.
Proof. intros Hne. unfold Set_. now rewrite lookup_insert_ne. Qed.

Lemma lookup_Add_ne (h : HeaderMap) key value k :
  CanonicalMIMEHeaderKey key <> k -> Add h key value !! k = h !! k.
Proof. intros Hne. unfold Add. now rewrite lookup_insert_ne. Qed.

Lemma Get_Set_ne (h : HeaderMap) key value key' :
  CanonicalMIMEHeaderKey key <> CanonicalMIMEHeaderKey key' ->
  Get (Set_ h key value) key' = Get h key'.
Proof. intros Hne. unfold Get. now rewrite lookup_Set_ne. Qed.

(** The four headers that [addHeaders] writes; the body, the length and
    the other fields stay. *)
Lemma addHeaders_spec w resp experimentID variantKey status :
  let resp' := addHeaders w resp experimentID variantKey status in
  Get (Header resp') "X-EF-Experiment" = experimentID
  /\ Get (Header resp') "X-EF-Variant" = variantKey
  /\ Get (Header resp') "X-EF-Transform" = status
  /\ Get (Header resp') "X-EF-Timing" = "total=" ++ Itoa (elapsedMs w experimentID) ++ "ms"
  /\ ResponseBody resp' = ResponseBody resp
  /\ ContentLength resp' = ContentLength resp.
Proof.
  cbv zeta. unfold addHeaders. cbn [Header ResponseBody ContentLength].
  repeat split.
  - rewrite !Get_Set_ne by canon_ne. apply Get_Set_eq.
  - rewrite !Get_Set_ne by canon_ne. apply Get_Set_eq.
  - rewrite !Get_Set_ne by canon_ne. apply Get_Set_eq.
  - apply Get_Set_eq.
Qed.

Lemma addHeaders_other w resp experimentID variantKey status k :
  k <> "X-Ef-Experiment" -> k <> "X-Ef-Variant" -> k <> "X-Ef-Transform" -> k <> "X-Ef-Timing" ->
  Header (addHeaders w resp experimentID variantKey status) !! k = Header resp !! k.
Proof.
  intros H1 H2 H3 H4. unfold addHeaders. cbn [Header].
  rewrite !lookup_Set_ne; [reflexivity|..]; vm_compute; congruence.
Qed.

(* --------------------------------------------------------------------- *)
(** ** One attempt *)
(* --------------------------------------------------------------------- *)

(** What [transformBody] leaves: on success the four headers of a hit; on
    failure the headers of the response as they were; the Set-Cookie field
    is never touched. *)
Lemma transformBody_spec w experimentID variantKey operations resp :
  let r := transformBody w experimentID variantKey operations resp in
  Header (fst r) !! "Set-Cookie" = Header resp !! "Set-Cookie"
  /\ match snd r with
     | None => Get (Header (fst r)) "X-EF-Variant" = variantKey
               /\ Get (Header (fst r)) "X-EF-Transform" = "hit"
     | Some _ => Header (fst r) = Header resp
     end.
Proof.
  cbv zeta. unfold transformBody.
  destruct (ReadAll (ResponseBody resp)) as [[body|] stream]; cbn [fst snd Header]; [|auto].
  destruct (parseHTML w body) as [doc|]; cbn [fst snd Header]; [|auto].
  destruct (ar_err _); cbn [fst snd Header]; [auto|].
  destruct (renderHTML w _) as [transformed|]; cbn [fst snd Header]; [|auto].
  split.
  - rewrite addHeaders_other by discriminate. cbn [Header].
    now rewrite lookup_Set_ne by canon_ne.
  - pose proof (addHeaders_spec w
      (mkResponse (Set_ (Header resp) "Content-Length" (Itoa (Z.of_nat (String.length transformed))))
         (NewBody transformed) (Z.of_nat (String.length transformed)))
      experimentID variantKey "hit") as (_ & Hv & Ht & _).
    auto.
Qed.

Lemma applyExperiment_calls w m resp req experimentID calls :
  o_calls (applyExperiment w m resp req experimentID calls)
  = (calls ++ attemptCalls w m req experimentID)%list.
Proof.
  unfold applyExperiment, attemptCalls.
  destruct (getOrAssignVariant _ _ _ _ _) as [[[variantID variantKey] isNew] made].
  destruct (String.eqb variantID ""); cbn [o_calls]; [reflexivity|].
  rewrite <- List.app_assoc.
  destruct (GetTransformSpec w experimentID variantID) as [e|spec]; cbn [o_calls]; [reflexivity|].
  destruct (ts_Operations spec); cbn [o_calls]; [reflexivity|].
  destruct (transformBody _ _ _ _ _). reflexivity.
Qed.

(** C8.  When the specification fetched for an attempt has no operation,
    the attempt succeeds, the body stream and the content length of the
    response are the ones it had (the body is not read), and the four
    headers are set: the experiment, the variant key, the status
    "control" and the timing. *)
Theorem C8_control_path (w : World) (m : ExperiFlowMiddleware) (resp : Response)
    (req : Request) (experimentID : string) (calls made : list Call)
    (variantID variantKey : string) (isNew : bool) (spec : TransformSpec) :
  getOrAssignVariant w m req experimentID ("ef_var_" ++ experimentID)
  = (variantID, variantKey, isNew, made) ->
  String.eqb variantID "" = false ->
  GetTransformSpec w experimentID variantID = inr spec ->
  ts_Operations spec = [] ->
  let o := applyExperiment w m resp req experimentID calls in
  o_err o = None
  /\ ResponseBody (o_resp o) = ResponseBody resp
  /\ ContentLength (o_resp o) = ContentLength resp
  /\ Get (Header (o_resp o)) "X-EF-Experiment" = experimentID
  /\ Get (Header (o_resp o)) "X-EF-Variant" = variantKey
  /\ Get (Header (o_resp o)) "X-EF-Transform" = "control"
  /\ Get (Header (o_resp o)) "X-EF-Timing" = "total=" ++ Itoa (elapsedMs w experimentID) ++ "ms".
Proof.
  intros Hv Hid Hspec Hops. cbv zeta. unfold applyExperiment.
  rewrite Hv, Hid, Hspec, Hops. cbn [o_err o_resp].
  set (resp1 := if isNew then _ else _).
  assert (Hb : ResponseBody resp1 = ResponseBody resp /\ ContentLength resp1 = ContentLength resp).
  { subst resp1. destruct isNew; split; reflexivity. }
  destruct Hb as [Hb Hl].
  pose proof (addHeaders_spec w resp1 experimentID variantKey "control")
    as (H1 & H2 & H3 & H4 & H5 & H6).
  rewrite <- Hb, <- Hl. auto 10.
Qed.

Lemma C8_witness :
  let w := exWorld (inr exVariants) (inr (exSpec [])) in
  let o := applyExperiment w (NewExperiFlowMiddleware (exConfig true) ["exp-1"])
             (htmlResponse "<p>Hi</p>") returningVisitor "exp-1" [] in
  o_err o = None
  /\ ResponseBody (o_resp o) = NewBody "<p>Hi</p>"
  /\ Get (Header (o_resp o)) "X-EF-Transform" = "control"
  /\ Get (Header (o_resp o)) "X-EF-Timing" = "total=35ms".
Proof.
  cbv zeta.
  pose proof (C8_control_path (exWorld (inr exVariants) (inr (exSpec [])))
                (NewExperiFlowMiddleware (exConfig true) ["exp-1"])
                (htmlResponse "<p>Hi</p>") returningVisitor "exp-1" [] []
                "v2" "" false (exSpec []) eq_refl eq_refl eq_refl eq_refl)
    as (He & Hb & _ & _ & _ & Ht & Htm).
  cbv zeta in *. repeat split; assumption.
Defined.

(** C9.  When the request carries a non-empty cookie [ef_var_] followed
    by the experiment identifier, the variant resolution returns the value
    of the cookie as variant identifier, the empty variant key, and no new
    assignment, without calling the experiment service; the attempt leaves
    the Set-Cookie field of the response as it was; and when it succeeds
    (a hit or the control path) the X-EF-Variant header it wrote is the
    empty string. *)
Theorem C9_cookie_assignment (w : World) (m : ExperiFlowMiddleware) (resp : Response)
    (req : Request) (experimentID value : string) (calls : list Call) :
  RequestCookie req ("ef_var_" ++ experimentID) = Some value ->
  String.eqb value "" = false ->
  let o := applyExperiment w m resp req experimentID calls in
  getOrAssignVariant w m req experimentID ("ef_var_" ++ experimentID) = (value, "", false, [])
  /\ Header (o_resp o) !! "Set-Cookie" = Header resp !! "Set-Cookie"
  /\ match o_err o with
     | None => Get (Header (o_resp o)) "X-EF-Variant" = ""
               /\ (Get (Header (o_resp o)) "X-EF-Transform" = "hit"
                   \/ Get (Header (o_resp o)) "X-EF-Transform" = "control")
     | Some _ => True
     end.
Proof.
  intros Hc Hv. cbv zeta.
  assert (Hg : getOrAssignVariant w m req experimentID ("ef_var_" ++ experimentID)
               = (value, "", false, [])).
  { unfold getOrAssignVariant. now rewrite Hc, Hv. }
  split; [exact Hg|].
  unfold applyExperiment. rewrite Hg, Hv.
  destruct (GetTransformSpec w experimentID value) as [e|spec]; cbn [o_resp o_err]; [auto|].
  destruct (ts_Operations spec) as [|op ops]; cbn [o_resp o_err].
  - pose proof (addHeaders_spec w resp experimentID "" "control") as (_ & H2 & H3 & _).
    split; [now apply addHeaders_other|]. auto.
  - pose proof (transformBody_spec w experimentID "" (op :: ops) resp) as [Hsc Hh].
    cbv zeta in Hsc, Hh.
    destruct (transformBody w experimentID "" (op :: ops) resp) as [resp' err].
    cbn [fst snd o_resp o_err] in *. split; [exact Hsc|].
    destruct err; [exact I|]. destruct Hh. auto.
Qed.

Lemma C9_witness :
  let w := exWorld (inr exVariants)
             (inr (exSpec [mkOperation "setText" "#cta" "Buy Now" "" 0])) in
  let o := applyExperiment w (NewExperiFlowMiddleware (exConfig true) ["exp-1"])
             (htmlResponse "<p>Hi</p>") returningVisitor "exp-1" [] in
  RequestCookie returningVisitor "ef_var_exp-1" = Some "v2"
  /\ Header (o_resp o) !! "Set-Cookie" = None
  /\ o_err o = None
  /\ Get (Header (o_resp o)) "X-EF-Variant" = ""
  /\ Get (Header (o_resp o)) "X-EF-Transform" = "hit".
Proof.
  cbv zeta. split; [reflexivity|].
  pose proof (C9_cookie_assignment
                (exWorld (inr exVariants)
                   (inr (exSpec [mkOperation "setText" "#cta" "Buy Now" "" 0])))
                (NewExperiFlowMiddleware (exConfig true) ["exp-1"])
                (htmlResponse "<p>Hi</p>") returningVisitor "exp-1" "v2" []
                eq_refl eq_refl) as (_ & Hsc & _).
  cbv zeta in Hsc. split; [rewrite Hsc; reflexivity|].
  vm_compute. repeat split; reflexivity.
Defined.

(** An attempt whose specification fetch fails returns the error, leaves
    the body stream and the content length as they were, and writes none
    of the four X-EF headers. *)
Lemma applyExperiment_spec_fetch_failure (w : World) (m : ExperiFlowMiddleware)
    (resp : Response) (req : Request) (experimentID : string) (calls made : list Call)
    (variantID variantKey : string) (isNew : bool) (e : FetchError) :
  getOrAssignVariant w m req experimentID ("ef_var_" ++ experimentID)
  = (variantID, variantKey, isNew, made) ->
  String.eqb variantID "" = false ->
  GetTransformSpec w experimentID variantID = inl e ->
  let o := applyExperiment w m resp req experimentID calls in
  o_err o = Some (ErrFetchSpec e)
  /\ ResponseBody (o_resp o) = ResponseBody resp
  /\ ContentLength (o_resp o) = ContentLength resp
  /\ Header (o_resp o) !! "X-Ef-Experiment" = Header resp !! "X-Ef-Experiment"
  /\ Header (o_resp o) !! "X-Ef-Variant" = Header resp !! "X-Ef-Variant"
  /\ Header (o_resp o) !! "X-Ef-Transform" = Header resp !! "X-Ef-Transform"
  /\ Header (o_resp o) !! "X-Ef-Timing" = Header resp !! "X-Ef-Timing".
Proof.
  intros Hv Hid Hspec. cbv zeta. unfold applyExperiment.
  rewrite Hv, Hid, Hspec. cbn [o_err o_resp].
  split; [reflexivity|].
  destruct isNew; [|auto 10].
  unfold setAssignmentCookie. cbn [ResponseBody ContentLength Header].
  destruct (String.eqb (Get (Header resp) "Set-Cookie") "");
    rewrite ?lookup_Set_ne, ?lookup_Add_ne by canon_ne; auto 10.
Qed.

(** C2 on the code.  A returning visitor, one experiment, fail-open
    enabled, and a specification fetch that exceeds the deadline (or fails
    otherwise): [ModifyResponse] succeeds and the body is the one of the
    origin, but the response carries no X-EF-Transform header at all,
    neither "timeout" nor "miss"; its header fields are those of the
    origin. *)
Theorem C2_fail_open_without_headers :
  let m := NewExperiFlowMiddleware (exConfig true) ["exp-1"] in
  let origin := htmlResponse "<p>Hi</p>" in
  let timedOut := ModifyResponse (exWorld (inr exVariants) (inl DeadlineExceeded)) m origin
                    returningVisitor in
  let failed := ModifyResponse (exWorld (inr exVariants) (inl FetchFailed)) m origin
                  returningVisitor in
  o_err timedOut = None
  /\ ResponseBody (o_resp timedOut) = ResponseBody origin
  /\ Get (Header (o_resp timedOut)) "X-EF-Transform" = ""
  /\ Header (o_resp timedOut) = Header origin
  /\ o_err failed = None
  /\ ResponseBody (o_resp failed) = ResponseBody origin
  /\ Get (Header (o_resp failed)) "X-EF-Transform" = ""
  /\ Header (o_resp failed) = Header origin.
Proof. vm_compute. repeat split; reflexivity. Qed.

(* --------------------------------------------------------------------- *)
(** ** The loop over the experiments *)
(* --------------------------------------------------------------------- *)

Lemma threaded_app w m req ids1 ids2 :
  forall resp calls,
    threaded w m req (ids1 ++ ids2)%list resp calls
    = threaded w m req ids2 (fst (threaded w m req ids1 resp calls))
        (snd (threaded w m req ids1 resp calls)).
Proof.
  induction ids1 as [|id ids1 IH]; intros resp calls; cbn [threaded app fst snd]; [reflexivity|].
  apply IH.
Qed.

Lemma allSucceed_app w m req ids1 ids2 :
  forall resp calls,
    allSucceed w m req (ids1 ++ ids2)%list resp calls
    = allSucceed w m req ids1 resp calls
      && allSucceed w m req ids2 (fst (threaded w m req ids1 resp calls))
           (snd (threaded w m req ids1 resp calls)).
Proof.
  induction ids1 as [|id ids1 IH]; intros resp calls; cbn [allSucceed threaded app fst snd andb];
    [reflexivity|].
  destruct (o_err (applyExperiment w m resp req id calls)); [reflexivity|apply IH].
Qed.

(** The calls left by the attempts are those made so far, then those of
    each attempt in turn. *)
Lemma threaded_calls w m req ids :
  forall resp calls,
    snd (threaded w m req ids resp calls)
    = (calls ++ List.flat_map (attemptCalls w m req) ids)%list.
Proof.
  induction ids as [|id ids IH]; intros resp calls; cbn [threaded List.flat_map snd].
  - now rewrite List.app_nil_r.
  - rewrite IH, applyExperiment_calls. now rewrite <- List.app_assoc.
Qed.

(** The loop of [ModifyResponse]: either no attempt fails and the outcome
    is what the attempts leave, or the outcome is that of the first
    attempt that fails, made against what the attempts before it leave,
    its error kept or not. *)
Lemma applyExperiments_spec w m req ids :
  forall resp calls,
    (allSucceed w m req ids resp calls = true
     /\ applyExperiments w m req ids resp calls
        = mkOutcome (fst (threaded w m req ids resp calls))
            (snd (threaded w m req ids resp calls)) None)
    \/ (exists init last rest e,
          ids = (init ++ last :: rest)%list
          /\ allSucceed w m req init resp calls = true
          /\ o_err (applyExperiment w m (fst (threaded w m req init resp calls)) req last
                      (snd (threaded w m req init resp calls))) = Some e
          /\ applyExperiments w m req ids resp calls
             = mkOutcome
                 (o_resp (applyExperiment w m (fst (threaded w m req init resp calls)) req last
                            (snd (threaded w m req init resp calls))))
                 (o_calls (applyExperiment w m (fst (threaded w m req init resp calls)) req last
                             (snd (threaded w m req init resp calls))))
                 (if FailOpen (config m) then None else Some e)).
Proof.
  induction ids as [|id ids IH]; intros resp calls; cbn [applyExperiments allSucceed threaded].
  - left. split; reflexivity.
  - destruct (o_err (applyExperiment w m resp req id calls)) as [e|] eqn:He.
    + right. exists [], id, ids, e. cbn [app allSucceed threaded fst snd].
      repeat split; [exact He|]. now destruct (FailOpen (config m)).
    + destruct (IH (o_resp (applyExperiment w m resp req id calls))
                  (o_calls (applyExperiment w m resp req id calls)))
        as [[Hall Ho] | (init & last & rest & e & -> & Hall & Hfail & Ho)].
      * left. split; assumption.
      * right. exists (id :: init), last, rest, e.
        cbn [app allSucceed threaded]. rewrite He. auto.
Qed.

(** C3, as stated, fails.  With fail-open disabled, a failed variant fetch
    makes [ModifyResponse] return the error.  With fail-open enabled and
    the experiments "exp-1" and "exp-2" (visited in that order), the failed
    attempt of "exp-1" ends the loop: the service is never called for
    "exp-2". *)
Lemma C3_counterexample :
  let w := exWorld (inl FetchFailed) (inl FetchFailed) in
  let resp := htmlResponse "<p>Hi</p>" in
  let closed_ := ModifyResponse w (NewExperiFlowMiddleware (exConfig false) ["exp-1"])
                   resp newVisitor in
  let m := NewExperiFlowMiddleware (exConfig true) ["exp-1"; "exp-2"] in
  let open_ := ModifyResponse w m resp newVisitor in
  isHTML resp = true
  /\ o_err closed_ = Some ErrAssign
  /\ rangeExperiments w m = ["exp-1"; "exp-2"]
  /\ o_err open_ = None
  /\ o_calls open_ = [CallGetVariants "exp-1"].
Proof. vm_compute. repeat split; reflexivity. Qed.

(** C3 (amended).  With fail-open enabled [ModifyResponse] always returns
    success, whatever fails inside an attempt; with fail-open disabled it
    returns the error of the first attempt that fails.  On an HTML response
    the experiments are attempted in the order in which the [range] loop
    visits the experiment map, each against the response left by the
    previous ones, up to and including the first attempt that fails.
    Either no attempt fails: then every experiment is attempted and the
    outcome is the response and the calls that the attempts leave, without
    error.  Or the attempt of [last] is the first that fails, the attempts
    of the experiments [init] before it having succeeded: then the outcome
    is the response and the calls left by that attempt, made against what
    the attempts of [init] leave, the experiments after [last] are not
    attempted, and the error is the one of that attempt when fail-open is
    disabled, none when it is enabled.  In both cases the calls made to
    the experiment service are those of the experiments attempted, in that
    order.  A response that is not HTML is returned as it is. *)
Theorem C3_ModifyResponse (w : World) (m : ExperiFlowMiddleware) (resp : Response)
    (req : Request) :
  let o := ModifyResponse w m resp req in
  let ids := rangeExperiments w m in
  (if FailOpen (config m) then o_err o = None else True)
  /\ (if isHTML resp
      then (allSucceed w m req ids resp [] = true
            /\ o = mkOutcome (fst (threaded w m req ids resp []))
                     (snd (threaded w m req ids resp [])) None
            /\ o_calls o = List.flat_map (attemptCalls w m req) ids)
           \/ (exists init last rest e,
                 ids = (init ++ last :: rest)%list
                 /\ allSucceed w m req init resp [] = true
                 /\ (let a := applyExperiment w m (fst (threaded w m req init resp [])) req last
                                (snd (threaded w m req init resp [])) in
                     o_err a = Some e
                     /\ o = mkOutcome (o_resp a) (o_calls a)
                              (if FailOpen (config m) then None else Some e))
                 /\ o_calls o = List.flat_map (attemptCalls w m req) (init ++ [last])%list)
      else o = mkOutcome resp [] None).
Proof.
  cbv zeta. unfold ModifyResponse.
  destruct (isHTML resp); cbn [negb].
  - destruct (applyExperiments_spec w m req (rangeExperiments w m) resp [])
      as [[Hall Ho] | (init & last & rest & e & Hids & Hall & Hfail & Ho)].
    + rewrite Ho. cbn [o_err o_calls]. split; [now destruct (FailOpen (config m))|].
      left. split; [exact Hall|]. split; [reflexivity|]. apply threaded_calls.
    + rewrite Ho. cbn [o_err o_calls]. split; [now destruct (FailOpen (config m))|].
      right. exists init, last, rest, e. split; [exact Hids|]. split; [exact Hall|].
      split; [split; [exact Hfail|reflexivity]|].
      rewrite applyExperiment_calls, threaded_calls, List.flat_map_app. cbn [List.flat_map app].
      now rewrite List.app_nil_r.
  - split; [|reflexivity]. now destruct (FailOpen (config m)).
Qed.

(* --------------------------------------------------------------------- *)
(** ** The salt *)
(* --------------------------------------------------------------------- *)

(** C5, as stated, fails: built with the empty salt, the assigner is the
    one built with the fixed salt "default-salt-change-in-production"; and
    the middleware builds its assigner with the salt "production-salt",
    which no configuration changes. *)
Lemma C5_counterexample :
  NewAssigner "" = mkAssigner "default-salt-change-in-production"
  /\ NewAssigner "" = NewAssigner "default-salt-change-in-production"
  /\ assigner (NewExperiFlowMiddleware (exConfig true) ["exp-1"]) = mkAssigner "production-salt".
Proof. repeat split; reflexivity. Qed.

(** C5 (amended).  [NewAssigner] never fails: it keeps a non-empty salt
    and replaces the empty salt by the fixed salt
    "default-salt-change-in-production", so the salt of an assigner is
    never empty; and [NewExperiFlowMiddleware] builds its assigner with the
    fixed salt "production-salt", whatever the configuration and the
    experiments. *)
Theorem C5_salt (s : string) (cfg : Config) (experimentIDs : list string) :
  salt (NewAssigner s)
  = (if String.eqb s "" then "default-salt-change-in-production" else s)
  /\ String.eqb (salt (NewAssigner s)) "" = false
  /\ salt (assigner (NewExperiFlowMiddleware cfg experimentIDs)) = "production-salt".
Proof.
  unfold NewAssigner. destruct (String.eqb s "") eqn:E; cbn [salt]; auto.
Qed.

(* ===================================================================== *)
(** * Further properties *)
(* ===================================================================== *)

(* --------------------------------------------------------------------- *)
(** ** Picking a variant *)
(* --------------------------------------------------------------------- *)

Lemma assignLoop_In bucket c variants v :
  assignLoop bucket c variants = Some v -> List.In v variants.
Proof.
  revert c. induction variants as [|v0 rest IH]; intros c; cbn [assignLoop]; [discriminate|].
  destruct (_ <? _)%float; [intros [= ->]; now left|].
  intros H. right. eauto.
Qed.

Lemma randomLoop_In r c variants v :
  randomLoop r c variants = Some v -> List.In v variants.
Proof.
  revert c. induction variants as [|v0 rest IH]; intros c; cbn [randomLoop]; [discriminate|].
  destruct (_ <? _)%float; [intros [= ->]; now left|].
  intros H. right. eauto.
Qed.

(** X1.  [AssignVariant] and [SelectRandomVariant] return the nil pointer
    exactly on an empty variant list, and otherwise one of the variants of
    the list, whatever the allocations are (which may sum to less than 1,
    be negative or not be numbers) and whatever the bucket or the draw. *)
Theorem variant_choice_member (a : Assigner) (userID experimentID : string)
    (variants : list Variant) (rnd : Z) (r : float) :
  match AssignVariant a userID experimentID variants rnd with
  | Some v => List.In v variants
  | None => variants = []
  end
  /\ match SelectRandomVariant variants r with
     | Some v => List.In v variants
     | None => variants = []
     end.
Proof.
  split.
  - unfold AssignVariant. destruct variants as [|v0 [|v1 rest]]; [reflexivity|now left|].
    destruct (assignLoop _ _ _) as [v|] eqn:E; [|now left].
    now apply assignLoop_In in E.
  - unfold SelectRandomVariant. destruct variants as [|v0 [|v1 rest]]; [reflexivity|now left|].
    destruct (randomLoop _ _ _) as [v|] eqn:E; [|now left].
    now apply randomLoop_In in E.
Qed.

(* --------------------------------------------------------------------- *)
(** ** The user identifier *)
(* --------------------------------------------------------------------- *)

Lemma hexdigit_lower n : 0 <= n < 16 -> isLowerHex (hexdigit n) = true.
Proof.
  intros H. rewrite <- (Z2Nat.id n) by lia.
  assert (Hk : (Z.to_nat n < 16)%nat) by lia.
  generalize dependent (Z.to_nat n). clear H. intros k Hk.
  do 16 (destruct k as [|k]; [reflexivity|]). lia.
Qed.

Lemma EncodeToString_lower bs :
  List.Forall (fun b => 0 <= b < 256) bs -> allLowerHex (EncodeToString bs) = true.
Proof.
  induction 1 as [|b bs Hb _ IH]; [reflexivity|].
  destruct (nibbles b Hb) as (Hhi & Hlo & _).
  cbn [EncodeToString allLowerHex]. now rewrite IH, !hexdigit_lower.
Qed.

Lemma EncodeToString_length bs :
  String.length (EncodeToString bs) = (2 * List.length bs)%nat.
Proof. induction bs as [|b bs IH]; [reflexivity|]. cbn [EncodeToString String.length List.length]. lia. Qed.

Lemma substring_0_length n s :
  (n <= String.length s)%nat -> String.length (substring 0 n s) = n.
Proof.
  revert s. induction n as [|n IH]; intros [|c s] H; cbn in *; try reflexivity; try lia.
  rewrite IH; [reflexivity|lia].
Qed.

Lemma substring_0_lower n s : allLowerHex s = true -> allLowerHex (substring 0 n s) = true.
Proof.
  revert s. induction n as [|n IH]; intros [|c s]; cbn [substring allLowerHex]; try reflexivity.
  intros H. apply andb_prop in H as [-> H]. now rewrite IH.
Qed.

(** X2.  [GetUserID] returns a non-empty cookie value as it is.  Without
    one, when the address or the user agent is not empty, the identifier is
    exactly 16 lower-case hexadecimal characters and does not depend on the
    random source; only when all three are empty is it "anon_" followed by
    the random number. *)
Theorem GetUserID_shape (cookieValue ipAddress userAgent : string) (rnd rnd' : Z) :
  let id := GetUserID cookieValue ipAddress userAgent rnd in
  if negb (String.eqb cookieValue "") then id = cookieValue
  else if negb (String.eqb ipAddress "") || negb (String.eqb userAgent "") then
    String.length id = 16%nat /\ allLowerHex id = true
    /\ GetUserID cookieValue ipAddress userAgent rnd' = id
  else id = "anon_" ++ GoHTTP.Itoa rnd.
Proof.
  cbv zeta. unfold GetUserID.
  destruct (negb (String.eqb cookieValue "")); [reflexivity|].
  destruct (negb (String.eqb ipAddress "") || negb (String.eqb userAgent "")); [|reflexivity].
  unfold slice. cbn [Nat.sub].
  split; [|split; [|reflexivity]].
  - apply substring_0_length. rewrite EncodeToString_length, sha256_length. lia.
  - apply substring_0_lower, EncodeToString_lower, sha256_range.
Qed.

(* --------------------------------------------------------------------- *)
(** ** The experiment identifiers of the environment *)
(* --------------------------------------------------------------------- *)

Lemma fold_getExperimentIDs pieces acc :
  List.fold_left
    (fun (result : list string) (id : string) =>
       let id := TrimSpace id in
       if negb (String.eqb id "") then (result ++ [id])%list else result)
    pieces acc
  = (acc ++ List.filter keepID (List.map TrimSpace pieces))%list.
Proof.
  revert acc. induction pieces as [|p ps IH]; intros acc; cbn [List.fold_left List.map List.filter].
  - now rewrite List.app_nil_r.
  - rewrite IH. cbv zeta. unfold keepID at 2.
    destruct (negb (String.eqb (TrimSpace p) "")); [now rewrite <- List.app_assoc|reflexivity].
Qed.

Lemma getExperimentIDs_Split idsStr :
  getExperimentIDs idsStr = List.filter keepID (List.map TrimSpace (Split idsStr ",")).
Proof.
  unfold getExperimentIDs. destruct (String.eqb_spec idsStr "") as [->|_]; [reflexivity|].
  now rewrite fold_getExperimentIDs.
Qed.

Lemma Split_concat (sep : ascii) (p : string) (ps : list string) :
  List.Forall (fun q => noChar sep q = true) (p :: ps) ->
  Split (String.concat (String sep "") (p :: ps)) sep = p :: ps.
Proof.
  revert p. induction ps as [|q ps IH]; intros p H; inversion H as [|? ? Hp Hps]; subst.
  - cbn [String.concat]. now apply Split_noChar.
  - cbn [String.concat]. rewrite append_cons, append_nil.
    rewrite Split_app by assumption. f_equal. apply (IH q Hps).
Qed.

(** X3.  Every identifier that [getExperimentIDs] returns is non-empty,
    has no white space around it and holds no comma; an unset or empty
    variable gives no identifier. *)
Theorem getExperimentIDs_clean (idsStr : string) :
  List.Forall (fun id => cleanID id = true) (getExperimentIDs idsStr)
  /\ getExperimentIDs "" = [].
Proof.
  split; [|reflexivity].
  rewrite getExperimentIDs_Split.
  pose proof (Split_pieces "," idsStr) as H.
  induction H as [|p ps Hp _ IH]; cbn [List.map List.filter]; [constructor|].
  destruct (keepID (TrimSpace p)) eqn:E; [|exact IH].
  constructor; [|exact IH].
  unfold cleanID. unfold keepID in E. rewrite E, TrimSpace_idem, String.eqb_refl.
  now rewrite noChar_TrimSpace.
Qed.

(** X4.  [getExperimentIDs] undoes a join with commas: on the pieces,
    none holding a comma, joined by commas, it returns the pieces with the
    white space around each removed and the empty ones dropped, in order.
    In particular a list of clean identifiers joined by commas is read
    back as it is. *)
Theorem getExperimentIDs_join (pieces : list string) :
  List.Forall (fun p => noChar "," p = true) pieces ->
  getExperimentIDs (String.concat "," pieces)
  = List.filter (fun id => negb (String.eqb id "")) (List.map TrimSpace pieces)
  /\ (List.forallb cleanID pieces = true ->
      getExperimentIDs (String.concat "," pieces) = pieces).
Proof.
  intros H.
  assert (E : getExperimentIDs (String.concat "," pieces)
              = List.filter keepID (List.map TrimSpace pieces)).
  { destruct pieces as [|p ps]; [reflexivity|].
    rewrite getExperimentIDs_Split, Split_concat by assumption. reflexivity. }
  split; [exact E|].
  intros Hc. rewrite E. clear E H.
  induction pieces as [|p ps IH]; [reflexivity|].
  cbn [List.forallb] in Hc. apply andb_prop in Hc as [Hp Hps].
  unfold cleanID in Hp. apply andb_prop in Hp as [Hp _]. apply andb_prop in Hp as [Hne Ht].
  apply String.eqb_eq in Ht.
  cbn [List.map List.filter]. unfold keepID at 1. rewrite Ht, Hne. f_equal. auto.
Qed.

Lemma getExperimentIDs_join_witness :
  getExperimentIDs "exp-1, exp-2 ,,exp-3" = ["exp-1"; "exp-2"; "exp-3"]
  /\ getExperimentIDs "exp-1,exp-2" = ["exp-1"; "exp-2"].
Proof.
  split.
  - exact (proj1 (getExperimentIDs_join ["exp-1"; " exp-2 "; ""; "exp-3"]
                    ltac:(repeat constructor))).
  - exact (proj2 (getExperimentIDs_join ["exp-1"; "exp-2"] ltac:(repeat constructor)) eq_refl).
Defined.

(* --------------------------------------------------------------------- *)
(** ** The configuration read from the environment *)
(* --------------------------------------------------------------------- *)

Lemma getEnv_nonempty env key d : d <> "" -> getEnv env key d <> "".
Proof.
  intros Hd. unfold getEnv. destruct (String.eqb_spec (Getenv env key) ""); cbn [negb]; assumption.
Qed.

Lemma getBool_true env key :
  getBool env key true = negb (existsb (String.eqb (Getenv env key)) boolFalse).
Proof.
  unfold getBool, ParseBool.
  destruct (String.eqb_spec (Getenv env key) "") as [->|_]; [reflexivity|]. cbn [negb].
  destruct (existsb (String.eqb (Getenv env key)) boolTrue) eqn:Et.
  - unfold boolTrue in Et. cbn [existsb] in Et. rewrite !orb_true_iff in Et.
    destruct Et as [Et|[Et|[Et|[Et|[Et|[Et|Et]]]]]]; try discriminate;
      apply String.eqb_eq in Et; rewrite Et; reflexivity.
  - destruct (existsb _ boolFalse); reflexivity.
Qed.

(** X5.  The configuration read from the environment fails closed only
    on request: [FailOpen] is false exactly when FAIL_OPEN is one of "0",
    "f", "F", "FALSE", "false", "False"; unset, empty or set to anything
    else it is true (and so are [EnableLogging] and [EnableMetrics] for
    their variables).  The port, the origin and the service address are
    never empty: an unset or empty variable gives the default. *)
Theorem LoadFromEnv_flags (parseDuration : string -> option Z) (env : gmap string string) :
  let cfg := LoadFromEnv parseDuration env in
  FailOpen cfg = negb (existsb (String.eqb (Getenv env "FAIL_OPEN")) boolFalse)
  /\ EnableLogging cfg = negb (existsb (String.eqb (Getenv env "ENABLE_LOGGING")) boolFalse)
  /\ EnableMetrics cfg = negb (existsb (String.eqb (Getenv env "ENABLE_METRICS")) boolFalse)
  /\ Port cfg <> "" /\ OriginURL cfg <> "" /\ APIBaseURL cfg <> ""
  /\ LoadFromEnv parseDuration ∅ = exConfig true.
Proof.
  cbv zeta. unfold LoadFromEnv. cbn [FailOpen EnableLogging EnableMetrics Port OriginURL APIBaseURL].
  rewrite !getBool_true.
  repeat split; try (apply getEnv_nonempty; discriminate).
Qed.

(* --------------------------------------------------------------------- *)
(** ** The experiment map *)
(* --------------------------------------------------------------------- *)

Lemma fold_insert_true (ids : list string) (m0 : gmap string bool) (id : string) :
  List.fold_left (fun (m : gmap string bool) id => <[id := true]> m) ids m0 !! id
  = if bool_decide (id ∈ ids) then Some true else m0 !! id.
Proof.
  revert m0. induction ids as [|x ids IH]; intros m0; cbn [List.fold_left].
  - reflexivity.
  - rewrite IH. destruct (decide (id = x)) as [->|Hne].
    + rewrite lookup_insert_eq. rewrite (bool_decide_eq_true_2 (x ∈ x :: ids)) by left.
      now destruct (bool_decide (x ∈ ids)).
    + rewrite lookup_insert_ne by congruence.
      destruct (bool_decide (id ∈ ids)) eqn:E.
      * apply bool_decide_eq_true in E. rewrite bool_decide_eq_true_2; [reflexivity|now right].
      * apply bool_decide_eq_false in E. rewrite bool_decide_eq_false_2; [reflexivity|].
        rewrite elem_of_cons. intros [?|?]; contradiction.
Qed.

(** X6.  The experiments of a middleware are a set: whatever the list it
    is built from, the sequence that the [range] loop of [ModifyResponse]
    goes through holds exactly the listed identifiers, each once (an
    identifier listed twice collapses).  On an HTML response the loop
    attempts a beginning of that sequence: no experiment is attempted
    twice, none that is not listed is attempted, and when no attempt fails
    every listed experiment is attempted exactly once; after an attempt
    that fails the remaining ones are not attempted. *)
Theorem rangeExperiments_set (w : World) (cfg : Config) (experimentIDs : list string)
    (resp : Response) (req : Request) :
  (forall entries, experimentOrder w entries ≡ₚ entries) ->
  isHTML resp = true ->
  let m := NewExperiFlowMiddleware cfg experimentIDs in
  let visited := rangeExperiments w m in
  NoDup visited
  /\ (forall id, id ∈ visited <-> id ∈ experimentIDs)
  /\ exists attempted rest,
       visited = (attempted ++ rest)%list
       /\ o_calls (ModifyResponse w m resp req)
          = List.flat_map (attemptCalls w m req) attempted
       /\ (if allSucceed w m req visited resp [] then rest = []
           else exists init last,
               attempted = (init ++ [last])%list
               /\ allSucceed w m req init resp [] = true
               /\ allSucceed w m req attempted resp [] = false).
Proof.
  intros Horder Hhtml. cbv zeta.
  set (m := NewExperiFlowMiddleware cfg experimentIDs).
  split; [|split].
  - unfold rangeExperiments. subst m. unfold NewExperiFlowMiddleware. cbn [experiments].
    set (mp := List.fold_left _ experimentIDs ∅).
    change (List.map fst (experimentOrder w (map_to_list mp)))
      with ((experimentOrder w (map_to_list mp)).*1).
    rewrite (Horder (map_to_list mp)). apply NoDup_fst_map_to_list.
  - unfold rangeExperiments. subst m. unfold NewExperiFlowMiddleware. cbn [experiments].
    set (mp := List.fold_left _ experimentIDs ∅).
    change (List.map fst (experimentOrder w (map_to_list mp)))
      with ((experimentOrder w (map_to_list mp)).*1).
    intros id. rewrite (Horder (map_to_list mp)), list_elem_of_fmap. split.
    + intros ([k b] & -> & Hin). apply elem_of_map_to_list in Hin. cbn [fst].
      subst mp. rewrite fold_insert_true in Hin.
      destruct (bool_decide (k ∈ experimentIDs)) eqn:E.
      * now apply bool_decide_eq_true in E.
      * now rewrite lookup_empty in Hin.
    + intros Hin. exists (id, true). split; [reflexivity|].
      apply elem_of_map_to_list. subst mp. rewrite fold_insert_true.
      now rewrite bool_decide_eq_true_2.
  - unfold ModifyResponse. rewrite Hhtml. cbn [negb].
    destruct (applyExperiments_spec w m req (rangeExperiments w m) resp [])
      as [[Hall Ho] | (init & last & rest & e & Hids & Hall & Hfail & Ho)].
    + exists (rangeExperiments w m), []. rewrite List.app_nil_r, Ho, Hall. cbn [o_calls].
      split; [reflexivity|]. split; [apply threaded_calls|reflexivity].
    + exists (init ++ [last])%list, rest. rewrite Ho. cbn [o_calls].
      split; [now rewrite <- List.app_assoc|].
      split.
      { rewrite applyExperiment_calls, threaded_calls, List.flat_map_app.
        cbn [List.flat_map app]. now rewrite List.app_nil_r. }
      assert (Hlast : allSucceed w m req (init ++ [last])%list resp [] = false).
      { rewrite allSucceed_app, Hall. cbn [andb allSucceed]. now rewrite Hfail. }
      rewrite Hids.
      replace (init ++ last :: rest)%list with ((init ++ [last]) ++ rest)%list
        by now rewrite <- List.app_assoc.
      rewrite (allSucceed_app w m req (init ++ [last])%list rest), Hlast. cbn [andb].
      exists init, last. auto.
Qed.

Lemma rangeExperiments_set_witness :
  let w := exWorld (inl FetchFailed) (inr (exSpec [])) in
  let m := NewExperiFlowMiddleware (exConfig true) ["exp-1"; "exp-2"; "exp-1"] in
  let visited := rangeExperiments w m in
  NoDup visited
  /\ (forall id, id ∈ visited <-> id ∈ ["exp-1"; "exp-2"; "exp-1"])
  /\ exists attempted rest,
       visited = (attempted ++ rest)%list
       /\ o_calls (ModifyResponse w m (htmlResponse "<p>Hi</p>") newVisitor)
          = List.flat_map (attemptCalls w m newVisitor) attempted
       /\ exists init last,
           attempted = (init ++ [last])%list
           /\ allSucceed w m newVisitor init (htmlResponse "<p>Hi</p>") [] = true
           /\ allSucceed w m newVisitor attempted (htmlResponse "<p>Hi</p>") [] = false.
Proof.
  exact (rangeExperiments_set (exWorld (inl FetchFailed) (inr (exSpec [])))
           (exConfig true) ["exp-1"; "exp-2"; "exp-1"] (htmlResponse "<p>Hi</p>") newVisitor
           (fun entries => Permutation_refl entries) eq_refl).
Defined.

(* --------------------------------------------------------------------- *)
(** ** Attempts that do not resolve a variant *)
(* --------------------------------------------------------------------- *)

Lemma applyExperiment_no_variant w m resp req experimentID calls :
  match RequestCookie req ("ef_var_" ++ experimentID) with Some v => v = "" | None => True end ->
  match GetVariants w experimentID with inl _ => True | inr l => l = [] end ->
  applyExperiment w m resp req experimentID calls
  = mkOutcome resp (calls ++ [CallGetVariants experimentID]) (Some ErrAssign).
Proof.
  intros Hc Hv. unfold applyExperiment, getOrAssignVariant.
  assert (Ha : assignNew w m req experimentID = ("", "", false, [CallGetVariants experimentID])).
  { unfold assignNew. destruct (GetVariants w experimentID) as [e|l]; [reflexivity|].
    now subst l. }
  destruct (RequestCookie req _) as [v|]; [subst v; cbn [String.eqb negb]|]; now rewrite Ha.
Qed.

(** X7.  When the request carries no assignment (no cookie of an
    experiment, or an empty one) and the service has no variant to give
    (the fetch fails or the list is empty), [ModifyResponse] leaves the
    response exactly as the origin sent it: no cookie, no header, the body
    unread.  It gives up at the first experiment visited, after one call,
    and returns the error only when fail-open is disabled. *)
Theorem ModifyResponse_no_variant (w : World) (m : ExperiFlowMiddleware) (resp : Response)
    (req : Request) :
  (forall id, match RequestCookie req ("ef_var_" ++ id) with Some v => v = "" | None => True end) ->
  (forall id, match GetVariants w id with inl _ => True | inr l => l = [] end) ->
  let o := ModifyResponse w m resp req in
  o_resp o = resp
  /\ o_calls o = (if isHTML resp
                  then match rangeExperiments w m with
                       | id :: _ => [CallGetVariants id]
                       | [] => []
                       end
                  else [])
  /\ o_err o = (if isHTML resp && negb (FailOpen (config m))
                then match rangeExperiments w m with
                     | _ :: _ => Some ErrAssign
                     | [] => None
                     end
                else None).
Proof.
  intros Hc Hv. cbv zeta. unfold ModifyResponse.
  destruct (isHTML resp); cbn [negb andb]; [|auto].
  destruct (rangeExperiments w m) as [|id ids]; cbn [applyExperiments].
  - destruct (FailOpen (config m)); auto.
  - rewrite (applyExperiment_no_variant w m resp req id [] (Hc id) (Hv id)).
    cbn [o_err o_resp o_calls]. destruct (FailOpen (config m)); auto.
Qed.

Lemma ModifyResponse_no_variant_witness :
  let o := ModifyResponse (exWorld (inr []) (inr (exSpec [])))
             (NewExperiFlowMiddleware (exConfig false) ["exp-1"])
             (htmlResponse "<p>Hi</p>") newVisitor in
  o_resp o = htmlResponse "<p>Hi</p>"
  /\ o_calls o = [CallGetVariants "exp-1"]
  /\ o_err o = Some ErrAssign.
Proof.
  exact (ModifyResponse_no_variant (exWorld (inr []) (inr (exSpec [])))
           (NewExperiFlowMiddleware (exConfig false) ["exp-1"])
           (htmlResponse "<p>Hi</p>") newVisitor (fun id => I) (fun id => eq_refl)).
Defined.

(* --------------------------------------------------------------------- *)
(** ** The cookie of a new assignment *)
(* --------------------------------------------------------------------- *)

Lemma lookup_Set_eq (h : HeaderMap) key value :
  Set_ h key value !! CanonicalMIMEHeaderKey key = Some [value].
Proof. unfold Set_. apply lookup_insert_eq. Qed.

Lemma lookup_Add_eq (h : HeaderMap) key value :
  Add h key value !! CanonicalMIMEHeaderKey key
  = Some (default [] (h !! CanonicalMIMEHeaderKey key) ++ [value])%list.
Proof. unfold Add. apply lookup_insert_eq. Qed.

Lemma applyExperiment_Set_Cookie w m resp req experimentID calls variantID variantKey isNew made :
  getOrAssignVariant w m req experimentID ("ef_var_" ++ experimentID)
  = (variantID, variantKey, isNew, made) ->
  String.eqb variantID "" = false ->
  Header (o_resp (applyExperiment w m resp req experimentID calls)) !! "Set-Cookie"
  = Header (if isNew then setAssignmentCookie w resp ("ef_var_" ++ experimentID) variantID
            else resp) !! "Set-Cookie".
Proof.
  intros Hg Hid. unfold applyExperiment. rewrite Hg, Hid.
  set (resp1 := if isNew then _ else _).
  destruct (GetTransformSpec w experimentID variantID) as [e|spec]; cbn [o_resp]; [reflexivity|].
  destruct (ts_Operations spec) as [|op ops]; cbn [o_resp].
  - now apply addHeaders_other.
  - pose proof (transformBody_spec w experimentID variantKey (op :: ops) resp1) as [Hsc _].
    cbv zeta in Hsc. destruct (transformBody _ _ _ _ _) as [resp' err]. exact Hsc.
Qed.

(** X8.  A new assignment is written to the response as one more
    Set-Cookie value: the cookie [ef_var_] followed by the experiment
    identifier, holding the variant identifier, with a maximum age of
    2592000 seconds (30 days), the path "/", HttpOnly and SameSite=Lax.  It
    comes after the Set-Cookie values of the origin, which are kept, unless
    the first of them is the empty string, in which case it replaces them
    all.  The cookie is written before the specification is fetched, so it
    is there whether the attempt then succeeds or fails. *)
Theorem new_assignment_cookie (w : World) (m : ExperiFlowMiddleware) (resp : Response)
    (req : Request) (experimentID : string) (calls made : list Call)
    (variantID variantKey : string) :
  getOrAssignVariant w m req experimentID ("ef_var_" ++ experimentID)
  = (variantID, variantKey, true, made) ->
  String.eqb variantID "" = false ->
  let o := applyExperiment w m resp req experimentID calls in
  let cookie := cookieString w (mkCookie ("ef_var_" ++ experimentID) variantID 2592000 "/" true
                                  SameSiteLaxMode) in
  Header (o_resp o) !! "Set-Cookie"
  = Some (if String.eqb (Get (Header resp) "Set-Cookie") "" then [cookie]
          else (default [] (Header resp !! "Set-Cookie") ++ [cookie])%list).
Proof.
  intros Hg Hid. cbv zeta.
  rewrite (applyExperiment_Set_Cookie w m resp req experimentID calls _ _ _ _ Hg Hid).
  unfold setAssignmentCookie. cbn [Header].
  change "Set-Cookie" with (CanonicalMIMEHeaderKey "Set-Cookie") at 1 4.
  destruct (String.eqb (Get (Header resp) "Set-Cookie") "").
  - apply lookup_Set_eq.
  - apply lookup_Add_eq.
Qed.

Lemma new_assignment_cookie_witness :
  let w := exWorld (inr exVariants) (inl FetchFailed) in
  let resp := mkResponse {[ "Content-Type" := ["text/html"]; "Set-Cookie" := ["sid=1"] ]}
                (NewBody "<p>Hi</p>") 9 in
  let o := applyExperiment w (NewExperiFlowMiddleware (exConfig true) ["exp-1"]) resp
             newVisitor "exp-1" [] in
  Header (o_resp o) !! "Set-Cookie"
  = Some ["sid=1"; "ef_var_exp-1=v1; Path=/; Max-Age=2592000; HttpOnly; SameSite=Lax"]
  /\ o_err o = Some (ErrFetchSpec FetchFailed).
Proof.
  cbv zeta. split; [|vm_compute; reflexivity].
  rewrite (new_assignment_cookie (exWorld (inr exVariants) (inl FetchFailed))
             (NewExperiFlowMiddleware (exConfig true) ["exp-1"])
             (mkResponse {[ "Content-Type" := ["text/html"]; "Set-Cookie" := ["sid=1"] ]}
                (NewBody "<p>Hi</p>") 9)
             newVisitor "exp-1" [] [CallGetVariants "exp-1"] "v1" "Control"
             ltac:(vm_compute; reflexivity) eq_refl).
  vm_compute. reflexivity.
Defined.

(* --------------------------------------------------------------------- *)
(** ** The body of a response that is transformed *)
(* --------------------------------------------------------------------- *)

(** X9.  When the specification has operations, the attempt reads the
    body to its end and closes it.  If the document parses and renders, the
    response carries the rendered document as a new, unread body, and its
    length three times over, in agreement: the length of the new body, the
    content length of the response and the Content-Length header in
    decimal; the status header is "hit".  If parsing or rendering fails,
    the attempt returns the error and the response is left with the body
    read to its end and closed: the bytes of the origin are not put back,
    while the content length and the headers still describe them. *)
Theorem transformed_body (w : World) (m : ExperiFlowMiddleware) (resp : Response)
    (req : Request) (experimentID : string) (calls made : list Call)
    (variantID variantKey : string) (isNew : bool) (spec : TransformSpec)
    (op : Operation) (ops : list Operation) :
  getOrAssignVariant w m req experimentID ("ef_var_" ++ experimentID)
  = (variantID, variantKey, isNew, made) ->
  String.eqb variantID "" = false ->
  GetTransformSpec w experimentID variantID = inr spec ->
  ts_Operations spec = op :: ops ->
  closed (ResponseBody resp) || readFails (ResponseBody resp) = false ->
  let o := applyExperiment w m resp req experimentID calls in
  let rendered :=
    match parseHTML w (pending (ResponseBody resp)) with
    | Some doc =>
        renderHTML w (ar_doc (ApplyTransformations (runtimeOf w experimentID) doc (op :: ops)))
    | None => None
    end in
  match rendered with
  | Some transformed =>
      o_err o = None
      /\ ResponseBody (o_resp o) = NewBody transformed
      /\ ContentLength (o_resp o) = Z.of_nat (String.length transformed)
      /\ Get (Header (o_resp o)) "Content-Length" = Itoa (Z.of_nat (String.length transformed))
      /\ Get (Header (o_resp o)) "X-EF-Transform" = "hit"
  | None =>
      o_err o = Some (match parseHTML w (pending (ResponseBody resp)) with
                      | Some _ => ErrRender
                      | None => ErrParseHTML
                      end)
      /\ ResponseBody (o_resp o) = mkBody "" false true
      /\ ContentLength (o_resp o) = ContentLength resp
      /\ Get (Header (o_resp o)) "Content-Length" = Get (Header resp) "Content-Length"
      /\ Get (Header (o_resp o)) "X-EF-Transform" = Get (Header resp) "X-EF-Transform"
  end.
Proof.
  intros Hg Hid Hspec Hops Hread. cbv zeta. unfold applyExperiment.
  rewrite Hg, Hid, Hspec, Hops.
  set (resp1 := if isNew then _ else _).
  assert (Hb : ResponseBody resp1 = ResponseBody resp /\ ContentLength resp1 = ContentLength resp
               /\ Get (Header resp1) "Content-Length" = Get (Header resp) "Content-Length"
               /\ Get (Header resp1) "X-EF-Transform" = Get (Header resp) "X-EF-Transform").
  { subst resp1. destruct isNew; [|auto]. unfold setAssignmentCookie.
    cbn [ResponseBody ContentLength Header]. repeat split.
    - destruct (String.eqb (Get (Header resp) "Set-Cookie") ""); unfold Get;
        now rewrite ?lookup_Set_ne, ?lookup_Add_ne by canon_ne.
    - destruct (String.eqb (Get (Header resp) "Set-Cookie") ""); unfold Get;
        now rewrite ?lookup_Set_ne, ?lookup_Add_ne by canon_ne. }
  destruct Hb as (Hb & Hl & Hcl & Htr).
  unfold transformBody, ReadAll. rewrite Hb, Hread.
  destruct (parseHTML w (pending (ResponseBody resp))) as [doc|];
    [|cbn [o_err o_resp ResponseBody ContentLength Header Close pending readFails closed]; auto].
  assert (He : ar_err (ApplyTransformations (runtimeOf w experimentID) doc (op :: ops)) = None).
  { unfold ApplyTransformations. destruct (applyFrom _ _ _ _). reflexivity. }
  rewrite He.
  destruct (renderHTML w _) as [transformed|];
    [|cbn [o_err o_resp ResponseBody ContentLength Header Close pending readFails closed]; auto].
  cbn [o_err o_resp].
  match goal with |- context [addHeaders w ?r _ _ _] =>
    pose proof (addHeaders_spec w r experimentID variantKey "hit") as (_ & _ & Ht & _ & Hbody & Hlen);
    set (r0 := r) in *
  end.
  cbv zeta in Ht, Hbody, Hlen. rewrite Hbody, Hlen. subst r0. cbn [ResponseBody ContentLength].
  repeat split; [|exact Ht].
  unfold addHeaders. cbn [Header]. rewrite !Get_Set_ne by canon_ne. apply Get_Set_eq.
Qed.

Lemma transformed_body_witness :
  let ops := [mkOperation "setText" "#cta" "Buy Now" "" 0] in
  let o := applyExperiment (exWorld (inr exVariants) (inr (exSpec ops)))
             (NewExperiFlowMiddleware (exConfig true) ["exp-1"])
             (htmlResponse "<p>Hello</p>") returningVisitor "exp-1" [] in
  o_err o = None
  /\ ResponseBody (o_resp o) = NewBody "<p>Hello</p>"
  /\ ContentLength (o_resp o) = 12
  /\ Get (Header (o_resp o)) "Content-Length" = "12"
  /\ Get (Header (o_resp o)) "X-EF-Transform" = "hit".
Proof.
  exact (transformed_body
           (exWorld (inr exVariants) (inr (exSpec [mkOperation "setText" "#cta" "Buy Now" "" 0])))
           (NewExperiFlowMiddleware (exConfig true) ["exp-1"])
           (htmlResponse "<p>Hello</p>") returningVisitor "exp-1" [] [] "v2" "" false
           (exSpec [mkOperation "setText" "#cta" "Buy Now" "" 0])
           (mkOperation "setText" "#cta" "Buy Now" "" 0) []
           eq_refl eq_refl eq_refl eq_refl eq_refl).
Defined.

(* --------------------------------------------------------------------- *)
(** ** The addresses of a numbered document *)
(* --------------------------------------------------------------------- *)

Lemma numberChildren_labels cs :
  List.Forall (fun c => forall k,
      labels (fst (numberFrom k c)) = List.map Some (List.seq k (List.length (preorder c)))
      /\ snd (numberFrom k c) = (k + List.length (preorder c))%nat) cs ->
  forall k,
    List.map Ptr (List.flat_map preorder (fst (numberChildren numberFrom k cs)))
    = List.map Some (List.seq k (List.length (List.flat_map preorder cs)))
    /\ snd (numberChildren numberFrom k cs)
       = (k + List.length (List.flat_map preorder cs))%nat.
Proof.
  induction 1 as [|c cs Hc _ IH]; intros k; cbn [numberChildren List.flat_map].
  - cbn. split; [reflexivity|lia].
  - destruct (Hc k) as [Hl Hs]. destruct (numberFrom k c) as [c' k1]. cbn [fst snd] in *.
    destruct (IH k1) as [Hl' Hs']. destruct (numberChildren numberFrom k1 cs) as [l k2].
    cbn [fst snd List.flat_map] in *.
    rewrite List.map_app, List.length_app, List.seq_app, List.map_app.
    unfold labels in Hl. rewrite Hl, Hl'. subst k1. split; [reflexivity|lia].
Qed.

Lemma numberFrom_labels (n : Node) : forall k,
  labels (fst (numberFrom k n)) = List.map Some (List.seq k (List.length (preorder n)))
  /\ snd (numberFrom k n) = (k + List.length (preorder n))%nat.
Proof.
  induction n as [p t d a cs IH] using NodeOf_induction. intros k.
  cbn [numberFrom].
  destruct (numberChildren_labels cs IH (S k)) as [Hl Hs].
  destruct (numberChildren numberFrom (S k) cs) as [cs' k'].
  cbn [fst snd] in *. unfold labels. cbn [preorder List.map List.length List.seq Ptr].
  rewrite Hl. split; [reflexivity|lia].
Qed.

Lemma number_wellLabelled doc : wellLabelled (number doc).
Proof.
  unfold wellLabelled, number. destruct (numberFrom_labels doc 0) as [-> _]. split.
  - apply NoDup_fmap_2; [intros x y [=]; assumption|]. apply NoDup_seq.
  - apply List.Forall_forall. intros q Hq. apply List.in_map_iff in Hq as (x & <- & _).
    discriminate.
Qed.

Lemma NoDup_map_inj {A B} (f : A -> B) (l : list A) x y :
  NoDup (List.map f l) -> List.In x l -> List.In y l -> f x = f y -> x = y.
Proof.
  induction l as [|z l IH]; cbn [List.map]; intros Hnd Hx Hy Hf; [contradiction|].
  apply NoDup_cons in Hnd as [Hz Hnd].
  destruct Hx as [->|Hx], Hy as [->|Hy]; auto.
  - exfalso. apply Hz. rewrite Hf. apply list_elem_of_In. now apply List.in_map.
  - exfalso. apply Hz. rewrite <- Hf. apply list_elem_of_In. now apply List.in_map.
Qed.

Lemma ptrsOf_In nodes p :
  List.In p (ptrsOf nodes) <-> exists y, List.In y nodes /\ Ptr y = Some p.
Proof.
  induction nodes as [|n rest IH]; cbn [ptrsOf].
  - split; [contradiction|intros (y & [] & _)].
  - destruct (Ptr n) as [q|] eqn:E.
    + cbn [List.In]. rewrite IH. split.
      * intros [->|(y & Hy & Hp)]; [exists n|exists y]; cbn [List.In]; auto.
      * intros (y & [->|Hy] & Hp); [left; congruence|right; eauto].
    + rewrite IH. split.
      * intros (y & Hy & Hp). exists y. cbn [List.In]. auto.
      * intros (y & [->|Hy] & Hp); [congruence|eauto].
Qed.

Lemma inSet_In ps p : inSet ps (Some p) = true <-> List.In p ps.
Proof.
  cbn [inSet]. rewrite List.existsb_exists. split.
  - intros (x & Hx & E). apply Nat.eqb_eq in E. now subst.
  - intros H. exists p. split; [assumption|apply Nat.eqb_refl].
Qed.

(** In a well-labelled document the addresses found by a selection tell
    the selected nodes from the others. *)
Lemma inSet_selected (m : PNode -> bool) T x :
  wellLabelled T -> List.In x (preorder T) ->
  inSet (ptrsOf (List.filter m (preorder T))) (Ptr x) = m x.
Proof.
  intros [Hnd Hsome] Hx.
  assert (Hp : Ptr x <> None).
  { rewrite List.Forall_forall in Hsome. apply Hsome. unfold labels. now apply List.in_map. }
  destruct (Ptr x) as [p|] eqn:E; [|contradiction].
  destruct (m x) eqn:Hm.
  - apply inSet_In, ptrsOf_In. exists x. split; [|assumption].
    apply List.filter_In. auto.
  - apply not_true_is_false. intros H. apply inSet_In, ptrsOf_In in H as (y & Hy & Hpy).
    apply List.filter_In in Hy as [Hy Hmy].
    assert (y = x) by (apply (NoDup_map_inj Ptr (preorder T)); auto; congruence).
    congruence.
Qed.

Lemma applyOperation_fst rt i doc op :
  fst (applyOperation rt i doc op)
  = erase (fst (applyToNodes (parseFragment rt) (rangeOrder rt i) op
                  (findNodesBySelector (number doc) (op_Selector op)) 0 (number doc))).
Proof.
  unfold applyOperation.
  destruct (findNodesBySelector (number doc) (op_Selector op)) as [|node nodes].
  - cbn [applyToNodes fst]. now rewrite erase_number.
  - destruct (applyToNodes _ _ _ _ _ _). reflexivity.
Qed.

Lemma findNodes_filter {P} (doc : NodeOf P) selector :
  findNodesBySelector doc selector
  = List.filter (matchFunc (TrimSpace selector)) (preorder doc).
Proof. unfold findNodesBySelector. now rewrite walk_preorder. Qed.

(* --------------------------------------------------------------------- *)
(** ** Which operations are reported *)
(* --------------------------------------------------------------------- *)

Lemma applyToNode_known parse order op p doc :
  knownType (op_Type op) = true -> exists doc', applyToNode parse order op p doc = inl doc'.
Proof.
  unfold knownType, applyToNode. cbn [existsb]. intros H.
  repeat (destruct (String.eqb (op_Type op) _); [eexists; reflexivity|]).
  discriminate H.
Qed.

Lemma applyToNodes_known parse orders op nodes :
  knownType (op_Type op) = true ->
  forall j doc, snd (applyToNodes parse orders op nodes j doc) = None.
Proof.
  intros Hty. induction nodes as [|node rest IH]; intros j doc; cbn [applyToNodes]; [reflexivity|].
  destruct (Ptr node) as [p|]; [|apply IH].
  destruct (applyToNode_known parse (orders j) op p doc Hty) as [doc' ->]. apply IH.
Qed.

Lemma applyOperation_snd rt i doc op :
  snd (applyOperation rt i doc op)
  = match findNodesBySelector doc (op_Selector op) with
    | [] => Some (ErrNoElements (op_Selector op))
    | _ :: _ =>
        if knownType (op_Type op) then None else Some (ErrUnknownType (op_Type op))
    end.
Proof.
  unfold applyOperation. rewrite <- findNodes_number.
  destruct (findNodesBySelector (number doc) (op_Selector op)) as [|node nodes] eqn:E;
    [reflexivity|].
  cbn [List.map].
  destruct (knownType (op_Type op)) eqn:Hty.
  - pose proof (applyToNodes_known (parseFragment rt) (rangeOrder rt i) op (node :: nodes) Hty 0
                  (number doc)) as Hs.
    destruct (applyToNodes _ _ _ _ _ _). exact Hs.
  - assert (Hp : Ptr node <> None).
    { destruct (number_wellLabelled doc) as [_ Hsome].
      rewrite List.Forall_forall in Hsome. apply Hsome. unfold labels. apply List.in_map.
      rewrite findNodes_filter in E.
      assert (Hin : List.In node (node :: nodes)) by now left.
      rewrite <- E in Hin. now apply List.filter_In in Hin. }
    cbn [applyToNodes]. destruct (Ptr node) as [p|]; [|contradiction].
    now rewrite applyToNode_unknown.
Qed.

(** X10.  [applyOperation] returns an error in two cases only, and the
    selection is checked first: when the selector finds no node, the error
    names the selector, whatever the type; when it finds some and the type
    is none of the seven, the error names the type.  An operation of a
    known type whose selector finds a node never fails, whatever its value
    and property are.  Whenever an error is returned the document is left
    untouched. *)
Theorem applyOperation_error (rt : Runtime) (i : nat) (doc : Node) (op : Operation) :
  snd (applyOperation rt i doc op)
  = match findNodesBySelector doc (op_Selector op) with
    | [] => Some (ErrNoElements (op_Selector op))
    | _ :: _ =>
        if knownType (op_Type op) then None else Some (ErrUnknownType (op_Type op))
    end
  /\ match snd (applyOperation rt i doc op) with
     | Some _ => fst (applyOperation rt i doc op) = doc
     | None => True
     end.
Proof.
  split; [apply applyOperation_snd|].
  rewrite applyOperation_snd.
  pose proof (applyOperation_skipped rt i doc op) as Hs. unfold skipped in Hs.
  destruct (findNodesBySelector doc (op_Selector op)); [now apply Hs|].
  destruct (knownType (op_Type op)); [exact I|now apply Hs].
Qed.

(* --------------------------------------------------------------------- *)
(** ** The operation [remove] *)
(* --------------------------------------------------------------------- *)

Lemma removeAt_Ptr p n : Ptr (removeAt p n) = Ptr n.
Proof. destruct n; reflexivity. Qed.

Lemma removeSet_Ptr S n : Ptr (removeSet S n) = Ptr n.
Proof. destruct n; reflexivity. Qed.

Lemma removeAt_removeSet p n : removeAt p n = removeSet (ptEq p) n.
Proof.
  induction n as [q t d a cs IH] using NodeOf_induction.
  cbn [removeAt removeSet]. f_equal.
  induction IH as [|c cs Hc _ IHcs]; cbn [List.map List.filter List.flat_map]; [reflexivity|].
  unfold pointsTo at 1. rewrite removeAt_Ptr. fold (ptEq p (Ptr c)).
  destruct (ptEq p (Ptr c)); cbn [negb app]; [exact IHcs|]. now rewrite Hc, IHcs.
Qed.

Lemma removeSet_removeSet S1 S2 n :
  removeSet S2 (removeSet S1 n) = removeSet (fun q => S1 q || S2 q) n.
Proof.
  induction n as [q t d a cs IH] using NodeOf_induction.
  cbn [removeSet]. f_equal.
  induction IH as [|c cs Hc _ IHcs]; cbn [List.flat_map]; [reflexivity|].
  destruct (S1 (Ptr c)); cbn [orb app]; [exact IHcs|].
  cbn [List.flat_map]. rewrite removeSet_Ptr.
  destruct (S2 (Ptr c)); cbn [app]; [exact IHcs|]. now rewrite Hc, IHcs.
Qed.

(** Two sets that agree on the nodes below the root remove the same. *)
Lemma removeSet_ext S (m : PNode -> bool) n :
  (forall x, List.In x (List.flat_map preorder (Children n)) -> S (Ptr x) = m x) ->
  (forall x y : PNode, Ptr x = Ptr y -> Type_ x = Type_ y -> Data x = Data y ->
                       Attr x = Attr y -> m x = m y) ->
  removeSet S n = removeSelected m n.
Proof.
  intros Hin Hm. revert Hin.
  induction n as [q t d a cs IH] using NodeOf_induction.
  cbn [Children removeSet removeSelected]. intros Hin. f_equal.
  induction IH as [|c cs Hc _ IHcs]; cbn [List.flat_map]; [reflexivity|].
  cbn [List.flat_map] in Hin.
  rewrite (Hin c) by (apply List.in_or_app; left; destruct c; now left).
  rewrite IHcs by (intros x Hx; apply Hin, List.in_or_app; now right).
  destruct (m c); [reflexivity|]. rewrite Hc; [reflexivity|].
  intros x Hx. apply Hin, List.in_or_app. left. destruct c. right. exact Hx.
Qed.

Lemma inSet_nil q : inSet [] q = false.
Proof. now destruct q. Qed.

Lemma inSet_cons p ps q : inSet (p :: ps) q = ptEq p q || inSet ps q.
Proof. destruct q as [p'|]; [|reflexivity]. cbn [inSet existsb ptEq]. now rewrite Nat.eqb_sym. Qed.

Lemma removeSet_same S S' n : (forall q, S q = S' q) -> removeSet S n = removeSet S' n.
Proof.
  intros HS. induction n as [q t d a cs IH] using NodeOf_induction.
  cbn [removeSet]. f_equal.
  induction IH as [|c cs Hc _ IHcs]; cbn [List.flat_map]; [reflexivity|].
  now rewrite HS, Hc, IHcs.
Qed.

Lemma removeSet_empty n : removeSet (inSet []) n = n.
Proof.
  induction n as [q t d a cs IH] using NodeOf_induction.
  cbn [removeSet]. f_equal.
  induction IH as [|c cs Hc _ IHcs]; cbn [List.flat_map]; [reflexivity|].
  rewrite inSet_nil. cbn [app]. now rewrite Hc, IHcs.
Qed.

Lemma applyToNodes_remove parse orders op :
  op_Type op = OpRemove ->
  forall nodes j T,
    applyToNodes parse orders op nodes j T = (removeSet (inSet (ptrsOf nodes)) T, None).
Proof.
  intros Hty. induction nodes as [|node rest IH]; intros j T; cbn [applyToNodes ptrsOf].
  - now rewrite removeSet_empty.
  - destruct (Ptr node) as [p|]; [|apply IH].
    unfold applyToNode. rewrite Hty. cbn [String.eqb Ascii.eqb Bool.eqb OpSetText OpSetStyle OpSetAttr OpSetHTML OpRemove].
    rewrite IH, removeAt_removeSet, removeSet_removeSet. f_equal.
    apply removeSet_same. intros q. now rewrite inSet_cons.
Qed.

Lemma matchFunc_shallow {P Q} (s : string) (x : NodeOf P) (y : NodeOf Q) :
  Type_ x = Type_ y -> Data x = Data y -> Attr x = Attr y -> matchFunc s x = matchFunc s y.
Proof.
  destruct x as [p t d a cs], y as [p' t' d' a' cs']. cbn [Type_ Data Attr].
  intros -> -> ->. unfold matchFunc.
  destruct (HasPrefix s "."); [reflexivity|].
  destruct (HasPrefix s "#"); [reflexivity|].
  destruct (HasPrefix s "[" && HasSuffix s "]"); [|reflexivity].
  destruct (SplitN2 _ _) as [|part0 [|part1 rest]]; reflexivity.
Qed.

Lemma erase_removeSelected {P} (m : NodeOf P -> bool) (m' : Node -> bool) (n : NodeOf P) :
  (forall x, m' (erase x) = m x) ->
  erase (removeSelected m n) = removeSelected m' (erase n).
Proof.
  intros Hm. induction n as [q t d a cs IH] using NodeOf_induction.
  cbn [removeSelected erase]. f_equal.
  induction IH as [|c cs Hc _ IHcs]; cbn [List.flat_map List.map]; [reflexivity|].
  rewrite Hm. destruct (m c); cbn [List.map app]; [exact IHcs|]. now rewrite Hc, IHcs.
Qed.

Lemma removeSelected_again {P} (m : NodeOf P -> bool) (n : NodeOf P) :
  (forall x y : NodeOf P, Type_ x = Type_ y -> Data x = Data y -> Attr x = Attr y -> m x = m y) ->
  removeSelected m (removeSelected m n) = removeSelected m n.
Proof.
  intros Hm. induction n as [q t d a cs IH] using NodeOf_induction.
  cbn [removeSelected]. f_equal.
  induction IH as [|c cs Hc _ IHcs]; cbn [List.flat_map]; [reflexivity|].
  destruct (m c) eqn:E; [exact IHcs|]. cbn [List.flat_map app].
  rewrite (Hm (removeSelected m c) c) by (destruct c; reflexivity).
  now rewrite E, Hc, IHcs.
Qed.

(** X11.  The operation [remove] takes out of the document exactly the
    selected nodes below the root, each with everything that hangs below
    it; every other node stays where it was, unchanged and in order.  The
    root is never removed, selected or not.  Applying the operation a
    second time changes nothing more. *)
Theorem remove_operation (rt : Runtime) (i i' : nat) (doc : Node) (op : Operation) :
  op_Type op = OpRemove ->
  let doc' := fst (applyOperation rt i doc op) in
  doc' = removeSelected (matchFunc (TrimSpace (op_Selector op))) doc
  /\ fst (applyOperation rt i' doc' op) = doc'.
Proof.
  intros Hty. cbv zeta.
  assert (Hchar : forall k d, fst (applyOperation rt k d op)
                              = removeSelected (matchFunc (TrimSpace (op_Selector op))) d).
  { intros k d. rewrite applyOperation_fst, applyToNodes_remove by assumption. cbn [fst].
    rewrite findNodes_filter.
    rewrite (removeSet_ext _ (matchFunc (TrimSpace (op_Selector op)))).
    - rewrite (erase_removeSelected _ (matchFunc (TrimSpace (op_Selector op))))
        by apply matchFunc_erase.
      now rewrite erase_number.
    - intros x Hx. apply inSet_selected; [apply number_wellLabelled|].
      destruct (number d). right. exact Hx.
    - intros x y _ Ht Hd Ha. now apply matchFunc_shallow. }
  rewrite !Hchar. split; [reflexivity|].
  apply removeSelected_again. intros x y. apply matchFunc_shallow.
Qed.

Lemma remove_operation_witness :
  fst (applyOperation plainRuntime 0 page (mkOperation "remove" " p" "" "" 0))
  = document
      [ element "html" nil
          [ element "head" nil nil;
            element "body" nil
              [ element "button" [("id", "cta"); ("class", "btn primary")]
                  [text "Get Started"] ] ] ].
Proof.
  rewrite (proj1 (remove_operation plainRuntime 0 1 page (mkOperation "remove" " p" "" "" 0)
                    eq_refl)).
  reflexivity.
Defined.

(* --------------------------------------------------------------------- *)
(** ** The operations [setText] and [setHTML] *)
(* --------------------------------------------------------------------- *)

Lemma replaceSet_fresh S new (n : Node) :
  S None = false -> replaceSet S new (fresh n) = fresh n.
Proof.
  intros HS. induction n as [q t d a cs IH] using NodeOf_induction.
  cbn [fresh replaceSet]. change (@inhabitant (option nat) _) with (@None nat). rewrite HS.
  f_equal. induction IH as [|c cs Hc _ IHcs]; cbn [List.map]; [reflexivity|].
  now rewrite Hc, IHcs.
Qed.

Lemma mutateAt_replaceSet p (new : list PNode) n :
  mutateAt p (fun x => mkNode (Ptr x) (Type_ x) (Data x) (Attr x) new) n
  = replaceSet (ptEq p) new n.
Proof.
  induction n as [q t d a cs IH] using NodeOf_induction.
  cbn [mutateAt replaceSet]. unfold pointsTo. cbn [Ptr Type_ Data Attr]. fold (ptEq p q).
  destruct (ptEq p q); [reflexivity|]. f_equal.
  induction IH as [|c cs Hc _ IHcs]; cbn [List.map]; [reflexivity|]. now rewrite Hc, IHcs.
Qed.

Lemma replaceSet_replaceSet S1 S2 (new : list Node) n :
  S2 None = false ->
  replaceSet S2 (List.map fresh new) (replaceSet S1 (List.map fresh new) n)
  = replaceSet (fun q => S1 q || S2 q) (List.map fresh new) n.
Proof.
  intros HS. induction n as [q t d a cs IH] using NodeOf_induction.
  cbn [replaceSet]. destruct (S1 q) eqn:E1; cbn [orb replaceSet].
  - destruct (S2 q); [reflexivity|]. f_equal.
    rewrite List.map_map. apply List.map_ext. intros c. now apply replaceSet_fresh.
  - destruct (S2 q); [reflexivity|]. f_equal. rewrite List.map_map.
    induction IH as [|c cs Hc _ IHcs]; cbn [List.map]; [reflexivity|]. now rewrite Hc, IHcs.
Qed.

Lemma replaceSet_same S S' new n : (forall q, S q = S' q) -> replaceSet S new n = replaceSet S' new n.
Proof.
  intros HS. induction n as [q t d a cs IH] using NodeOf_induction.
  cbn [replaceSet]. rewrite HS. destruct (S' q); [reflexivity|]. f_equal.
  induction IH as [|c cs Hc _ IHcs]; cbn [List.map]; [reflexivity|]. now rewrite Hc, IHcs.
Qed.

Lemma replaceSet_empty new n : replaceSet (inSet []) new n = n.
Proof.
  induction n as [q t d a cs IH] using NodeOf_induction.
  cbn [replaceSet]. rewrite inSet_nil. f_equal.
  induction IH as [|c cs Hc _ IHcs]; cbn [List.map]; [reflexivity|]. now rewrite Hc, IHcs.
Qed.

Lemma replaceSet_selected S (m : PNode -> bool) new n :
  (forall x, List.In x (preorder n) -> S (Ptr x) = m x) ->
  replaceSet S new n = replaceSelected m new n.
Proof.
  induction n as [q t d a cs IH] using NodeOf_induction. intros Hin.
  cbn [replaceSet replaceSelected].
  rewrite <- (Hin (mkNode q t d a cs)) by now left. cbn [Ptr].
  destruct (S q); [reflexivity|]. f_equal.
  assert (Hcs : forall x, List.In x (List.flat_map preorder cs) -> S (Ptr x) = m x).
  { intros x Hx. apply Hin. now right. }
  clear Hin. induction IH as [|c cs Hc _ IHcs]; cbn [List.map]; [reflexivity|].
  cbn [List.flat_map] in Hcs.
  rewrite Hc by (intros x Hx; apply Hcs, List.in_or_app; now left).
  rewrite IHcs by (intros x Hx; apply Hcs, List.in_or_app; now right).
  reflexivity.
Qed.

Lemma erase_fresh {P} `{Inhabited P} (n : Node) : erase (fresh (P:=P) n) = n.
Proof.
  induction n as [q t d a cs IH] using NodeOf_induction.
  cbn [fresh erase]. destruct q. f_equal.
  induction IH as [|c cs Hc _ IHcs]; cbn [List.map]; [reflexivity|]. now rewrite Hc, IHcs.
Qed.

Lemma erase_replaceSelected {P} `{Inhabited P} (m : NodeOf P -> bool) (m' : Node -> bool)
    (new : list Node) (n : NodeOf P) :
  (forall x, m' (erase x) = m x) ->
  erase (replaceSelected m (List.map fresh new) n) = replaceSelected m' new (erase n).
Proof.
  intros Hm. induction n as [q t d a cs IH] using NodeOf_induction.
  cbn [replaceSelected]. rewrite <- (Hm (mkNode q t d a cs)). cbn [erase replaceSelected].
  destruct (m' _); cbn [erase]; f_equal.
  - rewrite List.map_map. rewrite <- (List.map_id new) at 2.
    apply List.map_ext. intros c. apply erase_fresh.
  - rewrite !List.map_map.
    induction IH as [|c cs Hc _ IHcs]; cbn [List.map]; [reflexivity|]. now rewrite Hc, IHcs.
Qed.

Lemma applyToNode_replace parse order op p T :
  op_Type op = OpSetText \/ op_Type op = OpSetHTML ->
  applyToNode parse order op p T
  = inl (replaceSet (ptEq p) (List.map fresh (newChildren parse op)) T).
Proof.
  intros Hty. rewrite <- mutateAt_replaceSet. unfold applyToNode, newChildren.
  destruct Hty as [Hty|Hty]; rewrite Hty;
    cbn [String.eqb Ascii.eqb Bool.eqb OpSetText OpSetStyle OpSetAttr OpSetHTML].
  - reflexivity.
  - unfold setHTML. destruct (parse (op_Value op)); reflexivity.
Qed.

Lemma applyToNodes_replace parse orders op :
  op_Type op = OpSetText \/ op_Type op = OpSetHTML ->
  forall nodes j T,
    applyToNodes parse orders op nodes j T
    = (replaceSet (inSet (ptrsOf nodes)) (List.map fresh (newChildren parse op)) T, None).
Proof.
  intros Hty. induction nodes as [|node rest IH]; intros j T; cbn [applyToNodes ptrsOf].
  - now rewrite replaceSet_empty.
  - destruct (Ptr node) as [p|]; [|apply IH].
    rewrite applyToNode_replace, IH by assumption.
    rewrite replaceSet_replaceSet by reflexivity.
    f_equal. apply replaceSet_same. intros q. now rewrite inSet_cons.
Qed.

Lemma replaceSelected_again {P} (m : NodeOf P -> bool) new (n : NodeOf P) :
  (forall x y : NodeOf P, Type_ x = Type_ y -> Data x = Data y -> Attr x = Attr y -> m x = m y) ->
  replaceSelected m new (replaceSelected m new n) = replaceSelected m new n.
Proof.
  intros Hm. induction n as [q t d a cs IH] using NodeOf_induction.
  cbn [replaceSelected]. destruct (m (mkNode q t d a cs)) eqn:E; cbn [replaceSelected].
  - rewrite (Hm (mkNode q t d a new) (mkNode q t d a cs)) by reflexivity. now rewrite E.
  - rewrite (Hm (mkNode q t d a _) (mkNode q t d a cs)) by reflexivity. rewrite E. f_equal.
    rewrite List.map_map. clear E.
    induction IH as [|c cs' Hc _ IHcs]; cbn [List.map]; [reflexivity|]. now rewrite Hc, IHcs.
Qed.

(** X12.  The operations [setText] and [setHTML] replace the children of
    every selected node, in [setText] by one text node holding the value
    and in [setHTML] by the nodes that the fragment parser makes of the
    value (by nothing when it fails).  A node selected below another
    selected node is gone with the children of that node.  Every node that
    stays keeps its type, its name and its attributes.  Applying the
    operation a second time changes nothing more. *)
Theorem replace_operation (rt : Runtime) (i i' : nat) (doc : Node) (op : Operation) :
  op_Type op = OpSetText \/ op_Type op = OpSetHTML ->
  let doc' := fst (applyOperation rt i doc op) in
  doc' = replaceSelected (matchFunc (TrimSpace (op_Selector op)))
           (newChildren (parseFragment rt) op) doc
  /\ fst (applyOperation rt i' doc' op) = doc'.
Proof.
  intros Hty. cbv zeta.
  assert (Hchar : forall k d, fst (applyOperation rt k d op)
                              = replaceSelected (matchFunc (TrimSpace (op_Selector op)))
                                  (newChildren (parseFragment rt) op) d).
  { intros k d. rewrite applyOperation_fst, applyToNodes_replace by assumption. cbn [fst].
    rewrite findNodes_filter.
    rewrite (replaceSet_selected _ (matchFunc (TrimSpace (op_Selector op)))).
    - rewrite (erase_replaceSelected _ (matchFunc (TrimSpace (op_Selector op))))
        by apply matchFunc_erase.
      now rewrite erase_number.
    - intros x Hx. apply inSet_selected; [apply number_wellLabelled|exact Hx]. }
  rewrite !Hchar. split; [reflexivity|].
  apply replaceSelected_again. intros x y. apply matchFunc_shallow.
Qed.

Lemma replace_operation_witness :
  fst (applyOperation plainRuntime 0
         (element "div" [("class", "x")] [element "p" [("class", "x")] [text "a"]; text "b"])
         (mkOperation "setText" ".x" "new" "" 0))
  = element "div" [("class", "x")] [text "new"].
Proof.
  rewrite (proj1 (replace_operation plainRuntime 0 1
             (element "div" [("class", "x")] [element "p" [("class", "x")] [text "a"]; text "b"])
             (mkOperation "setText" ".x" "new" "" 0) (or_introl eq_refl))).
  reflexivity.
Defined.

(* --------------------------------------------------------------------- *)
(** ** The operations on attributes *)
(* --------------------------------------------------------------------- *)

Lemma mapAttrs_id {P} (h : NodeOf P -> list Attribute) (n : NodeOf P) :
  (forall x, List.In x (preorder n) -> h x = Attr x) -> mapAttrs h n = n.
Proof.
  induction n as [q t d a cs IH] using NodeOf_induction. intros Hin.
  cbn [mapAttrs]. rewrite (Hin (mkNode q t d a cs)) by now left. cbn [Attr]. f_equal.
  assert (Hcs : forall x, List.In x (List.flat_map preorder cs) -> h x = Attr x).
  { intros x Hx. apply Hin. now right. }
  clear Hin. induction IH as [|c cs Hc _ IHcs]; cbn [List.map]; [reflexivity|].
  cbn [List.flat_map] in Hcs.
  rewrite Hc by (intros x Hx; apply Hcs, List.in_or_app; now left).
  rewrite IHcs by (intros x Hx; apply Hcs, List.in_or_app; now right).
  reflexivity.
Qed.

Lemma mapAttrs_ext_in {P} (h h' : NodeOf P -> list Attribute) (n : NodeOf P) :
  (forall x, List.In x (preorder n) -> h x = h' x) -> mapAttrs h n = mapAttrs h' n.
Proof.
  induction n as [q t d a cs IH] using NodeOf_induction. intros Hin.
  cbn [mapAttrs]. rewrite (Hin (mkNode q t d a cs)) by now left. f_equal.
  assert (Hcs : forall x, List.In x (List.flat_map preorder cs) -> h x = h' x).
  { intros x Hx. apply Hin. now right. }
  clear Hin. induction IH as [|c cs Hc _ IHcs]; cbn [List.map]; [reflexivity|].
  cbn [List.flat_map] in Hcs.
  rewrite Hc by (intros x Hx; apply Hcs, List.in_or_app; now left).
  rewrite IHcs by (intros x Hx; apply Hcs, List.in_or_app; now right).
  reflexivity.
Qed.

Lemma mapAttrs_mapAttrs {P} (h1 h2 : NodeOf P -> list Attribute) (n : NodeOf P) :
  mapAttrs h2 (mapAttrs h1 n) = mapAttrs (fun x => h2 (mapAttrs h1 x)) n.
Proof.
  induction n as [q t d a cs IH] using NodeOf_induction.
  cbn [mapAttrs]. f_equal. rewrite List.map_map.
  induction IH as [|c cs Hc _ IHcs]; cbn [List.map]; [reflexivity|]. now rewrite Hc, IHcs.
Qed.

Lemma labels_mapAttrs {P} (h : NodeOf P -> list Attribute) (n : NodeOf P) :
  labels (mapAttrs h n) = labels n.
Proof.
  unfold labels. induction n as [q t d a cs IH] using NodeOf_induction.
  cbn [mapAttrs preorder List.map Ptr]. f_equal.
  induction IH as [|c cs Hc _ IHcs]; cbn [List.map List.flat_map]; [reflexivity|].
  now rewrite !List.map_app, Hc, IHcs.
Qed.

Lemma NoDup_labels_children (q : option nat) t d a (c : PNode) cs :
  NoDup (labels (mkNode q t d a (c :: cs))) ->
  NoDup (labels c) /\ NoDup (labels (mkNode q t d a cs)).
Proof.
  unfold labels. cbn [preorder List.map List.flat_map Ptr]. rewrite List.map_app.
  intros H. apply NoDup_cons in H as [Hq H]. apply NoDup_app in H as (Hc & _ & Hcs).
  split; [exact Hc|]. apply NoDup_cons. split; [|exact Hcs].
  intros Hin. apply Hq. apply elem_of_app. now right.
Qed.

(** In a document where no two nodes have the same address, a mutation of
    the attributes at an address rewrites the attributes of the node at
    this address and nothing else. *)
Lemma mutateAt_onAttrs p g (T : PNode) :
  NoDup (labels T) -> mutateAt p (onAttrs g) T = mapAttrs (assocAttrs [(p, g)]) T.
Proof.
  induction T as [q t d a cs IH] using NodeOf_induction. intros Hnd.
  cbn [mutateAt mapAttrs assocAttrs]. unfold pointsTo. cbn [Ptr Type_ Attr]. fold (ptEq p q).
  destruct (ptEq p q) eqn:E.
  - unfold onAttrs. cbn [Ptr Type_ Data Attr Children]. f_equal.
    symmetry. rewrite <- (List.map_id cs) at 2. apply List.map_ext_in. intros c Hc.
    apply mapAttrs_id. intros x Hx. cbn [assocAttrs].
    destruct (ptEq p (Ptr x)) eqn:Ex; [|reflexivity]. exfalso.
    destruct q as [q|]; [|discriminate]. cbn [ptEq] in E. apply Nat.eqb_eq in E. subst q.
    destruct (Ptr x) as [p'|] eqn:Ep; [|discriminate]. cbn [ptEq] in Ex.
    apply Nat.eqb_eq in Ex. subst p'.
    unfold labels in Hnd. cbn [preorder List.map Ptr] in Hnd.
    apply NoDup_cons in Hnd as [Hq _]. apply Hq. apply list_elem_of_In.
    apply List.in_map_iff. exists x. split; [assumption|].
    apply List.in_flat_map. eauto.
  - f_equal. induction IH as [|c cs Hc _ IHcs]; cbn [List.map]; [reflexivity|].
    apply NoDup_labels_children in Hnd as [Hndc Hnd].
    now rewrite (Hc Hndc), (IHcs Hnd).
Qed.

Lemma mutateAt_ext p (f f' : PNode -> PNode) T :
  (forall x, f x = f' x) -> mutateAt p f T = mutateAt p f' T.
Proof.
  intros Hf. induction T as [q t d a cs IH] using NodeOf_induction.
  cbn [mutateAt]. rewrite Hf. destruct (pointsTo p _); [reflexivity|]. f_equal.
  induction IH as [|c cs Hc _ IHcs]; cbn [List.map]; [reflexivity|]. now rewrite Hc, IHcs.
Qed.

Lemma assocAttrs_absent al (x : PNode) :
  List.Forall (fun pg => ptEq (fst pg) (Ptr x) = false) al -> assocAttrs al x = Attr x.
Proof.
  induction 1 as [|[p g] al Hp _ IH]; cbn [assocAttrs]; [reflexivity|].
  cbn [fst] in Hp. now rewrite Hp.
Qed.

Lemma assocAttrs_shallow al (x y : PNode) :
  Ptr x = Ptr y -> Type_ x = Type_ y -> Attr x = Attr y -> assocAttrs al x = assocAttrs al y.
Proof.
  intros Hp Ht Ha. induction al as [|[p g] al IH]; cbn [assocAttrs]; [exact Ha|].
  now rewrite Hp, Ht, Ha, IH.
Qed.

Lemma attrMutations_fst gj nodes j : List.map fst (attrMutations gj nodes j) = ptrsOf nodes.
Proof.
  revert j. induction nodes as [|n rest IH]; intros j; cbn [attrMutations ptrsOf]; [reflexivity|].
  destruct (Ptr n); cbn [List.map fst]; now rewrite IH.
Qed.

Lemma applyToNodes_attrs parse orders op
    (gj : nat -> NodeType -> list Attribute -> list Attribute) :
  (forall j p T, applyToNode parse (orders j) op p T = inl (mutateAt p (onAttrs (gj j)) T)) ->
  forall nodes j T,
    NoDup (labels T) -> NoDup (ptrsOf nodes) ->
    applyToNodes parse orders op nodes j T
    = (mapAttrs (assocAttrs (attrMutations gj nodes j)) T, None).
Proof.
  intros Hstep. induction nodes as [|node rest IH]; intros j T HT Hnodes;
    cbn [applyToNodes ptrsOf attrMutations] in *.
  - rewrite mapAttrs_id; [reflexivity|]. intros x _. reflexivity.
  - destruct (Ptr node) as [p|]; [|now apply IH].
    apply NoDup_cons in Hnodes as [Hp Hrest].
    rewrite Hstep, mutateAt_onAttrs by assumption.
    rewrite IH by (rewrite ?labels_mapAttrs; assumption).
    f_equal. rewrite mapAttrs_mapAttrs. apply mapAttrs_ext_in. intros x Hx.
    cbn [assocAttrs]. destruct (ptEq p (Ptr x)) eqn:E.
    + rewrite assocAttrs_absent.
      * destruct x. cbn [mapAttrs Attr assocAttrs Ptr Type_] in *. now rewrite E.
      * apply List.Forall_forall. intros [p' g'] Hin. cbn [fst].
        assert (Hp' : List.In p' (ptrsOf rest)).
        { rewrite <- (attrMutations_fst gj rest (S j)). apply List.in_map_iff.
          exists (p', g'). auto. }
        destruct x as [[q|] t d a cs]; cbn [mapAttrs Ptr ptEq] in *; [|reflexivity].
        apply Nat.eqb_eq in E. subst q. apply Nat.eqb_neq. intros ->.
        apply Hp. now apply list_elem_of_In.
    + apply assocAttrs_shallow; destruct x; cbn [mapAttrs Ptr Type_ Attr assocAttrs] in *;
        try reflexivity. now rewrite E.
Qed.

Lemma NoDup_ptrsOf_filter (m : PNode -> bool) T :
  wellLabelled T -> NoDup (ptrsOf (List.filter m (preorder T))).
Proof.
  intros [Hnd _]. unfold labels in Hnd.
  induction (preorder T) as [|x l IH]; cbn [List.filter ptrsOf]; [constructor|].
  cbn [List.map] in Hnd. apply NoDup_cons in Hnd as [Hx Hnd].
  destruct (m x); [|auto]. cbn [ptrsOf].
  destruct (Ptr x) as [p|] eqn:E; [|auto].
  apply NoDup_cons. split; [|auto].
  intros Hin. apply list_elem_of_In, ptrsOf_In in Hin as (y & Hy & Hpy).
  apply Hx. rewrite <- Hpy. apply list_elem_of_In. apply List.in_map.
  now apply List.filter_In in Hy.
Qed.

Lemma erase_mapAttrs {P} (h : NodeOf P -> list Attribute) (h' : Node -> list Attribute)
    (n : NodeOf P) :
  (forall x, List.In x (preorder n) -> h x = h' (erase x)) ->
  erase (mapAttrs h n) = mapAttrs h' (erase n).
Proof.
  induction n as [q t d a cs IH] using NodeOf_induction. intros Hin.
  cbn [mapAttrs erase]. rewrite (Hin (mkNode q t d a cs)) by now left. cbn [erase]. f_equal.
  assert (Hcs : forall x, List.In x (List.flat_map preorder cs) -> h x = h' (erase x)).
  { intros x Hx. apply Hin. now right. }
  clear Hin. rewrite !List.map_map.
  induction IH as [|c cs Hc _ IHcs]; cbn [List.map]; [reflexivity|].
  cbn [List.flat_map] in Hcs.
  rewrite Hc by (intros x Hx; apply Hcs, List.in_or_app; now left).
  rewrite IHcs by (intros x Hx; apply Hcs, List.in_or_app; now right).
  reflexivity.
Qed.

Lemma setAttr_onAttrs {P} (n : NodeOf P) key value :
  setAttr n key value = onAttrs (setAttrAttrs key value) n.
Proof.
  destruct n as [q t d a cs]. unfold setAttr, onAttrs, setAttrAttrs, setAttr, isElement.
  cbn [Ptr Type_ Data Attr Children].
  destruct (negb (NodeType_eqb t ElementNode)); [reflexivity|].
  destruct (lookupAttr key a); reflexivity.
Qed.

Lemma setStyle_onAttrs {P} (order : RangeOrder) (n : NodeOf P) property value :
  setStyle order n property value = onAttrs (setStyleAttrs order property value) n.
Proof.
  destruct n as [q t d a cs]. unfold setStyle, onAttrs, setStyleAttrs, setStyle, isElement, stylesOf.
  cbn [Ptr Type_ Data Attr Children].
  destruct (negb (NodeType_eqb t ElementNode)); [reflexivity|].
  destruct (lookupAttr "style" a); reflexivity.
Qed.

Lemma assocAttrs_const g nodes j (x : PNode) :
  assocAttrs (attrMutations (fun _ => g) nodes j) x
  = if inSet (ptrsOf nodes) (Ptr x) then g (Type_ x) (Attr x) else Attr x.
Proof.
  revert j. induction nodes as [|n rest IH]; intros j; cbn [attrMutations ptrsOf].
  - cbn [assocAttrs]. now rewrite inSet_nil.
  - destruct (Ptr n) as [p|]; [|apply IH].
    cbn [assocAttrs]. rewrite inSet_cons, IH. now destruct (ptEq p (Ptr x)).
Qed.

Lemma setAttr_selected_again {P} (m : NodeOf P -> bool) key value (n : NodeOf P) :
  (forall x y : NodeOf P, Type_ x = Type_ y -> Data x = Data y -> Attr x = Attr y -> m x = m y) ->
  let h := fun x => if m x then Attr (setAttr x key value) else Attr x in
  mapAttrs h (mapAttrs h n) = mapAttrs h n.
Proof.
  intros Hm h. rewrite mapAttrs_mapAttrs. apply mapAttrs_ext_in. intros x _.
  assert (Hs : forall y : NodeOf P,
             Type_ y = Type_ x -> Data y = Data x -> Attr y = h x -> h y = h x).
  { intros y Ht Hd Ha. subst h. cbn beta in *. destruct (m x) eqn:E.
    - destruct (m y); [|exact Ha].
      rewrite <- (setAttr_again x key value).
      rewrite (setAttr_onAttrs y), (setAttr_onAttrs (setAttr x key value)).
      unfold onAttrs. cbn [Attr]. rewrite Ha, Ht.
      rewrite (setAttr_onAttrs x). reflexivity.
    - rewrite (Hm y x), E by assumption. exact Ha. }
  apply Hs; destruct x; reflexivity.
Qed.

(** X13.  The operation [setAttr] sets the attribute on exactly the
    selected nodes, each as [setAttr] does on that node alone (an element
    gets the value on its first attribute of that name, or a new last
    attribute; a node that is not an element is left alone), and changes
    nothing else: the tree, the names and the attributes of the nodes that
    are not selected are those of the document.  Applying the operation a
    second time changes nothing more, even when the attribute set is one
    that the selector reads. *)
Theorem setAttr_operation (rt : Runtime) (i i' : nat) (doc : Node) (op : Operation) :
  op_Type op = OpSetAttr ->
  let doc' := fst (applyOperation rt i doc op) in
  doc' = mapAttrs (fun n => if matchFunc (TrimSpace (op_Selector op)) n
                            then Attr (setAttr n (op_Property op) (op_Value op))
                            else Attr n) doc
  /\ fst (applyOperation rt i' doc' op) = doc'.
Proof.
  intros Hty. cbv zeta.
  assert (Hchar : forall k d,
             fst (applyOperation rt k d op)
             = mapAttrs (fun n => if matchFunc (TrimSpace (op_Selector op)) n
                                  then Attr (setAttr n (op_Property op) (op_Value op))
                                  else Attr n) d).
  { intros k d. rewrite applyOperation_fst.
    rewrite (applyToNodes_attrs _ _ _
               (fun _ => setAttrAttrs (op_Property op) (op_Value op))).
    - cbn [fst].
      rewrite (erase_mapAttrs _ (fun n => if matchFunc (TrimSpace (op_Selector op)) n
                                          then Attr (setAttr n (op_Property op) (op_Value op))
                                          else Attr n)); [now rewrite erase_number|].
      intros x Hx. rewrite assocAttrs_const, findNodes_filter.
      rewrite inSet_selected by (apply number_wellLabelled || assumption).
      rewrite matchFunc_erase.
      destruct (matchFunc _ x); [|now destruct x].
      rewrite (setAttr_onAttrs (erase x)). destruct x. reflexivity.
    - intros j p T. unfold applyToNode. rewrite Hty.
      cbn [String.eqb Ascii.eqb Bool.eqb OpSetText OpSetStyle OpSetAttr].
      f_equal. apply mutateAt_ext. intros x. apply setAttr_onAttrs.
    - apply number_wellLabelled.
    - rewrite findNodes_filter. apply NoDup_ptrsOf_filter, number_wellLabelled. }
  rewrite !Hchar. split; [reflexivity|].
  apply (setAttr_selected_again (matchFunc (TrimSpace (op_Selector op)))).
  intros x y. apply matchFunc_shallow.
Qed.

Lemma setAttr_operation_witness :
  fst (applyOperation plainRuntime 0 page (mkOperation "setAttr" "button" "1" "data-x" 0))
  = document
      [ element "html" nil
          [ element "head" nil nil;
            element "body" nil
              [ element "button" [("id", "cta"); ("class", "btn primary"); ("data-x", "1")]
                  [text "Get Started"];
                element "p" nil [text "Hello"] ] ] ].
Proof.
  rewrite (proj1 (setAttr_operation plainRuntime 0 1 page
                    (mkOperation "setAttr" "button" "1" "data-x" 0) eq_refl)).
  reflexivity.
Defined.

Lemma preorder_mapAttrs {P} (h : NodeOf P -> list Attribute) (n : NodeOf P) :
  List.map Attr (preorder (mapAttrs h n)) = List.map h (preorder n).
Proof.
  induction n as [q t d a cs IH] using NodeOf_induction.
  cbn [mapAttrs preorder List.map Attr]. f_equal.
  induction IH as [|c cs Hc _ IHcs]; cbn [List.map List.flat_map]; [reflexivity|].
  now rewrite !List.map_app, Hc, IHcs.
Qed.

Lemma skeleton_erase_mapAttrs {P} (h : NodeOf P -> list Attribute) (n : NodeOf P) :
  mapAttrs (fun _ => []) (erase (mapAttrs h n)) = mapAttrs (fun _ => []) (erase n).
Proof.
  induction n as [q t d a cs IH] using NodeOf_induction.
  cbn [mapAttrs erase]. f_equal. rewrite !List.map_map.
  induction IH as [|c cs Hc _ IHcs]; cbn [List.map]; [reflexivity|]. now rewrite Hc, IHcs.
Qed.

Lemma styledAttrs_erase {P} orders property value (m : NodeOf P -> bool) (m' : Node -> bool)
    (l : list (NodeOf P)) :
  (forall x, m' (erase x) = m x) ->
  forall j, styledAttrs orders property value m' (List.map erase l) j
            = styledAttrs orders property value m l j.
Proof.
  intros Hm. induction l as [|x l IH]; intros j; cbn [List.map styledAttrs]; [reflexivity|].
  rewrite Hm, !IH. destruct (m x); f_equal; [|now destruct x].
  rewrite !setStyle_onAttrs. now destruct x.
Qed.

(** The attributes after the mutations of the selected nodes of a list
    without two nodes at one address. *)
Lemma assocAttrs_styled orders property value (m : PNode -> bool) (l : list PNode) :
  NoDup (List.map Ptr l) -> List.Forall (fun q => q <> None) (List.map Ptr l) ->
  forall j,
    List.map (assocAttrs (attrMutations (fun j => setStyleAttrs (orders j) property value)
                            (List.filter m l) j)) l
    = styledAttrs orders property value m l j.
Proof.
  induction l as [|x l IH]; intros Hnd Hsome j; cbn [List.map List.filter styledAttrs];
    [reflexivity|].
  cbn [List.map] in Hnd, Hsome. apply NoDup_cons in Hnd as [Hx Hnd].
  apply List.Forall_cons_iff in Hsome as [Hpx Hsome].
  destruct (Ptr x) as [p|] eqn:Ep; [|contradiction].
  destruct (m x) eqn:Hm.
  - cbn [attrMutations]. rewrite Ep. cbn [assocAttrs]. rewrite Ep. cbn [ptEq].
    rewrite Nat.eqb_refl. f_equal.
    + rewrite setStyle_onAttrs. reflexivity.
    + rewrite <- (IH Hnd Hsome (S j)). apply List.map_ext_in. intros y Hy.
      destruct (ptEq p (Ptr y)) eqn:E; [|reflexivity]. exfalso. apply Hx.
      destruct (Ptr y) as [p'|] eqn:Ey; [|discriminate]. cbn [ptEq] in E.
      apply Nat.eqb_eq in E. subst p'. rewrite <- Ey. apply list_elem_of_In.
      now apply List.in_map.
  - f_equal; [|apply IH; assumption].
    apply assocAttrs_absent. apply List.Forall_forall. intros [p' g'] Hin. cbn [fst].
    rewrite Ep. cbn [ptEq]. apply Nat.eqb_neq. intros ->. apply Hx.
    assert (Hp : List.In p (ptrsOf (List.filter m l))).
    { rewrite <- (attrMutations_fst (fun j => setStyleAttrs (orders j) property value) _ j).
      apply List.in_map_iff. exists (p, g'). auto. }
    apply ptrsOf_In in Hp as (y & Hy & Hpy). rewrite <- Hpy. apply list_elem_of_In.
    apply List.in_map. now apply List.filter_In in Hy.
Qed.

Lemma applyToNode_style parse order op p T :
  op_Type op = OpSetStyle \/ op_Type op = OpHide \/ op_Type op = OpShow ->
  applyToNode parse order op p T
  = inl (mutateAt p (onAttrs (setStyleAttrs order (fst (styleArgs op)) (snd (styleArgs op)))) T).
Proof.
  intros Hty. unfold applyToNode, styleArgs.
  destruct Hty as [Hty|[Hty|Hty]]; rewrite Hty;
    cbn [String.eqb Ascii.eqb Bool.eqb OpSetText OpSetStyle OpSetAttr OpSetHTML OpRemove OpHide
           OpShow fst snd];
    f_equal; apply mutateAt_ext; intros x; apply setStyle_onAttrs.
Qed.

(** X14.  The operations [setStyle], [hide] and [show] rewrite style
    attributes and nothing else.  The tree, the types and the names of the
    nodes are those of the document.  Taking the nodes in pre-order, a
    node that is not selected keeps its attributes, and the selected nodes
    get the attributes that [setStyle] gives each of them alone, the
    [j]-th of them under the order of the [j]-th [range] loop, with the
    property and the value of the operation for [setStyle], "display" and
    "none" for [hide], "display" and the empty value (which deletes the
    declaration) for [show]. *)
Theorem style_operation (rt : Runtime) (i : nat) (doc : Node) (op : Operation) :
  op_Type op = OpSetStyle \/ op_Type op = OpHide \/ op_Type op = OpShow ->
  let doc' := fst (applyOperation rt i doc op) in
  mapAttrs (fun _ => []) doc' = mapAttrs (fun _ => []) doc
  /\ List.map Attr (preorder doc')
     = styledAttrs (rangeOrder rt i) (fst (styleArgs op)) (snd (styleArgs op))
         (matchFunc (TrimSpace (op_Selector op))) (preorder doc) 0.
Proof.
  intros Hty. cbv zeta. rewrite applyOperation_fst.
  rewrite (applyToNodes_attrs _ _ _
             (fun j => setStyleAttrs (rangeOrder rt i j) (fst (styleArgs op))
                         (snd (styleArgs op)))).
  - cbn [fst]. split.
    + now rewrite skeleton_erase_mapAttrs, erase_number.
    + rewrite preorder_erase, List.map_map.
      rewrite (List.map_ext (fun x => Attr (erase x)) Attr) by (intros x; now destruct x).
      rewrite preorder_mapAttrs, findNodes_filter.
      destruct (number_wellLabelled doc) as [Hnd Hsome].
      rewrite assocAttrs_styled by assumption.
      rewrite <- (erase_number doc) at 2. rewrite preorder_erase.
      symmetry. apply styledAttrs_erase. apply matchFunc_erase.
  - intros j p T. now apply applyToNode_style.
  - apply number_wellLabelled.
  - rewrite findNodes_filter. apply NoDup_ptrsOf_filter, number_wellLabelled.
Qed.

Lemma style_operation_witness :
  let doc' := fst (applyOperation plainRuntime 0 page (mkOperation "hide" "p" "" "" 0)) in
  mapAttrs (fun _ => []) doc' = mapAttrs (fun _ => []) page
  /\ List.map Attr (preorder doc')
     = [ []; []; []; [];
         [mkAttr "" "id" "cta"; mkAttr "" "class" "btn primary"]; [];
         [mkAttr "" "style" "display: none"]; [] ].
Proof.
  exact (style_operation plainRuntime 0 page (mkOperation "hide" "p" "" "" 0)
           (or_intror (or_introl eq_refl))).
Defined.

(* --------------------------------------------------------------------- *)
(** ** What [setStyle] declares *)
(* --------------------------------------------------------------------- *)

Lemma filter_updateAttr key val attrs :
  List.filter (fun a => negb (String.eqb (Key a) key)) (updateAttr key val attrs)
  = List.filter (fun a => negb (String.eqb (Key a) key)) attrs.
Proof.
  induction attrs as [|a attrs IH]; cbn [updateAttr List.filter]; [reflexivity|].
  destruct (String.eqb (Key a) key) eqn:E; cbn [List.filter Key negb].
  - now rewrite E.
  - now rewrite E, IH.
Qed.

(** X15.  On an element, with a property that has no white space at its
    ends, no semicolon and no colon, and a value without a semicolon,
    [setStyle] leaves a style attribute that reads back as intended: the
    property is declared with the value (trimmed), or not declared when the
    value is empty; every other declaration reads as before; and the name,
    the children and the attributes other than style are untouched.  So
    [hide] leaves "display" declared as "none" and [show] leaves it
    undeclared. *)
Theorem setStyle_effect {P} (order : RangeOrder) (n : NodeOf P) (property value : string) :
  validOrder order -> cleanKey property = true -> noChar ";" value = true ->
  isElement n = true ->
  let n' := setStyle order n property value in
  stylesOf n' !! property = (if String.eqb value "" then None else Some (TrimSpace value))
  /\ (forall k, k <> property -> stylesOf n' !! k = stylesOf n !! k)
  /\ List.filter (fun a => negb (String.eqb (Key a) "style")) (Attr n')
     = List.filter (fun a => negb (String.eqb (Key a) "style")) (Attr n)
  /\ Type_ n' = Type_ n /\ Data n' = Data n /\ Children n' = Children n.
Proof.
  intros Ho Hk Hv E. cbv zeta. rewrite stylesOf_setStyle by assumption.
  split; [|split].
  - rewrite lookup_fmap. unfold updateStyle. destruct (String.eqb value "").
    + now rewrite lookup_delete_eq.
    + now rewrite lookup_insert_eq.
  - intros k Hne. rewrite lookup_fmap. unfold updateStyle.
    assert (Hc : TrimSpace <$> (stylesOf n !! k) = stylesOf n !! k).
    { destruct (stylesOf n !! k) as [v|] eqn:El; [|reflexivity]. cbn. f_equal.
      pose proof (stylesOf_clean n k v El) as [_ Hcv]. cbn [snd] in Hcv.
      apply cleanVal_spec in Hcv as [Ht _]. now apply trimmed_TrimSpace. }
    destruct (String.eqb value "").
    + now rewrite lookup_delete_ne by congruence.
    + now rewrite lookup_insert_ne by congruence.
  - unfold setStyle. rewrite E. cbn [negb].
    destruct (lookupAttr "style" (Attr n)); cbn [Attr Type_ Data Children].
    + now rewrite filter_updateAttr.
    + rewrite List.filter_app. cbn [List.filter Key String.eqb Ascii.eqb Bool.eqb negb].
      now rewrite List.app_nil_r.
Qed.

Lemma setStyle_effect_witness :
  let n : Node := element "p" [("class", "x"); ("style", "color: red; display: block")] [] in
  let n' := setStyle (@List.rev _) n "display" "none" in
  stylesOf n' !! "display" = Some "none"
  /\ (forall k, k <> "display" -> stylesOf n' !! k = stylesOf n !! k)
  /\ List.filter (fun a => negb (String.eqb (Key a) "style")) (Attr n')
     = List.filter (fun a => negb (String.eqb (Key a) "style")) (Attr n)
  /\ Type_ n' = Type_ n /\ Data n' = Data n /\ Children n' = Children n.
Proof.
  exact (setStyle_effect (@List.rev _)
           (element "p" [("class", "x"); ("style", "color: red; display: block")] [] : Node)
           "display" "none" (fun l => Permutation_sym (Permutation_rev l))
           eq_refl eq_refl eq_refl).
Defined.

(* --------------------------------------------------------------------- *)
(** ** Which responses are transformed *)
(* --------------------------------------------------------------------- *)

Lemma prefix_spec sub s : String.prefix sub s = true <-> exists post, s = sub ++ post.
Proof.
  revert s. induction sub as [|c sub IH]; intros s.
  - split; [intros _; now exists s|intros _; now destruct s].
  - destruct s as [|d s]; cbn [String.prefix]; [split; [discriminate|intros (post & [=])]|].
    destruct (Ascii.ascii_dec c d) as [->|Hne].
    + rewrite IH. split; intros (post & Hp); exists post.
      * rewrite append_cons. now f_equal.
      * rewrite append_cons in Hp. now injection Hp.
    + split; [discriminate|]. intros (post & Hp). rewrite append_cons in Hp.
      injection Hp as Hc _. congruence.
Qed.

Lemma Contains_spec s sub :
  Contains s sub = true <-> exists pre post, s = pre ++ sub ++ post.
Proof.
  induction s as [|c s IH].
  - cbn [Contains]. rewrite orb_false_r, prefix_spec. split.
    + intros (post & Hp). now exists "", post.
    + intros ([|d pre] & post & Hp); [now exists post|discriminate].
  - cbn [Contains]. rewrite orb_true_iff, prefix_spec, IH. split.
    + intros [(post & Hp)|(pre & post & Hp)].
      * now exists "", post.
      * exists (String c pre), post. rewrite append_cons. now f_equal.
    + intros ([|d pre] & post & Hp).
      * left. now exists post.
      * right. rewrite append_cons in Hp. injection Hp as _ Hp. now exists pre, post.
Qed.

(** [isHTML] looks for "text/html" in the first value of the Content-Type
    field; a response without the field is not HTML. *)
Lemma isHTML_spec (resp : Response) :
  (isHTML resp = true
   <-> exists pre post, Get (Header resp) "Content-Type" = pre ++ "text/html" ++ post)
  /\ (Header resp !! "Content-Type" = None -> isHTML resp = false).
Proof.
  split; [apply Contains_spec|].
  intros Hnone. unfold isHTML, Get.
  change (CanonicalMIMEHeaderKey "Content-Type") with "Content-Type". now rewrite Hnone.
Qed.

(* --------------------------------------------------------------------- *)
(** ** The assignment of a visitor without a cookie *)
(* --------------------------------------------------------------------- *)

Lemma AssignVariant_rnd a userID experimentID variants rnd rnd' :
  AssignVariant a userID experimentID variants rnd
  = AssignVariant a userID experimentID variants rnd'.
Proof.
  unfold AssignVariant. destruct variants as [|v0 [|v1 rest]]; try reflexivity.
  now rewrite !getBucket_spec_bucket.
Qed.

Lemma AssignVariant_In a userID experimentID variants rnd v :
  AssignVariant a userID experimentID variants rnd = Some v -> List.In v variants.
Proof.
  unfold AssignVariant. destruct variants as [|v0 [|v1 rest]]; [discriminate|intros [= ->]; now left|].
  destruct (assignLoop _ _ _) as [v'|] eqn:E; intros [= <-]; [|now left].
  now apply assignLoop_In in E.
Qed.

(** X17.  A visitor without an assignment cookie whose address or user
    agent is known is assigned by these alone: two requests with the same
    remote address and user agent get the same variant of an experiment,
    from any two middlewares with the same salt, as long as the service
    gives the same variant list; the random source plays no part.  The
    variant assigned is one of the list, reported as a new assignment
    after one call to the service. *)
Theorem new_visitor_assignment (w w' : World) (m m' : ExperiFlowMiddleware)
    (req req' : Request) (experimentID : string) (v0 : Variant) (rest : list Variant) :
  RequestCookie req ("ef_var_" ++ experimentID) = None ->
  RequestCookie req' ("ef_var_" ++ experimentID) = None ->
  RemoteAddr req' = RemoteAddr req -> UserAgent req' = UserAgent req ->
  negb (String.eqb (RemoteAddr req) "") || negb (String.eqb (UserAgent req) "") = true ->
  assigner m' = assigner m ->
  GetVariants w experimentID = inr (v0 :: rest) ->
  GetVariants w' experimentID = inr (v0 :: rest) ->
  getOrAssignVariant w' m' req' experimentID ("ef_var_" ++ experimentID)
  = getOrAssignVariant w m req experimentID ("ef_var_" ++ experimentID)
  /\ exists v, List.In v (v0 :: rest)
       /\ getOrAssignVariant w m req experimentID ("ef_var_" ++ experimentID)
          = (v_ID v, v_Name v, true, [CallGetVariants experimentID]).
Proof.
  intros Hc Hc' Ha Hu Hknown Hm Hv Hv'.
  unfold getOrAssignVariant, assignNew. rewrite Hc, Hc', Hv, Hv', Ha, Hu, Hm.
  assert (Hid : forall r, GetUserID "" (RemoteAddr req) (UserAgent req) r
                          = GetUserID "" (RemoteAddr req) (UserAgent req) (randIntn1000000 w)).
  { intros r. unfold GetUserID. cbn [String.eqb negb]. now rewrite Hknown. }
  rewrite (Hid (randIntn1000000 w')).
  rewrite (AssignVariant_rnd _ _ _ _ (randIntn100 w') (randIntn100 w)).
  split; [reflexivity|].
  destruct (AssignVariant _ _ _ _ _) as [v|] eqn:E.
  - exists v. split; [|reflexivity]. now apply AssignVariant_In in E.
  - unfold AssignVariant in E. destruct rest; [discriminate|].
    destruct (assignLoop _ _ _); discriminate.
Qed.

Lemma new_visitor_assignment_witness :
  let w := exWorld (inr exVariants) (inr (exSpec [])) in
  let w' := mkWorld (GetVariants w) (GetTransformSpec w) (parseHTML w) (renderHTML w)
              (cookieString w) (elapsedMs w) 17 4242 (experimentOrder w) (runtimeOf w) in
  let m := NewExperiFlowMiddleware (exConfig true) ["exp-1"] in
  let m' := NewExperiFlowMiddleware (exConfig false) ["exp-1"; "exp-2"] in
  getOrAssignVariant w' m' newVisitor "exp-1" "ef_var_exp-1"
  = getOrAssignVariant w m newVisitor "exp-1" "ef_var_exp-1"
  /\ exists v, List.In v exVariants
       /\ getOrAssignVariant w m newVisitor "exp-1" "ef_var_exp-1"
          = (v_ID v, v_Name v, true, [CallGetVariants "exp-1"]).
Proof.
  exact (new_visitor_assignment
           (exWorld (inr exVariants) (inr (exSpec [])))
           (mkWorld (fun _ => inr exVariants) (fun _ _ => inr (exSpec []))
              (fun body => Some (document [text body]))
              (fun doc => Some (String.concat "" (List.map Data (Children doc))))
              exCookieString (fun _ => 35) 17 4242 (fun l => l) (fun _ => plainRuntime))
           (NewExperiFlowMiddleware (exConfig true) ["exp-1"])
           (NewExperiFlowMiddleware (exConfig false) ["exp-1"; "exp-2"])
           newVisitor newVisitor "exp-1"
           (mkVariant "v1" "Control" true 0.5) [mkVariant "v2" "Green" false 0.5]
           eq_refl eq_refl eq_refl eq_refl eq_refl eq_refl eq_refl eq_refl).
Defined.


(* --------------------------------------------------------------------- *)
(** ** The warnings of a batch *)
(* --------------------------------------------------------------------- *)

Lemma applyFrom_snd_app rt ops1 ops2 :
  forall i doc,
    snd (applyFrom rt i doc (ops1 ++ ops2)%list)
    = (snd (applyFrom rt i doc ops1)
       ++ snd (applyFrom rt (i + List.length ops1) (fst (applyFrom rt i doc ops1)) ops2))%list.
Proof.
  induction ops1 as [|op ops1 IH]; intros i doc; cbn [applyFrom app List.length].
  - now rewrite Nat.add_0_r.
  - destruct (applyOperation rt i doc op) as [doc' err].
    specialize (IH (S i) doc').
    destruct (applyFrom rt (S i) doc' (ops1 ++ ops2)%list) as [d1 w1].
    destruct (applyFrom rt (S i) doc' ops1) as [d2 w2].
    cbn [fst snd] in *. subst w1.
    replace (i + S (List.length ops1))%nat with (S i + List.length ops1)%nat by lia.
    now destruct err.
Qed.

Lemma applyFrom_snd_cons rt i doc op rest :
  snd (applyFrom rt i doc (op :: rest))
  = (match snd (applyOperation rt i doc op) with
     | Some e => [(op, e)]
     | None => []
     end ++ snd (applyFrom rt (S i) (fst (applyOperation rt i doc op)) rest))%list.
Proof.
  cbn [applyFrom]. destruct (applyOperation rt i doc op) as [doc' err]. cbn [fst snd].
  destruct (applyFrom rt (S i) doc' rest) as [d w]. now destruct err.
Qed.

Lemma ApplyTransformations_warnings rt doc operations :
  ar_warnings (ApplyTransformations rt doc operations) = snd (applyFrom rt 0 doc operations).
Proof. unfold ApplyTransformations. destruct (applyFrom rt 0 doc operations). reflexivity. Qed.

(** X18.  [ApplyTransformations] prints one warning for each operation
    that is given up, where it stands in the batch, and none for the
    others: the warnings of a batch are those of the operations before
    [op], then the warning of [op] if, on the document that they leave, its
    selector finds no node (the warning names the selector) or its type is
    not recognized (the warning names the type), then those of the
    operations after it. *)
Theorem batch_warnings (rt : Runtime) (doc : Node) (before after : list Operation)
    (op : Operation) :
  let d := ar_doc (ApplyTransformations rt doc before) in
  ar_warnings (ApplyTransformations rt doc (before ++ op :: after)%list)
  = (ar_warnings (ApplyTransformations rt doc before)
     ++ (if skipped d op
         then [(op, match findNodesBySelector d (op_Selector op) with
                    | [] => ErrNoElements (op_Selector op)
                    | _ :: _ => ErrUnknownType (op_Type op)
                    end)]
         else [])
     ++ snd (applyFrom rt (S (List.length before))
               (fst (applyOperation rt (List.length before) d op)) after))%list.
Proof.
  cbv zeta. rewrite !ApplyTransformations_warnings, ApplyTransformations_doc.
  rewrite applyFrom_snd_app, applyFrom_snd_cons. cbn [Nat.add]. f_equal. f_equal.
  set (d := fst (applyFrom rt 0 doc before)).
  assert (He : snd (applyOperation rt (List.length before) d op)
               = match findNodesBySelector d (op_Selector op) with
                 | [] => Some (ErrNoElements (op_Selector op))
                 | _ :: _ =>
                     if knownType (op_Type op) then None else Some (ErrUnknownType (op_Type op))
                 end).
  { apply applyOperation_snd. }
  rewrite He. unfold skipped.
  destruct (findNodesBySelector d (op_Selector op)); [reflexivity|].
  now destruct (knownType (op_Type op)).
Qed.

(* --------------------------------------------------------------------- *)
(** ** A specification that cannot be fetched *)
(* --------------------------------------------------------------------- *)

(** X19.  When the visitor carries the assignment cookie of the first
    experiment visited and the specification of that experiment cannot be
    fetched (the deadline is exceeded, or any other failure),
    [ModifyResponse] hands back the response of the origin as it is, body,
    length and every header field, after that one call: no other
    experiment is attempted.  It reports success when fail-open is enabled
    and the fetch error otherwise. *)
Theorem ModifyResponse_spec_failure (w : World) (m : ExperiFlowMiddleware) (resp : Response)
    (req : Request) (experimentID value : string) (rest : list string) (e : FetchError) :
  isHTML resp = true ->
  rangeExperiments w m = experimentID :: rest ->
  RequestCookie req ("ef_var_" ++ experimentID) = Some value ->
  String.eqb value "" = false ->
  GetTransformSpec w experimentID value = inl e ->
  ModifyResponse w m resp req
  = mkOutcome resp [CallGetTransformSpec experimentID value]
      (if FailOpen (config m) then None else Some (ErrFetchSpec e)).
Proof.
  intros Hhtml Hids Hc Hv Hspec. unfold ModifyResponse. rewrite Hhtml, Hids.
  cbn [negb applyExperiments]. unfold applyExperiment, getOrAssignVariant.
  rewrite Hc, Hv. cbn [negb]. rewrite Hv, Hspec. cbn [o_err o_resp o_calls app].
  now destruct (FailOpen (config m)).
Qed.

Lemma ModifyResponse_spec_failure_witness :
  ModifyResponse (exWorld (inr exVariants) (inl DeadlineExceeded))
    (NewExperiFlowMiddleware (exConfig false) ["exp-1"; "exp-2"])
    (htmlResponse "<p>Hi</p>") returningVisitor
  = mkOutcome (htmlResponse "<p>Hi</p>") [CallGetTransformSpec "exp-1" "v2"]
      (Some (ErrFetchSpec DeadlineExceeded)).
Proof.
  exact (ModifyResponse_spec_failure (exWorld (inr exVariants) (inl DeadlineExceeded))
           (NewExperiFlowMiddleware (exConfig false) ["exp-1"; "exp-2"])
           (htmlResponse "<p>Hi</p>") returningVisitor "exp-1" "v2" ["exp-2"] DeadlineExceeded
           eq_refl eq_refl eq_refl eq_refl eq_refl).
Defined.
